(** * recruiting-github-crawler: the developer base and the geo parser

    A shallow embedding of [github_crawler/github_crawler.py] (class
    [DeveloperBase]) and of [github_crawler/geo_parser.py] (class
    [GeoParser]), with the properties of the crawl that the specification
    states about them.

    Python objects are modelled as follows.
    - [dict] keyed by login: [gmap string _]; [set] of repository names:
      [gset string]; [list]: [list].
    - [str]: [string], the sequence of the bytes of the text in UTF-8;
      [int]: [Z]; [float]: the kernel's binary64 [float]; a value that is
      an [int] or a [float]: [number].
    - an exception: the [Raise] outcome of a computation; a method of
      [DeveloperBase]: a computation in the monad [M], which threads the
      object it mutates and the events it causes (platform requests,
      sleeps, snapshots, status reports), and keeps both when it raises.
    - the platform (PyGithub and the clock) is not part of the repository:
      it is an input of the model, see [NamedUser], [Repository] and
      [Platform]; so are the methods [str.lower] and [str.strip] of Python
      that the geo parser calls, see [GeoParser.Text]. *)

From Stdlib Require Import ZArith String Ascii List.
From Stdlib Require Import Floats.PrimFloat Floats.FloatOps Floats.SpecFloat.
From stdpp Require Import gmap strings list sorting.

(** ** Exceptions and outcomes *)

(** The exception classes that the code names or that its statements can
    raise. [GithubException] stands for any other failure of a platform
    request. *)
Inductive exn : Type :=
| RateLimitExceededException
| UnknownObjectException
| GithubException
| NameError
| ValueError
| KeyError
| AttributeError.

#[global] Instance exn_eq_dec : EqDecision exn.
Proof. solve_decision. Defined.

Inductive outcome (A : Type) : Type :=
| Return (a : A)
| Raise (e : exn).
Arguments Return {A} a.
Arguments Raise {A} e.

(** ** Platform objects *)

(** [github.NamedUser.NamedUser]. A user taken from a listing carries its
    login; every other attribute is fetched on first access (one request
    for the whole profile), and that request can fail: with
    [UnknownObjectException] for an account that is gone, with
    [RateLimitExceededException] when the quota is spent. [profile] is
    the outcome of that request. *)
Module NamedUser.
Record Profile : Type := {
  name : option string;
  twitter_username : option string;
  email : option string;
  location : option string;
  company : option string;
  bio : option string;
  blog : option string;
}.

Record t : Type := {
  login : string;
  profile : outcome Profile;
}.

(** [github_user.<attribute>] for an attribute of the profile. *)
Definition getattr (attribute : Profile -> option string) (github_user : t)
  : outcome (option string) :=
  match profile github_user with
  | Return p => Return (attribute p)
  | Raise e => Raise e
  end.
End NamedUser.

(** ** Developer records *)

(** The dictionary stored under a login in [DeveloperBase.developers], with
    the keys of the source (including the spelling [twitter_unsername]). *)
Module Developer.
Record t : Type := {
  name : option string;
  github_url : string;
  twitter_unsername : option string;
  email : option string;
  location : option string;
  company : option string;
  bio : option string;
  blog : option string;
  contributed_to : gset string;
  stared : gset string;
  forked : gset string;
}.

(** The three [set.update] calls of [DeveloperBase.add] on one record. *)
Definition update (contributed_to' forked' stared' : gset string) (d : t) : t :=
  {| name := name d;
     github_url := github_url d;
     twitter_unsername := twitter_unsername d;
     email := email d;
     location := location d;
     company := company d;
     bio := bio d;
     blog := blog d;
     contributed_to := contributed_to d ∪ contributed_to';
     stared := stared d ∪ stared';
     forked := forked d ∪ forked' |}.
End Developer.

Record DeveloperBase : Type := {
  developers : gmap string Developer.t;
  corrupted_user_names : list string;
  crawled_projects_for_contributors : gset string;
  crawled_projects_for_stargazers : gset string;
  crawled_projects_for_forkers : gset string;
  file_path : option string;
}.

(** [DeveloperBase.__init__]. *)
Definition init (file_path : option string) : DeveloperBase :=
  {| developers := ∅;
     corrupted_user_names := [];
     crawled_projects_for_contributors := ∅;
     crawled_projects_for_stargazers := ∅;
     crawled_projects_for_forkers := ∅;
     file_path := file_path |}.

Definition set_developers (f : gmap string Developer.t -> gmap string Developer.t)
  (self : DeveloperBase) : DeveloperBase :=
  {| developers := f (developers self);
     corrupted_user_names := corrupted_user_names self;
     crawled_projects_for_contributors := crawled_projects_for_contributors self;
     crawled_projects_for_stargazers := crawled_projects_for_stargazers self;
     crawled_projects_for_forkers := crawled_projects_for_forkers self;
     file_path := file_path self |}.

Definition set_corrupted_user_names (f : list string -> list string)
  (self : DeveloperBase) : DeveloperBase :=
  {| developers := developers self;
     corrupted_user_names := f (corrupted_user_names self);
     crawled_projects_for_contributors := crawled_projects_for_contributors self;
     crawled_projects_for_stargazers := crawled_projects_for_stargazers self;
     crawled_projects_for_forkers := crawled_projects_for_forkers self;
     file_path := file_path self |}.

(** The three relation kinds, and the completion set of each. *)
Inductive kind : Type := Contributors | Stargazers | Forkers.

#[global] Instance kind_eq_dec : EqDecision kind.
Proof. solve_decision. Defined.

Definition crawled_projects_for (k : kind) (self : DeveloperBase) : gset string :=
  match k with
  | Contributors => crawled_projects_for_contributors self
  | Stargazers => crawled_projects_for_stargazers self
  | Forkers => crawled_projects_for_forkers self
  end.

(** [self.crawled_projects_for_<k>.add(full_name)]. *)
Definition mark_crawled (k : kind) (full_name : string) (self : DeveloperBase)
  : DeveloperBase :=
  {| developers := developers self;
     corrupted_user_names := corrupted_user_names self;
     crawled_projects_for_contributors :=
       match k with
       | Contributors => crawled_projects_for_contributors self ∪ {[full_name]}
       | _ => crawled_projects_for_contributors self
       end;
     crawled_projects_for_stargazers :=
       match k with
       | Stargazers => crawled_projects_for_stargazers self ∪ {[full_name]}
       | _ => crawled_projects_for_stargazers self
       end;
     crawled_projects_for_forkers :=
       match k with
       | Forkers => crawled_projects_for_forkers self ∪ {[full_name]}
       | _ => crawled_projects_for_forkers self
       end;
     file_path := file_path self |}.

(** ** Events and the monad of methods *)

(** A Python number: the argument of [time.sleep] is the [float] pacing
    delay in the crawl of a relation and the [int] time to the reset of the
    quota after a rate limit. *)
Inductive number : Type :=
| Int (z : Z)
| Float (f : float).

(** What a run does to the outside: [G.get_repo(project)], the request of
    the listing of a relation kind for a repository
    ([repo.get_contributors()], [repo.get_stargazers()], [repo.get_forks()]),
    [time.sleep(secs)], the snapshot written by [save], the status report. *)
Inductive event : Type :=
| EvGetRepo (project : string)
| EvFetch (k : kind) (full_name : string)
| EvSleep (secs : number)
| EvSave (path : string) (snapshot : DeveloperBase)
| EvStatus (n1 n2 n3 n4 : nat) (n_remaining_projects : option nat).

(** A computation over a mutable state [S]: the state it leaves, the events
    it caused, and its outcome. A computation that raises keeps the state
    and the events of the statements executed before the exception. *)
Definition M (S A : Type) : Type := S -> S * list event * outcome A.

Definition ret {S A : Type} (a : A) : M S A := fun s => (s, [], Return a).

Definition raise {S A : Type} (e : exn) : M S A := fun s => (s, [], Raise e).

Definition bind {S A B : Type} (m : M S A) (f : A -> M S B) : M S B :=
  fun s =>
    match m s with
    | (s1, tr1, Return a) =>
        match f a s1 with
        | (s2, tr2, r) => (s2, tr1 ++ tr2, r)
        end
    | (s1, tr1, Raise e) => (s1, tr1, Raise e)
    end.

Declare Scope crawl_scope.
Delimit Scope crawl_scope with crawl.
Notation "x <- m ;; k" := (bind m (fun x => k))
  (at level 100, m at next level, right associativity) : crawl_scope.
Notation "m ;; k" := (bind m (fun _ => k))
  (at level 100, right associativity) : crawl_scope.
Open Scope crawl_scope.

Definition get {S : Type} : M S S := fun s => (s, [], Return s).

Definition modify {S : Type} (f : S -> S) : M S unit := fun s => (f s, [], Return tt).

Definition emit {S : Type} (ev : event) : M S unit := fun s => (s, [ev], Return tt).

(** The outcome of a request, as a computation. *)
Definition lift {S A : Type} (r : outcome A) : M S A := fun s => (s, [], r).

(** [if c: body]. *)
Definition when {S : Type} (c : bool) (body : M S unit) : M S unit :=
  if c then body else ret tt.

(** [try: body  except <cls>: handler], for the one class [cls]. *)
Definition try_except {S A : Type} (body : M S A) (cls : exn) (handler : M S A)
  : M S A :=
  fun s =>
    match body s with
    | (s1, tr1, Raise e) =>
        if decide (e = cls) then
          match handler s1 with
          | (s2, tr2, r) => (s2, tr1 ++ tr2, r)
          end
        else (s1, tr1, Raise e)
    | res => res
    end.

(** ** DeveloperBase.add *)

(** [github_user.<attribute>] inside a method. *)
Definition attr {S : Type} (attribute : NamedUser.Profile -> option string)
  (github_user : NamedUser.t) : M S (option string) :=
  lift (NamedUser.getattr attribute github_user).

(** [f"https://github.com/{k}"]. *)
Definition github_url_of (k : string) : string := "https://github.com/" +:+ k.

(** The type assertions of the source hold by typing. The record is created
    only when the login is not a key yet; the three sets are updated in
    either case; [UnknownObjectException] is the one exception handled. *)
Definition add (github_user : NamedUser.t)
  (contributed_to forked stared : gset string) : M DeveloperBase unit :=
  try_except
    (let k := NamedUser.login github_user in
     self <- get ;;
     when (bool_decide (developers self !! k = None))
       (name <- attr NamedUser.name github_user ;;
        twitter_username <- attr NamedUser.twitter_username github_user ;;
        email <- attr NamedUser.email github_user ;;
        location <- attr NamedUser.location github_user ;;
        company <- attr NamedUser.company github_user ;;
        bio <- attr NamedUser.bio github_user ;;
        blog <- attr NamedUser.blog github_user ;;
        modify (set_developers (insert k
          {| Developer.name := name;
             Developer.github_url := github_url_of k;
             Developer.twitter_unsername := twitter_username;
             Developer.email := email;
             Developer.location := location;
             Developer.company := company;
             Developer.bio := bio;
             Developer.blog := blog;
             Developer.contributed_to := ∅;
             Developer.stared := ∅;
             Developer.forked := ∅ |}))) ;;
     modify (set_developers
       (alter (Developer.update contributed_to forked stared) k)))
    UnknownObjectException
    (modify (set_corrupted_user_names
       (fun l => l ++ [NamedUser.login github_user]))).

(** ** The objects that the platform returns *)

(** [github.PaginatedList.PaginatedList]: a lazy sequence. [totalCount] is a
    request of its own; iterating fetches page after page, so every step
    either yields an element or raises, and nothing after a [Raise] is
    reached. *)
Record PaginatedList (A : Type) : Type := {
  totalCount : outcome nat;
  pages : list (outcome A);
}.
Arguments totalCount {A} _.
Arguments pages {A} _.

(** An element of [repo.get_forks()]: the fork, of which the crawl reads
    [owner] and [full_name]. *)
Module Fork.
Record t : Type := {
  full_name : string;
  owner : NamedUser.t;
}.
End Fork.

(** [github.Repository.Repository]. *)
Module Repository.
Record t : Type := {
  full_name : string;
  get_contributors : PaginatedList NamedUser.t;
  get_stargazers : PaginatedList NamedUser.t;
  get_forks : PaginatedList Fork.t;
}.
End Repository.

(** The platform as the crawl sees it through [Github(gh_token)], and the
    clock. The answers change with time: they are indexed by the number of
    the iteration of the crawl loop in which they are asked for ([0] also
    for what is asked before the loop). [pick] decides which element
    [set.pop()] removes, which Python leaves unspecified. *)
Record Platform : Type := {
  rate_limiting : nat -> Z * Z;
  rate_limiting_resettime : nat -> Z;
  get_repo : nat -> string -> outcome Repository.t;
  time : nat -> Z;
  pick : nat -> gset string -> nat;
}.

(** ** Loops and sleeping *)

(** [for x in pages: body], where [body] may update a local variable
    [acc] of the enclosing method. *)
Fixpoint for_each {S A B : Type} (pages : list (outcome A)) (acc : B)
  (body : A -> B -> M S B) : M S B :=
  match pages with
  | [] => ret acc
  | Return a :: rest => acc' <- body a acc ;; for_each rest acc' body
  | Raise e :: _ => raise e
  end.

Definition is_negative (secs : number) : bool :=
  match secs with
  | Int z => (z <? 0)%Z
  | Float f => PrimFloat.ltb f 0
  end.

(** [time.sleep(secs)]: a negative argument raises [ValueError]. *)
Definition sleep {S : Type} (secs : number) : M S unit :=
  if is_negative secs then raise ValueError else emit (EvSleep secs).

(** [tqdm(l, total=l.totalCount)]: the total is requested before the
    iteration starts; the progress bar itself is not modelled. *)
Definition tqdm {S A : Type} (l : PaginatedList A) : M S (list (outcome A)) :=
  _ <- lift (totalCount l) ;; ret (pages l).

(** ** Crawling one relation of one repository *)

Definition add_contributors (repo : Repository.t) (dt : number)
  : M DeveloperBase unit :=
  self <- get ;;
  if bool_decide (Repository.full_name repo ∈ crawled_projects_for_contributors self)
  then ret tt
  else
    emit (EvFetch Contributors (Repository.full_name repo)) ;;
    let contributors := Repository.get_contributors repo in
    items <- tqdm contributors ;;
    for_each items tt (fun contributor _ =>
      add contributor {[Repository.full_name repo]} ∅ ∅ ;;
      sleep dt) ;;
    modify (mark_crawled Contributors (Repository.full_name repo)).

Definition add_stargazers (repo : Repository.t) (dt : number)
  : M DeveloperBase unit :=
  self <- get ;;
  if bool_decide (Repository.full_name repo ∈ crawled_projects_for_stargazers self)
  then ret tt
  else
    emit (EvFetch Stargazers (Repository.full_name repo)) ;;
    let stargazers := Repository.get_stargazers repo in
    items <- tqdm stargazers ;;
    for_each items tt (fun stargazer _ =>
      add stargazer ∅ ∅ {[Repository.full_name repo]} ;;
      sleep dt) ;;
    modify (mark_crawled Stargazers (Repository.full_name repo)).

Definition add_forkers (repo : Repository.t) (dt : number)
  : M DeveloperBase (list string) :=
  self <- get ;;
  if bool_decide (Repository.full_name repo ∈ crawled_projects_for_forkers self)
  then ret []
  else
    emit (EvFetch Forkers (Repository.full_name repo)) ;;
    let forks := Repository.get_forks repo in
    items <- tqdm forks ;;
    forked_projects <- for_each items [] (fun fork forked_projects =>
      let forker := Fork.owner fork in
      add forker ∅ {[Repository.full_name repo]} ∅ ;;
      let forked_projects := forked_projects ++ [Fork.full_name fork] in
      sleep dt ;;
      ret forked_projects) ;;
    modify (mark_crawled Forkers (Repository.full_name repo)) ;;
    ret forked_projects.

(** ** Snapshots and status *)

(** [save]: [pickle.dump(self, f)] when [self.file_path] is truthy. *)
Definition save : M DeveloperBase unit :=
  self <- get ;;
  match file_path self with
  | Some p => if bool_decide (p = "") then ret tt else emit (EvSave p self)
  | None => ret tt
  end.

Definition print_status (n_remaining_projects : option nat) : M DeveloperBase unit :=
  self <- get ;;
  let n1 := size (crawled_projects_for_contributors self) in
  let n2 := size (crawled_projects_for_stargazers self) in
  let n3 := size (crawled_projects_for_forkers self) in
  let n4 := size (developers self) in
  emit (EvStatus n1 n2 n3 n4 n_remaining_projects).

(** ** DeveloperBase.get_all_projects and DeveloperBase.__len__ *)

(** [get_all_projects]: the loop over [self.developers.items()] collects
    the three kinds of sets in three accumulators, whose union is
    returned. *)
Definition get_all_projects (self : DeveloperBase) : gset string :=
  let '(contributed_to, stared, forked) :=
    fold_left
      (fun (acc : gset string * gset string * gset string) (kv : string * Developer.t) =>
         let '(contributed_to, stared, forked) := acc in
         let v := kv.2 in
         (contributed_to ∪ Developer.contributed_to v,
          stared ∪ Developer.stared v,
          forked ∪ Developer.forked v))
      (map_to_list (developers self))
      (∅, ∅, ∅) in
  contributed_to ∪ stared ∪ forked.

(** [__len__]. *)
Definition len (self : DeveloperBase) : nat := size (developers self).

(** ** DeveloperBase.find_developers *)

(** The conversion of an [int] operand of a [float] operation: the nearest
    binary64 value. *)
Definition float_of_int (n : Z) : float :=
  SF2Prim (binary_normalize prec emax n 0 false).

(** The object and the local variables of [find_developers] that the loop
    updates. [forked_projects] is [None] as long as no assignment to it has
    been executed. *)
Record Frame : Type := {
  self : DeveloperBase;
  projects : gset string;
  forked_projects : option (list string);
}.

Definition set_self (s : DeveloperBase) (fr : Frame) : Frame :=
  {| self := s; projects := projects fr; forked_projects := forked_projects fr |}.

Definition set_projects (f : gset string -> gset string) (fr : Frame) : Frame :=
  {| self := self fr; projects := f (projects fr);
     forked_projects := forked_projects fr |}.

Definition set_forked_projects (l : list string) (fr : Frame) : Frame :=
  {| self := self fr; projects := projects fr; forked_projects := Some l |}.

(** A method call [self.m(...)] inside [find_developers]. *)
Definition on_self {A : Type} (m : M DeveloperBase A) : M Frame A :=
  fun fr =>
    match m (self fr) with
    | (s, tr, r) => (set_self s fr, tr, r)
    end.

(** Reading the local variable [forked_projects]. *)
Definition read_forked_projects : M Frame (list string) :=
  fr <- get ;;
  match forked_projects fr with
  | Some l => ret l
  | None => raise NameError
  end.

(** How a run of the loop stands after a number of iterations: finished,
    by leaving the loop or by an exception that nothing handles, or still
    running. *)
Inductive status : Type :=
| Finished (r : outcome unit)
| Running.

#[local] Set Warnings "-inexact-float".

Section Crawl.
Variable G : Platform.
Variables go_recursive ignore_contributors ignore_forkers ignore_stargazers
  ignore_rate_limiting : bool.

(** The pacing delay, computed once before the loop. *)
Definition pacing_delay : number :=
  if ignore_rate_limiting then Float 0
  else
    let '(n_request_remaining, n_requests_total) := rate_limiting G 0 in
    Float (1.01 * float_of_int n_requests_total / 3600).

(** [projects.pop()]. *)
Definition pop (tick : nat) (projects : gset string) : option string :=
  let l := elements projects in
  l !! (pick G tick projects `mod` length l).

Definition report : M Frame unit :=
  fr <- get ;;
  on_self (print_status (Some (size (projects fr)))).

(** The body of [try] after [project = projects.pop()], up to the stage
    of the forkers. *)
Definition crawl_relations (tick : nat) (dt : number) (project : string)
  : M Frame unit :=
  emit (EvGetRepo project) ;;
  repo <- lift (get_repo G tick project) ;;
  when (negb ignore_contributors)
    (on_self (add_contributors repo dt) ;;
     on_self save ;;
     report) ;;
  when (negb ignore_stargazers)
    (on_self (add_stargazers repo dt) ;;
     on_self save ;;
     report) ;;
  when (negb ignore_forkers)
    (l <- on_self (add_forkers repo dt) ;;
     modify (set_forked_projects l) ;;
     on_self save ;;
     report).

(** [if go_recursive: projects.update(forked_projects)]. *)
Definition update_frontier : M Frame unit :=
  when go_recursive
    (l <- read_forked_projects ;;
     modify (set_projects (fun projects => projects ∪ list_to_set l))).

(** The whole body of [try] after the pop. *)
Definition crawl_project (tick : nat) (dt : number) (project : string)
  : M Frame unit :=
  crawl_relations tick dt project ;;
  update_frontier.

(** The [except RateLimitExceededException] block. *)
Definition rate_limit_handler (tick : nat) (project : string) : M Frame unit :=
  let dt_wait := (rate_limiting_resettime G tick - time G tick + 10)%Z in
  modify (set_projects (fun projects => projects ∪ {[project]})) ;;
  sleep (Int dt_wait).

(** One iteration of [while len(projects)], entered with a non-empty
    frontier. [pop] is the first statement of [try]; on a non-empty set
    it cannot raise, so the handler always sees the [project] of its own
    iteration. *)
Definition iteration (tick : nat) (dt : number) : M Frame unit :=
  fr <- get ;;
  match pop tick (projects fr) with
  | None => raise KeyError
  | Some project =>
      modify (set_projects (fun projects => projects ∖ {[project]})) ;;
      try_except (crawl_project tick dt project)
        RateLimitExceededException
        (rate_limit_handler tick project)
  end.

(** The loop, cut after [fuel] iterations. *)
Fixpoint loop (fuel : nat) (tick : nat) (dt : number) (fr : Frame)
  : Frame * list event * status :=
  if bool_decide (size (projects fr) = 0) then (fr, [], Finished (Return tt))
  else
    match fuel with
    | O => (fr, [], Running)
    | S fuel' =>
        match iteration tick dt fr with
        | (fr1, tr1, Return _) =>
            match loop fuel' (S tick) dt fr1 with
            | (fr2, tr2, st) => (fr2, tr1 ++ tr2, st)
            end
        | (fr1, tr1, Raise e) => (fr1, tr1, Finished (Raise e))
        end
    end.

(** [find_developers(gh_token, projects, ...)] on the object [self0]. *)
Definition find_developers (fuel : nat) (projects0 : list string)
  (self0 : DeveloperBase) : Frame * list event * status :=
  loop fuel 0 pacing_delay
    {| self := self0; projects := list_to_set projects0;
       forked_projects := None |}.
End Crawl.

(** ** searches/test_search/find.py *)

(** The script restores the base from [developers.pkl] when that file
    exists ([stored] is the object pickled in it) and creates one bound to
    that path otherwise, then crawls its two projects with the default
    options. *)
Module Find.
Definition file_path : string := "developers.pkl".

Definition projects : list string :=
  ["thuyngch/Iris-Recognition"; "vturrisi/solo-learn"].

Definition main (G : Platform) (stored : option DeveloperBase) (fuel : nat)
  : Frame * list event * status :=
  let developer_base :=
    match stored with
    | Some restored => restored
    | None => init (Some file_path)
    end in
  find_developers G false false false false false fuel projects developer_base.
End Find.

(** ** DeveloperBase.rank_developers *)

(** A row of the ranked table: the index (the login), the columns of the
    developer record, and the score. *)
Record RankedEntry : Type := {
  index : string;
  row : Developer.t;
  score : Z;
}.

(** [pd.isna] on a cell of an object column: true for [None], false for
    every string, the empty one included. *)
Definition isna (cell : option string) : bool :=
  match cell with
  | None => true
  | Some _ => false
  end.

Definition ranks_before (a b : RankedEntry) : Prop := (score b <= score a)%Z.

#[global] Instance ranks_before_dec : RelDecision ranks_before.
Proof. intros a b. unfold ranks_before. apply _. Defined.

(** [pd.DataFrame.from_dict(self.developers, orient="index")] has one row
    per login; for an empty dictionary it has no columns, so that the first
    column access ([df.email] or [df.contributed_to]) raises
    [AttributeError]. The order that [sort_values] gives to rows of equal
    score is not fixed by pandas; the model sorts by merging. *)
Definition rank_developers (score_contributed score_forked score_stared : Z)
  (exclude_miussing_email : bool) (self : DeveloperBase)
  : outcome (list RankedEntry) :=
  let df := map_to_list (developers self) in
  if bool_decide (df = []) then Raise AttributeError
  else
    let df :=
      if exclude_miussing_email
      then List.filter (fun r => negb (isna (Developer.email r.2))) df
      else df in
    let scored :=
      List.map (fun r =>
        {| index := r.1;
           row := r.2;
           score :=
             score_contributed * Z.of_nat (size (Developer.contributed_to r.2))
             + score_forked * Z.of_nat (size (Developer.forked r.2))
             + score_stared * Z.of_nat (size (Developer.stared r.2)) |}) df in
    Return (merge_sort ranks_before scored).

(** ** GeoParser *)

Module GeoParser.
(** A row of the gazetteer [assets/worldcities.csv], restricted to the
    three columns that [__init__] keeps. *)
Record row : Type := {
  city : string;
  city_ascii : string;
  country : string;
}.

(** The two methods of [str] that the parser calls, [s.lower()] and
    [s.strip()]. Python defines them on Unicode text: the lower case of
    the cased letters of every script, the white space of every script.
    The parser is modelled over any pair of such functions, so that what
    is proved of it holds whatever the two methods do to a string; where
    a property needs a fact about them, it is a hypothesis of the
    property. A string is a sequence of bytes, the UTF-8 encoding of the
    text: the byte of the comma occurs in no other character, so the
    equality of strings and the split at the commas are those of
    Python. *)
Class Text : Type := {
  lower : string -> string;
  strip : string -> string;
}.

(** The two methods on ASCII text: they treat the ASCII letters and the
    ASCII white space as Python does and leave every other byte as it
    is. They are the methods of Python on every string that has, outside
    ASCII, no letter that [str.lower] changes and no white space. *)
Definition lower_ascii (c : ascii) : ascii :=
  let n := nat_of_ascii c in
  if (65 <=? n)%nat && (n <=? 90)%nat then ascii_of_nat (n + 32) else c.

Fixpoint ascii_lower (s : string) : string :=
  match s with
  | EmptyString => EmptyString
  | String c s' => String (lower_ascii c) (ascii_lower s')
  end.

Definition is_space (c : ascii) : bool :=
  let n := nat_of_ascii c in
  ((9 <=? n)%nat && (n <=? 13)%nat) || ((28 <=? n)%nat && (n <=? 32)%nat).

Fixpoint lstrip (s : string) : string :=
  match s with
  | EmptyString => EmptyString
  | String c s' => if is_space c then lstrip s' else s
  end.

Fixpoint rstrip (s : string) : string :=
  match s with
  | EmptyString => EmptyString
  | String c s' =>
      match rstrip s' with
      | EmptyString => if is_space c then EmptyString else String c EmptyString
      | t => String c t
      end
  end.

Definition ascii_strip (s : string) : string := rstrip (lstrip s).

Definition ascii_text : Text := {| lower := ascii_lower; strip := ascii_strip |}.

(** [s.split(sep)] for a separator of one character. *)
Fixpoint split (sep : ascii) (s : string) : list string :=
  match s with
  | EmptyString => [EmptyString]
  | String c s' =>
      if Ascii.eqb c sep then EmptyString :: split sep s'
      else
        match split sep s' with
        | w :: ws => String c w :: ws
        | [] => [String c EmptyString]
        end
  end.

(** [Series.unique().tolist()]: the distinct values in the order of their
    first appearance. *)
Fixpoint unique_from (seen : list string) (l : list string) : list string :=
  match l with
  | [] => []
  | x :: l' =>
      if bool_decide (x ∈ seen) then unique_from seen l'
      else x :: unique_from (x :: seen) l'
  end.

Definition unique (l : list string) : list string := unique_from [] l.

(** [df.drop_duplicates(subset=["city", "country"])]: the first row of
    every (city, country) pair. *)
Fixpoint drop_duplicates_from (seen : list (string * string)) (df : list row)
  : list row :=
  match df with
  | [] => []
  | r :: df' =>
      if bool_decide ((city r, country r) ∈ seen)
      then drop_duplicates_from seen df'
      else r :: drop_duplicates_from ((city r, country r) :: seen) df'
  end.

(** [__init__], from the rows read from the CSV file. *)
Definition init {T : Text} (csv : list row) : list row :=
  let df :=
    List.map (fun r =>
      {| city := lower (city r);
         city_ascii := lower (city_ascii r);
         country := lower (country r) |}) csv in
  drop_duplicates_from [] df.

(** Boolean masks over the rows: [df.col == v], [m1 | m2], [df[m]],
    [df.col.isin(values)]. *)
Definition eq_mask (col : row -> string) (df : list row) (v : string) : list bool :=
  List.map (fun r => String.eqb (col r) v) df.

Definition or_mask (m1 m2 : list bool) : list bool := zip_with orb m1 m2.

Definition select (df : list row) (m : list bool) : list row :=
  List.map fst (List.filter snd (zip df m)).

Definition isin_mask (col : row -> string) (df : list row) (values : list string)
  : list bool :=
  List.map (fun r => bool_decide (col r ∈ values)) df.

(** The argument of [parse_location]: a [str], or a value of another type. *)
Inductive value : Type :=
| Str (s : string)
| NotStr.

Definition parse_location {T : Text} (df : list row) (location : value)
  : list string * list string :=
  match location with
  | NotStr => ([], [])
  | Str location =>
      let locs := List.map (fun loc => lower (strip loc)) (split "," location) in
      let m_city_matches :=
        fold_left (fun m loc =>
          or_mask (or_mask m (eq_mask city df loc)) (eq_mask city df loc))
          locs (eq_mask city df "?@#") in
      let estimated_cities := unique (List.map city_ascii (select df m_city_matches)) in
      let m_country_matches :=
        fold_left (fun m loc => or_mask m (eq_mask country df loc))
          locs (eq_mask country df "?@#") in
      let estimated_countries :=
        unique (List.map country (select df m_country_matches)) in
      if (length estimated_countries =? 0)%nat && (0 <? length estimated_cities)%nat
      then
        (unique (List.map country (select df (isin_mask city df estimated_cities))),
         estimated_cities)
      else (estimated_countries, estimated_cities)
  end.
Definition get_eu_countries : list string :=
  [ "austria"; "belgium"; "bulgaria"; "croatia"; "republic of cyprus";
    "czech republic"; "denmark"; "estonia"; "finland"; "france"; "germany";
    "greece"; "hungary"; "ireland"; "italy"; "latvia"; "lithuania";
    "luxembourg"; "malta"; "netherlands"; "poland"; "portugal"; "romania";
    "slovakia"; "slovenia"; "spain"; "Sweden" ].

End GeoParser.

(** ** Vocabulary of the properties *)

(** The record that [add] stores for a login [k] that is not a key yet,
    before the three sets are updated. *)
Definition new_record (k : string) (p : NamedUser.Profile) : Developer.t :=
  {| Developer.name := NamedUser.name p;
     Developer.github_url := github_url_of k;
     Developer.twitter_unsername := NamedUser.twitter_username p;
     Developer.email := NamedUser.email p;
     Developer.location := NamedUser.location p;
     Developer.company := NamedUser.company p;
     Developer.bio := NamedUser.bio p;
     Developer.blog := NamedUser.blog p;
     Developer.contributed_to := ∅;
     Developer.stared := ∅;
     Developer.forked := ∅ |}.

(** The scalar profile fields of a stored record agree with a profile. *)
Definition scalars_of (d : Developer.t) (p : NamedUser.Profile) : Prop :=
  Developer.name d = NamedUser.name p
  /\ Developer.twitter_unsername d = NamedUser.twitter_username p
  /\ Developer.email d = NamedUser.email p
  /\ Developer.location d = NamedUser.location p
  /\ Developer.company d = NamedUser.company p
  /\ Developer.bio d = NamedUser.bio p
  /\ Developer.blog d = NamedUser.blog p.

(** Two stored records have the same scalar profile fields. *)
Definition same_scalars (d d' : Developer.t) : Prop :=
  Developer.name d' = Developer.name d
  /\ Developer.github_url d' = Developer.github_url d
  /\ Developer.twitter_unsername d' = Developer.twitter_unsername d
  /\ Developer.email d' = Developer.email d
  /\ Developer.location d' = Developer.location d
  /\ Developer.company d' = Developer.company d
  /\ Developer.bio d' = Developer.bio d
  /\ Developer.blog d' = Developer.blog d.

(** The state, the events and the outcome of a run. *)
Definition state_of {S A : Type} (res : S * list event * A) : S := res.1.1.
Definition trace_of {S A : Type} (res : S * list event * A) : list event := res.1.2.
Definition result_of {S A : Type} (res : S * list event * A) : A := res.2.

(** The set of a record that belongs to a relation kind. *)
Definition related (k : kind) (d : Developer.t) : gset string :=
  match k with
  | Contributors => Developer.contributed_to d
  | Stargazers => Developer.stared d
  | Forkers => Developer.forked d
  end.

(** The users that the platform lists for a relation kind of a repository,
    step by step. *)
Definition listing (k : kind) (repo : Repository.t) : list (outcome NamedUser.t) :=
  match k with
  | Contributors => pages (Repository.get_contributors repo)
  | Stargazers => pages (Repository.get_stargazers repo)
  | Forkers =>
      List.map (fun step =>
        match step with
        | Return fork => Return (Fork.owner fork)
        | Raise e => Raise e
        end) (pages (Repository.get_forks repo))
  end.

(** The crawl operation of a relation kind, its return value dropped. *)
Definition crawl_kind (k : kind) (repo : Repository.t) (dt : number)
  : M DeveloperBase unit :=
  match k with
  | Contributors => add_contributors repo dt
  | Stargazers => add_stargazers repo dt
  | Forkers => add_forkers repo dt ;; ret tt
  end.

(** A user is recorded for a repository under a relation kind. *)
Definition recorded (k : kind) (full_name : string) (u : NamedUser.t)
  (self : DeveloperBase) : Prop :=
  exists d, developers self !! NamedUser.login u = Some d /\ full_name ∈ related k d.

(** A user has been handled by [add]: it is recorded for the repository;
    or its profile could not be resolved, its login is listed as
    corrupted, and no record is stored under the login. *)
Definition handled (k : kind) (full_name : string) (u : NamedUser.t)
  (self : DeveloperBase) : Prop :=
  recorded k full_name u self
  \/ (NamedUser.profile u = Raise UnknownObjectException
      /\ NamedUser.login u ∈ corrupted_user_names self
      /\ developers self !! NamedUser.login u = None).

(** ** Guarantees of computations *)

(** A relation between the state before a run, its events and the state
    after it holds of a computation when it holds of every run, however
    the run ends (normally or by an exception). *)
Definition holds_at {S A : Type} (R : S -> list event -> S -> Prop)
  (m : M S A) (s : S) : Prop :=
  R s (trace_of (m s)) (state_of (m s)).

Definition guarantees {S A : Type} (m : M S A)
  (R : S -> list event -> S -> Prop) : Prop :=
  forall s, holds_at R m s.

(** The relations that pass through sequencing: they hold of the run that
    does nothing, and of two runs one after the other. *)
Class Composable {S : Type} (R : S -> list event -> S -> Prop) : Prop := {
  composable_nil : forall s, R s [] s;
  composable_app : forall s1 tr1 s2 tr2 s3,
    R s1 tr1 s2 -> R s2 tr2 s3 -> R s1 (tr1 ++ tr2) s3;
}.

(** The base only grows: completion sets, corrupted logins and the sets of
    every record keep what they have, and no record disappears. *)
Definition grows (s s' : DeveloperBase) : Prop :=
  (forall k, crawled_projects_for k s ⊆ crawled_projects_for k s')
  /\ (forall x, x ∈ corrupted_user_names s -> x ∈ corrupted_user_names s')
  /\ (forall l d, developers s !! l = Some d ->
        exists d', developers s' !! l = Some d'
                   /\ forall k, related k d ⊆ related k d').

(** What the loop over a listing guarantees: the base grows, the
    completion sets stay as they are, and every event is a sleep of the
    pacing delay [dt]. *)
Definition inner_step (dt : number) (s : DeveloperBase) (tr : list event)
  (s' : DeveloperBase) : Prop :=
  grows s s'
  /\ (forall k, crawled_projects_for k s' = crawled_projects_for k s)
  /\ Forall (fun ev => ev = EvSleep dt) tr.

(** What the loop over the listing of a repository [n] under a kind [k]
    guarantees of the records: the base grows, and a login that has become
    a key has [n] in its set of the kind. *)
Definition recording_step (k : kind) (n : string) (s : DeveloperBase)
  (tr : list event) (s' : DeveloperBase) : Prop :=
  grows s s'
  /\ forall l d', developers s !! l = None -> developers s' !! l = Some d' ->
       n ∈ related k d'.

(** What every method called by the crawl guarantees: the base grows, a
    listing is requested only for a repository that is not in the
    completion set of its kind, and every sleep lasts [dt]. *)
Definition crawl_step (dt : number) (s : DeveloperBase) (tr : list event)
  (s' : DeveloperBase) : Prop :=
  grows s s'
  /\ (forall k n, EvFetch k n ∈ tr -> n ∉ crawled_projects_for k s)
  /\ (forall secs, EvSleep secs ∈ tr -> secs = dt).

(** The time that the handler of the rate limit sleeps in iteration [tick]. *)
Definition dt_wait (G : Platform) (tick : nat) : Z :=
  (rate_limiting_resettime G tick - time G tick + 10)%Z.

(** The same for the loop of [find_developers], where the handler of the
    rate limit sleeps as well. *)
Definition frame_step (G : Platform) (dt : number) (fr : Frame) (tr : list event)
  (fr' : Frame) : Prop :=
  grows (self fr) (self fr')
  /\ (forall k n, EvFetch k n ∈ tr -> n ∉ crawled_projects_for k (self fr))
  /\ (forall secs, EvSleep secs ∈ tr ->
        secs = dt \/ exists tick, secs = Int (dt_wait G tick)).

(** The frontier keeps its elements. *)
Definition frontier_grows (fr : Frame) (tr : list event) (fr' : Frame) : Prop :=
  projects fr ⊆ projects fr'.

(** The local variable [forked_projects] is not assigned. *)
Definition keeps_forked_projects (fr : Frame) (tr : list event) (fr' : Frame) : Prop :=
  forked_projects fr' = forked_projects fr.

(** What every method of the base guarantees about snapshots and events:
    the base grows and keeps its path; no repository is requested; every
    sleep lasts [dt]; every snapshot goes to the path of the base and holds
    a state between the one before and the one after. *)
Definition method_step (dt : number) (s : DeveloperBase) (tr : list event)
  (s' : DeveloperBase) : Prop :=
  grows s s'
  /\ file_path s' = file_path s
  /\ Forall (fun ev =>
       match ev with
       | EvGetRepo _ => False
       | EvSleep secs => secs = dt
       | EvSave path snapshot =>
           Some path = file_path s /\ grows s snapshot /\ grows snapshot s'
       | _ => True
       end) tr.

(** The same for the loop of [find_developers]: there the handler of the
    rate limit sleeps too, and repositories are requested. *)
Definition saving_step (fr : Frame) (tr : list event) (fr' : Frame) : Prop :=
  grows (self fr) (self fr')
  /\ file_path (self fr') = file_path (self fr)
  /\ forall path snapshot, EvSave path snapshot ∈ tr ->
       Some path = file_path (self fr)
       /\ grows (self fr) snapshot /\ grows snapshot (self fr').

(** While the frontier is within [X], it stays within [X] and only
    projects of [X] are requested. *)
Definition requests_within (X : gset string) (fr : Frame) (tr : list event)
  (fr' : Frame) : Prop :=
  projects fr ⊆ X ->
  projects fr' ⊆ X /\ forall p, EvGetRepo p ∈ tr -> p ∈ X.

(** The sleeps of the handler of the rate limit in a trace. *)
Definition is_wait (ev : event) : bool :=
  match ev with
  | EvSleep (Int _) => true
  | _ => false
  end.

Definition count_waits (tr : list event) : nat := length (List.filter is_wait tr).

(** The frontier is not touched and the handler has not slept. *)
Definition keeps_frontier (fr : Frame) (tr : list event) (fr' : Frame) : Prop :=
  projects fr' = projects fr /\ count_waits tr = 0.

(** The three stages of [crawl_relations]. *)
Definition stage_contributors (ignore_contributors : bool) (repo : Repository.t)
  (dt : number) : M Frame unit :=
  when (negb ignore_contributors)
    (on_self (add_contributors repo dt) ;;
     on_self save ;;
     report).

Definition stage_stargazers (ignore_stargazers : bool) (repo : Repository.t)
  (dt : number) : M Frame unit :=
  when (negb ignore_stargazers)
    (on_self (add_stargazers repo dt) ;;
     on_self save ;;
     report).

Definition stage_forkers (ignore_forkers : bool) (repo : Repository.t)
  (dt : number) : M Frame unit :=
  when (negb ignore_forkers)
    (l <- on_self (add_forkers repo dt) ;;
     modify (set_forked_projects l) ;;
     on_self save ;;
     report).

(** A relation kind is crawled by a run when its stage is not ignored. *)
Definition enabled (ignore_contributors ignore_forkers ignore_stargazers : bool)
  (k : kind) : Prop :=
  match k with
  | Contributors => ignore_contributors = false
  | Stargazers => ignore_stargazers = false
  | Forkers => ignore_forkers = false
  end.

(** A project has been crawled: the platform has answered the request for
    it in some iteration, and the repository it answered with is in the
    completion set of every enabled kind. *)
Definition crawled (G : Platform)
  (ignore_contributors ignore_forkers ignore_stargazers : bool)
  (project : string) (s : DeveloperBase) : Prop :=
  exists tick repo,
    get_repo G tick project = Return repo
    /\ forall k, enabled ignore_contributors ignore_forkers ignore_stargazers k ->
         Repository.full_name repo ∈ crawled_projects_for k s.

(** ** The three crawl operations in one form *)

(** The bodies of the three [for] loops. *)
Definition contributor_step (repo : Repository.t) (dt : number)
  : NamedUser.t -> unit -> M DeveloperBase unit :=
  fun contributor _ =>
    add contributor {[Repository.full_name repo]} ∅ ∅ ;;
    sleep dt.

Definition stargazer_step (repo : Repository.t) (dt : number)
  : NamedUser.t -> unit -> M DeveloperBase unit :=
  fun stargazer _ =>
    add stargazer ∅ ∅ {[Repository.full_name repo]} ;;
    sleep dt.

Definition fork_step (repo : Repository.t) (dt : number)
  : Fork.t -> list string -> M DeveloperBase (list string) :=
  fun fork forked_projects =>
    let forker := Fork.owner fork in
    add forker ∅ {[Repository.full_name repo]} ∅ ;;
    let forked_projects := forked_projects ++ [Fork.full_name fork] in
    sleep dt ;;
    ret forked_projects.

(** What a crawl operation does for a repository [n] that is not in the
    completion set of its kind [k]: the listing [l] is requested, its total
    is read, the loop runs with the local variable [acc], and only when the
    loop has returned is [n] put into the completion set. *)
Definition listing_run {A B : Type} (k : kind) (n : string) (l : PaginatedList A)
  (acc : B) (body : A -> B -> M DeveloperBase B) (s : DeveloperBase)
  : DeveloperBase * list event * outcome B :=
  match totalCount l with
  | Raise e => (s, [EvFetch k n], Raise e)
  | Return _ =>
      match for_each (pages l) acc body s with
      | (s1, tr1, Return b) => (mark_crawled k n s1, EvFetch k n :: tr1, Return b)
      | (s1, tr1, Raise e) => (s1, EvFetch k n :: tr1, Raise e)
      end
  end.

(** ** The geo parser in closed form *)

(** The tokens of a location: the parts between commas, stripped and in
    lower case. *)
Definition tokens {T : GeoParser.Text} (location : string) : list string :=
  List.map (fun loc => GeoParser.lower (GeoParser.strip loc))
    (GeoParser.split "," location).

(** A row is selected by the mask of a column: its value is the marker of
    the initial mask or one of the tokens. *)
Definition matches (col : GeoParser.row -> string) (locs : list string)
  (r : GeoParser.row) : bool :=
  String.eqb (col r) "?@#" || bool_decide (col r ∈ locs).

(** The pair on which [drop_duplicates] compares the rows, and a row in
    lower case. *)
Definition row_key (r : GeoParser.row) : string * string :=
  (GeoParser.city r, GeoParser.country r).

Definition lower_row {T : GeoParser.Text} (r : GeoParser.row) : GeoParser.row :=
  {| GeoParser.city := GeoParser.lower (GeoParser.city r);
     GeoParser.city_ascii := GeoParser.lower (GeoParser.city_ascii r);
     GeoParser.country := GeoParser.lower (GeoParser.country r) |}.

(** ** Readings of the specification that the code does not satisfy *)

(** The reading of the specification of a repeated [add]: the stored
    scalar fields are those of the profile supplied by the later call. *)
Definition add_overwrites_scalars (self : DeveloperBase) (u : NamedUser.t)
  (A F S : gset string) : Prop :=
  forall p, NamedUser.profile u = Return p ->
    exists d', developers (state_of (add u A F S self)) !! NamedUser.login u = Some d'
               /\ scalars_of d' p.

(** The reading of the specification of the completion sets: a repository
    that a crawl operation puts into the completion set of its kind has
    every user of its listing recorded for it. *)
Definition completion_means_all_recorded (k : kind) (repo : Repository.t)
  (dt : number) (self : DeveloperBase) : Prop :=
  let res := crawl_kind k repo dt self in
  let n := Repository.full_name repo in
  n ∉ crawled_projects_for k self ->
  n ∈ crawled_projects_for k (state_of res) ->
  Forall (fun step => exists u, step = Return u /\ recorded k n u (state_of res))
    (listing k repo).


(** The reading of the specification of the email filter: no row of the
    ranked table has an absent or an empty email. *)
Definition ranking_has_no_empty_or_absent_email (self : DeveloperBase) : Prop :=
  forall rows, rank_developers 5 2 1 true self = Return rows ->
    forall r, r ∈ rows ->
      Developer.email (row r) <> None /\ Developer.email (row r) <> Some "".

(** ** Sample inputs *)

Definition profile_named (name email : option string) : NamedUser.Profile :=
  {| NamedUser.name := name;
     NamedUser.twitter_username := None;
     NamedUser.email := email;
     NamedUser.location := None;
     NamedUser.company := None;
     NamedUser.bio := None;
     NamedUser.blog := None |}.

Definition bob : NamedUser.t :=
  {| NamedUser.login := "bob";
     NamedUser.profile := Return (profile_named (Some "Bob") (Some "bob@example.org")) |}.

(** The same account fetched later, after a change of its display name. *)
Definition bob_renamed : NamedUser.t :=
  {| NamedUser.login := "bob";
     NamedUser.profile := Return (profile_named (Some "Robert") None) |}.

(** An account that is gone: fetching its profile answers 404. *)
Definition ghost : NamedUser.t :=
  {| NamedUser.login := "ghost";
     NamedUser.profile := Raise UnknownObjectException |}.

(** A user whose profile has the empty string as email. *)
Definition blank : NamedUser.t :=
  {| NamedUser.login := "blank";
     NamedUser.profile := Return (profile_named (Some "Blank") (Some "")) |}.

(** The base after [add(bob, contributed_to={"a/b"})] on an empty one. *)
Definition base_with_bob : DeveloperBase :=
  state_of (add bob {["a/b"]} ∅ ∅ (init None)).

(** The base after [add(blank, contributed_to={"a/b"})] on an empty one. *)
Definition base_with_blank : DeveloperBase :=
  state_of (add blank {["a/b"]} ∅ ∅ (init None)).

(** A user whose profile has no email. *)
Definition anon : NamedUser.t :=
  {| NamedUser.login := "anon";
     NamedUser.profile := Return (profile_named (Some "Anon") None) |}.

(** A base with two developers who contributed to ["a/b"]: [bob], who has
    an email, and [anon], who has none. *)
Definition base_with_anon : DeveloperBase :=
  state_of (add anon {["a/b"]} ∅ ∅ base_with_bob).

Definition empty_listing {A : Type} : PaginatedList A :=
  {| totalCount := Return 0; pages := [] |}.

(** A repository whose one contributor is an account that is gone. *)
Definition repo_of_ghost : Repository.t :=
  {| Repository.full_name := "a/b";
     Repository.get_contributors :=
       {| totalCount := Return 1; pages := [Return ghost] |};
     Repository.get_stargazers := empty_listing;
     Repository.get_forks := empty_listing |}.

(** A base in which ["a/b"] is complete for the contributors. *)
Definition base_crawled : DeveloperBase :=
  state_of (add_contributors repo_of_ghost (Float 0) (init None)).

(** A platform with a quota of 5000 requests that resets at second 1000,
    seen at second 100. Every project exists, with [bob] as its one
    contributor and nothing else; in iteration [0] the request for
    ["busy/repo"] exceeds the quota. [set.pop()] takes the first element of
    the enumeration of the set. *)
Definition repo_of_bob (full_name : string) : Repository.t :=
  {| Repository.full_name := full_name;
     Repository.get_contributors :=
       {| totalCount := Return 1; pages := [Return bob] |};
     Repository.get_stargazers := empty_listing;
     Repository.get_forks := empty_listing |}.

Definition sample_platform : Platform :=
  {| rate_limiting := fun _ => (4999%Z, 5000%Z);
     rate_limiting_resettime := fun _ => 1000%Z;
     get_repo := fun tick project =>
       if bool_decide (tick = 0 /\ project = "busy/repo")
       then Raise RateLimitExceededException
       else Return (repo_of_bob project);
     time := fun _ => 100%Z;
     pick := fun _ _ => 0 |}.





(** A gazetteer of three cities; the name of the first is not ASCII. *)
Definition sample_csv : list GeoParser.row :=
  [ {| GeoParser.city := "São Paulo"; GeoParser.city_ascii := "Sao Paulo";
       GeoParser.country := "Brazil" |};
    {| GeoParser.city := "Berlin"; GeoParser.city_ascii := "Berlin";
       GeoParser.country := "Germany" |};
    {| GeoParser.city := "Paris"; GeoParser.city_ascii := "Paris";
       GeoParser.country := "France" |} ].

(** A user whose profile request exceeds the quota. *)
Definition throttled : NamedUser.t :=
  {| NamedUser.login := "throttled";
     NamedUser.profile := Raise RateLimitExceededException |}.

(** A base with two developers: [bob] contributed to ["a/b"], [blank]
    starred it. *)
Definition base_of_two : DeveloperBase :=
  state_of (add blank ∅ ∅ {["a/b"]} base_with_bob).

(** The set of a relation kind stored for a login; empty when the login is
    not a key. *)
Definition related_of (k : kind) (l : string) (self : DeveloperBase) : gset string :=
  match developers self !! l with
  | Some d => related k d
  | None => ∅
  end.

(** The sets of the kinds other than [k] are what they were, for every
    login. *)
Definition touches_only (k : kind) (s : DeveloperBase) (tr : list event)
  (s' : DeveloperBase) : Prop :=
  forall l k', k' <> k -> related_of k' l s' = related_of k' l s.

(** A repository with two forks, by [bob] and by [blank]. *)
Definition repo_with_forks : Repository.t :=
  {| Repository.full_name := "a/b";
     Repository.get_contributors := empty_listing;
     Repository.get_stargazers := empty_listing;
     Repository.get_forks :=
       {| totalCount := Return 2;
          pages := [Return {| Fork.full_name := "bob/b"; Fork.owner := bob |};
                    Return {| Fork.full_name := "blank/b"; Fork.owner := blank |}] |} |}.

(** * Properties *)

(** ** [add] in closed form *)

Lemma add_known u A F S self d :
  developers self !! NamedUser.login u = Some d ->
  add u A F S self =
    (set_developers (alter (Developer.update A F S) (NamedUser.login u)) self,
     [], Return tt).
Proof.
  intros Hd. unfold add, try_except, bind, get, when. cbn.
  rewrite bool_decide_eq_false_2 by congruence. reflexivity.
Qed.

Lemma add_fresh u A F S self p :
  developers self !! NamedUser.login u = None ->
  NamedUser.profile u = Return p ->
  add u A F S self =
    (set_developers (fun m =>
       alter (Developer.update A F S) (NamedUser.login u)
         (<[NamedUser.login u := new_record (NamedUser.login u) p]> m)) self,
     [], Return tt).
Proof.
  intros Hd Hp.
  unfold add, try_except, bind, get, when, attr, lift, NamedUser.getattr. cbn.
  rewrite bool_decide_eq_true_2 by done. rewrite Hp. cbn. reflexivity.
Qed.

Lemma add_fresh_raise u A F S self e :
  developers self !! NamedUser.login u = None ->
  NamedUser.profile u = Raise e ->
  add u A F S self =
    if decide (e = UnknownObjectException)
    then (set_corrupted_user_names (fun l => l ++ [NamedUser.login u]) self,
          [], Return tt)
    else (self, [], Raise e).
Proof.
  intros Hd Hp.
  unfold add, try_except, bind, get, when, attr, lift, NamedUser.getattr. cbn.
  rewrite bool_decide_eq_true_2 by done. rewrite Hp. cbn.
  destruct (decide (e = UnknownObjectException)); reflexivity.
Qed.

(** ** Repeated [add] for one login *)

(** C1, as the specification states it, fails: [bob] is stored with the
    name ["Bob"]; a second [add] for the login, with the name ["Robert"],
    leaves ["Bob"] in the record. *)
Lemma add_overwrites_scalars_fails :
  is_Some (developers base_with_bob !! "bob")
  /\ ~ add_overwrites_scalars base_with_bob bob_renamed {["c/d"]} ∅ ∅.
Proof.
  split.
  - vm_compute. eauto.
  - intros H. destruct (H _ eq_refl) as (d' & Hd' & Hname & _).
    vm_compute in Hd'. injection Hd' as <-. discriminate Hname.
Qed.

(** C1, amended: for a login that is already a key, [add] returns without
    reading the profile of the user it is given; the scalar fields of the
    record stay as the first [add] stored them, each of the three sets
    becomes its union with the set supplied, and no other record changes. *)
Theorem add_known_keeps_scalars_and_unions u A F S self d :
  developers self !! NamedUser.login u = Some d ->
  let res := add u A F S self in
  result_of res = Return tt
  /\ (exists d',
        developers (state_of res) !! NamedUser.login u = Some d'
        /\ same_scalars d d'
        /\ Developer.contributed_to d' = Developer.contributed_to d ∪ A
        /\ Developer.forked d' = Developer.forked d ∪ F
        /\ Developer.stared d' = Developer.stared d ∪ S)
  /\ (forall l, l <> NamedUser.login u ->
        developers (state_of res) !! l = developers self !! l).
Proof.
  intros Hd res. subst res. rewrite (add_known _ _ _ _ _ _ Hd).
  unfold result_of, state_of. cbn. split; [reflexivity|]. split.
  - exists (Developer.update A F S d). split.
    + rewrite lookup_alter_eq, Hd. reflexivity.
    + repeat split; reflexivity.
  - intros l Hl. rewrite lookup_alter_ne by congruence. reflexivity.
Qed.

Lemma add_known_keeps_scalars_and_unions_witness :
  developers base_with_bob !! NamedUser.login bob_renamed
    = Some (Developer.update {["a/b"]} ∅ ∅ (new_record "bob" (profile_named (Some "Bob") (Some "bob@example.org"))))
  /\ exists d',
       developers (state_of (add bob_renamed {["c/d"]} ∅ ∅ base_with_bob)) !! "bob" = Some d'
       /\ Developer.name d' = Some "Bob".
Proof.
  assert (H : developers base_with_bob !! NamedUser.login bob_renamed
    = Some (Developer.update {["a/b"]} ∅ ∅
        (new_record "bob" (profile_named (Some "Bob") (Some "bob@example.org")))))
    by (vm_compute; reflexivity).
  split; [exact H|].
  destruct (add_known_keeps_scalars_and_unions bob_renamed {["c/d"]} ∅ ∅ _ _ H)
    as (_ & (d' & Hd' & (Hname & _) & _) & _).
  exists d'. split; [exact Hd'|]. rewrite Hname. reflexivity.
Defined.

(** C5: a login that is not a key yet, added with the sets [A1], [F1],
    [S1] (the profile resolves, so the record is created) and then with
    [A2], [F2], [S2], ends with the union of the two sets for each kind. *)
Theorem add_twice_stores_unions u1 u2 p A1 F1 S1 A2 F2 S2 self :
  NamedUser.login u2 = NamedUser.login u1 ->
  developers self !! NamedUser.login u1 = None ->
  NamedUser.profile u1 = Return p ->
  let res1 := add u1 A1 F1 S1 self in
  let res2 := add u2 A2 F2 S2 (state_of res1) in
  result_of res1 = Return tt
  /\ result_of res2 = Return tt
  /\ exists d,
       developers (state_of res2) !! NamedUser.login u1 = Some d
       /\ Developer.contributed_to d = A1 ∪ A2
       /\ Developer.forked d = F1 ∪ F2
       /\ Developer.stared d = S1 ∪ S2.
Proof.
  intros Hlogin Hfresh Hp res1 res2. subst res2 res1.
  rewrite (add_fresh _ _ _ _ _ _ Hfresh Hp).
  unfold result_of, state_of. cbn [fst snd].
  set (d1 := Developer.update A1 F1 S1 (new_record (NamedUser.login u1) p)).
  set (self1 := set_developers _ self).
  assert (H1 : developers self1 !! NamedUser.login u2 = Some d1).
  { subst self1. cbn. rewrite Hlogin, lookup_alter_eq, lookup_insert_eq. reflexivity. }
  rewrite (add_known _ _ _ _ _ _ H1). cbn [fst snd].
  split; [reflexivity|]. split; [reflexivity|].
  exists (Developer.update A2 F2 S2 d1). split.
  - cbn. rewrite Hlogin, !lookup_alter_eq, lookup_insert_eq. reflexivity.
  - cbn. rewrite !(left_id_L ∅ (∪)). repeat split; reflexivity.
Qed.

Lemma add_twice_stores_unions_witness :
  exists d,
    developers (state_of (add bob_renamed ∅ {["c/d"]} {["a/b"]}
                  (state_of (add bob {["a/b"]} ∅ ∅ (init None))))) !! "bob" = Some d
    /\ Developer.contributed_to d = {["a/b"]} ∪ ∅
    /\ Developer.forked d = ∅ ∪ {["c/d"]}
    /\ Developer.stared d = ∅ ∪ {["a/b"]}.
Proof.
  destruct (add_twice_stores_unions bob bob_renamed
              (profile_named (Some "Bob") (Some "bob@example.org"))
              {["a/b"]} ∅ ∅ ∅ {["c/d"]} {["a/b"]} (init None)
              eq_refl eq_refl eq_refl) as (_ & _ & H).
  exact H.
Defined.

(** C6: when [add] has to resolve the profile (the login is not a key) and
    the platform answers with [UnknownObjectException], [add] returns
    normally, the login is appended to [corrupted_user_names], and the
    dictionary of developers and the completion sets are as before. *)
Theorem add_swallows_unknown_user u A F S self :
  developers self !! NamedUser.login u = None ->
  NamedUser.profile u = Raise UnknownObjectException ->
  let res := add u A F S self in
  result_of res = Return tt
  /\ corrupted_user_names (state_of res)
       = corrupted_user_names self ++ [NamedUser.login u]
  /\ developers (state_of res) = developers self
  /\ forall k, crawled_projects_for k (state_of res) = crawled_projects_for k self.
Proof.
  intros Hfresh Hp res. subst res.
  rewrite (add_fresh_raise _ _ _ _ _ _ Hfresh Hp).
  unfold result_of, state_of. cbn.
  split; [reflexivity|]. split; [reflexivity|]. split; [reflexivity|].
  intros []; reflexivity.
Qed.

Lemma add_swallows_unknown_user_witness :
  let res := add ghost {["a/b"]} ∅ ∅ base_with_bob in
  result_of res = Return tt
  /\ corrupted_user_names (state_of res) = [] ++ ["ghost"]
  /\ developers (state_of res) = developers base_with_bob.
Proof.
  destruct (add_swallows_unknown_user ghost {["a/b"]} ∅ ∅ base_with_bob
              eq_refl eq_refl) as (H1 & H2 & H3 & _).
  cbv zeta. split; [exact H1|]. split; [exact H2|exact H3].
Defined.

(** ** Rules for guarantees *)

Section Rules.
Context {S : Type} (R : S -> list event -> S -> Prop) `{!Composable R}.

Lemma holds_at_bind {A B : Type} (m : M S A) (f : A -> M S B) s :
  holds_at R m s ->
  (forall a, result_of (m s) = Return a -> holds_at R (f a) (state_of (m s))) ->
  holds_at R (bind m f) s.
Proof.
  unfold holds_at, bind. destruct (m s) as [[s1 tr1] [a|e]]; cbn; intros H1 H2.
  - specialize (H2 a eq_refl). destruct (f a s1) as [[s2 tr2] r]. cbn in *.
    eapply composable_app; eassumption.
  - exact H1.
Qed.

Lemma guarantees_bind {A B : Type} (m : M S A) (f : A -> M S B) :
  guarantees m R -> (forall a, guarantees (f a) R) -> guarantees (bind m f) R.
Proof. intros Hm Hf s. apply holds_at_bind; [apply Hm|]. intros a _. apply Hf. Qed.

Lemma guarantees_ret {A : Type} (a : A) : guarantees (ret a) R.
Proof. intros s. apply composable_nil. Qed.

Lemma guarantees_raise {A : Type} (e : exn) : guarantees (@raise S A e) R.
Proof. intros s. apply composable_nil. Qed.

Lemma guarantees_lift {A : Type} (r : outcome A) : guarantees (lift r) R.
Proof. intros s. apply composable_nil. Qed.

Lemma guarantees_get : guarantees get R.
Proof. intros s. apply composable_nil. Qed.

Lemma guarantees_when (c : bool) (body : M S unit) :
  guarantees body R -> guarantees (when c body) R.
Proof. intros H. destruct c; [exact H|apply guarantees_ret]. Qed.

Lemma guarantees_try_except {A : Type} (body : M S A) cls (handler : M S A) :
  guarantees body R -> guarantees handler R ->
  guarantees (try_except body cls handler) R.
Proof.
  intros Hb Hh s. specialize (Hb s). unfold holds_at, try_except in *.
  destruct (body s) as [[s1 tr1] [a|e]]; cbn in *; [exact Hb|].
  destruct (decide (e = cls)); [|exact Hb].
  specialize (Hh s1). unfold holds_at in Hh.
  destruct (handler s1) as [[s2 tr2] r]. cbn in *.
  eapply composable_app; eassumption.
Qed.

Lemma guarantees_for_each {A B : Type} (body : A -> B -> M S B) items acc :
  (forall a b, guarantees (body a b) R) ->
  guarantees (for_each items acc body) R.
Proof.
  intros Hbody. revert acc.
  induction items as [|[a|e] items IH]; intros acc; cbn [for_each].
  - apply guarantees_ret.
  - apply guarantees_bind; [apply Hbody|]. intros b. apply IH.
  - apply guarantees_raise.
Qed.
End Rules.

(** A method call keeps the local variables of the caller. *)
Lemma guarantees_on_self {A : Type} (m : M DeveloperBase A)
  (RD : DeveloperBase -> list event -> DeveloperBase -> Prop)
  (RF : Frame -> list event -> Frame -> Prop) :
  (forall fr tr s', RD (self fr) tr s' -> RF fr tr (set_self s' fr)) ->
  guarantees m RD -> guarantees (on_self m) RF.
Proof.
  intros Hlift Hm fr. specialize (Hm (self fr)). unfold holds_at, on_self in *.
  destruct (m (self fr)) as [[s' tr] r]. cbn in *. apply Hlift, Hm.
Qed.

(** ** The base grows *)

#[global] Instance grows_preorder : PreOrder grows.
Proof.
  split.
  - intros s. split; [reflexivity|]. split; [auto|]. intros l d Hd. exists d.
    split; [exact Hd|reflexivity].
  - intros s1 s2 s3 (Ha & Hb & Hc) (Ha' & Hb' & Hc'). repeat split.
    + intros k. etrans; [apply Ha|apply Ha'].
    + auto.
    + intros l d Hd. destruct (Hc _ _ Hd) as (d2 & Hd2 & Hsub).
      destruct (Hc' _ _ Hd2) as (d3 & Hd3 & Hsub'). exists d3. split; [exact Hd3|].
      intros k. etrans; [apply Hsub|apply Hsub'].
Qed.

Lemma related_update k A F S d :
  related k (Developer.update A F S d)
  = related k d ∪ match k with Contributors => A | Stargazers => S | Forkers => F end.
Proof. destruct k; reflexivity. Qed.

Lemma grows_alter_update A F S l s :
  grows s (set_developers (alter (Developer.update A F S) l) s).
Proof.
  split; [|split].
  - intros []; reflexivity.
  - auto.
  - intros l' d Hd. cbn. destruct (decide (l = l')) as [<-|Hne].
    + exists (Developer.update A F S d). rewrite lookup_alter_eq, Hd. split; [reflexivity|].
      intros k. rewrite related_update. apply union_subseteq_l.
    + exists d. rewrite lookup_alter_ne by exact Hne. split; [exact Hd|reflexivity].
Qed.

Lemma grows_insert_fresh l d s :
  developers s !! l = None -> grows s (set_developers (insert l d) s).
Proof.
  intros Hfresh. split; [|split].
  - intros []; reflexivity.
  - auto.
  - intros l' d' Hd'. exists d'. cbn. rewrite lookup_insert_ne by congruence.
    split; [exact Hd'|reflexivity].
Qed.

Lemma grows_corrupted l s :
  grows s (set_corrupted_user_names (fun c => c ++ [l]) s).
Proof.
  split; [|split].
  - intros []; reflexivity.
  - intros x Hx. cbn. apply elem_of_app. left. exact Hx.
  - intros l' d Hd. exists d. split; [exact Hd|reflexivity].
Qed.

Lemma grows_mark_crawled k n s : grows s (mark_crawled k n s).
Proof.
  split; [|split].
  - intros k'. destruct k, k'; cbn; solve [reflexivity | apply union_subseteq_l].
  - auto.
  - intros l d Hd. exists d. split; [exact Hd|reflexivity].
Qed.

(** [add] causes no event, touches no completion set, and lets the base
    grow. *)
Lemma add_run u A F S s :
  trace_of (add u A F S s) = []
  /\ grows s (state_of (add u A F S s))
  /\ forall k, crawled_projects_for k (state_of (add u A F S s))
               = crawled_projects_for k s.
Proof.
  destruct (developers s !! NamedUser.login u) as [d|] eqn:Hd.
  - rewrite (add_known _ _ _ _ _ _ Hd). unfold trace_of, state_of. cbn [fst snd].
    split; [reflexivity|]. split; [apply grows_alter_update|]. intros []; reflexivity.
  - destruct (NamedUser.profile u) as [p|e] eqn:Hp.
    + rewrite (add_fresh _ _ _ _ _ _ Hd Hp). unfold trace_of, state_of. cbn [fst snd].
      split; [reflexivity|]. split; [|intros []; reflexivity].
      etrans; [apply (grows_insert_fresh _ (new_record (NamedUser.login u) p) _ Hd)|].
      exact (grows_alter_update A F S (NamedUser.login u)
               (set_developers (insert (NamedUser.login u)
                  (new_record (NamedUser.login u) p)) s)).
    + rewrite (add_fresh_raise _ _ _ _ _ _ Hd Hp).
      destruct (decide (e = UnknownObjectException)); unfold trace_of, state_of;
        cbn [fst snd].
      * split; [reflexivity|]. split; [apply grows_corrupted|]. intros []; reflexivity.
      * split; [reflexivity|]. split; [reflexivity|]. intros []; reflexivity.
Qed.

(** After an [add] that returns, the user is recorded for each repository
    in the sets supplied; or its profile could not be resolved, its login
    is listed as corrupted and no record is stored under it. *)
Lemma add_handled u A F S s k n :
  n ∈ match k with Contributors => A | Stargazers => S | Forkers => F end ->
  result_of (add u A F S s) = Return tt ->
  handled k n u (state_of (add u A F S s)).
Proof.
  intros Hn. destruct (developers s !! NamedUser.login u) as [d|] eqn:Hd.
  - rewrite (add_known _ _ _ _ _ _ Hd). intros _. left.
    exists (Developer.update A F S d). unfold state_of. cbn.
    rewrite lookup_alter_eq, Hd. split; [reflexivity|].
    rewrite related_update. apply elem_of_union_r, Hn.
  - destruct (NamedUser.profile u) as [p|e] eqn:Hp.
    + rewrite (add_fresh _ _ _ _ _ _ Hd Hp). intros _. left.
      exists (Developer.update A F S (new_record (NamedUser.login u) p)).
      unfold state_of. cbn. rewrite lookup_alter_eq, lookup_insert_eq.
      split; [reflexivity|]. rewrite related_update. apply elem_of_union_r, Hn.
    + rewrite (add_fresh_raise _ _ _ _ _ _ Hd Hp).
      destruct (decide (e = UnknownObjectException)) as [->|Hne].
      * intros _. right. unfold state_of. cbn. split; [exact Hp|]. split.
        -- apply elem_of_app. right. apply list_elem_of_singleton. reflexivity.
        -- exact Hd.
      * unfold result_of. cbn. discriminate.
Qed.

(** A login that [add] makes a key has the repositories supplied in its
    sets. *)
Lemma add_recording u A F S k n :
  n ∈ match k with Contributors => A | Stargazers => S | Forkers => F end ->
  guarantees (add u A F S) (recording_step k n).
Proof.
  intros Hn s. unfold holds_at. destruct (add_run u A F S s) as (_ & Hg & _).
  split; [exact Hg|]. intros l d' Hnone.
  destruct (developers s !! NamedUser.login u) as [d|] eqn:Hd.
  - rewrite (add_known _ _ _ _ _ _ Hd). unfold state_of. cbn.
    destruct (decide (NamedUser.login u = l)) as [<-|Hne]; [congruence|].
    rewrite lookup_alter_ne by exact Hne. congruence.
  - destruct (NamedUser.profile u) as [p|e] eqn:Hp.
    + rewrite (add_fresh _ _ _ _ _ _ Hd Hp). unfold state_of. cbn.
      destruct (decide (NamedUser.login u = l)) as [<-|Hne].
      * rewrite lookup_alter_eq, lookup_insert_eq. cbn. intros Hd'.
        injection Hd' as <-. rewrite related_update. apply elem_of_union_r, Hn.
      * rewrite lookup_alter_ne, lookup_insert_ne by exact Hne. congruence.
    + rewrite (add_fresh_raise _ _ _ _ _ _ Hd Hp).
      destruct (decide (e = UnknownObjectException)); unfold state_of; cbn;
        congruence.
Qed.

(** A user that has been handled stays so while the loop over the listing
    goes on: a record that appears under its login later has the
    repository in its set. *)
Lemma handled_step k n u s tr s' :
  handled k n u s -> recording_step k n s tr s' -> handled k n u s'.
Proof.
  intros [(d & Hd & Hn)|(Hp & Hc & Hnone)] ((_ & Hcor & Hdev) & Hnew).
  - left. destruct (Hdev _ _ Hd) as (d' & Hd' & Hsub). exists d'.
    split; [exact Hd'|]. apply Hsub, Hn.
  - destruct (developers s' !! NamedUser.login u) as [d'|] eqn:Hd'.
    + left. exists d'. split; [exact Hd'|]. exact (Hnew _ _ Hnone Hd').
    + right. split; [exact Hp|]. split; [apply Hcor, Hc|exact Hd'].
Qed.

(** ** The guarantees compose *)

#[global] Instance inner_step_composable dt : Composable (inner_step dt).
Proof.
  split.
  - intros s. split; [reflexivity|]. split; [reflexivity|constructor].
  - intros s1 tr1 s2 tr2 s3 (Hg & Hl & Ht) (Hg' & Hl' & Ht').
    split; [etrans; eassumption|]. split.
    + intros k. rewrite Hl', Hl. reflexivity.
    + apply Forall_app. split; assumption.
Qed.

#[global] Instance recording_step_composable k n : Composable (recording_step k n).
Proof.
  split.
  - intros s. split; [reflexivity|]. congruence.
  - intros s1 tr1 s2 tr2 s3 (Hg & Hnew) (Hg' & Hnew'). split; [etrans; eassumption|].
    intros l d3 Hnone Hd3. destruct (developers s2 !! l) as [d2|] eqn:Hd2.
    + destruct Hg' as (_ & _ & Hdev). destruct (Hdev _ _ Hd2) as (d & Hd & Hsub).
      rewrite Hd3 in Hd. injection Hd as <-. apply Hsub. exact (Hnew _ _ Hnone Hd2).
    + exact (Hnew' _ _ Hd2 Hd3).
Qed.

#[global] Instance crawl_step_composable dt : Composable (crawl_step dt).
Proof.
  split.
  - intros s. split; [reflexivity|].
    split; [intros k n H|intros secs H]; inversion H.
  - intros s1 tr1 s2 tr2 s3 (Hg & Hf & Hs) (Hg' & Hf' & Hs').
    split; [etrans; eassumption|]. split.
    + intros k n Hin. apply elem_of_app in Hin as [Hin|Hin]; [exact (Hf _ _ Hin)|].
      intros Hn. apply (Hf' _ _ Hin). destruct Hg as (Hsub & _). apply Hsub, Hn.
    + intros secs Hin. apply elem_of_app in Hin as [Hin|Hin]; auto.
Qed.

#[global] Instance frame_step_composable G dt : Composable (frame_step G dt).
Proof.
  split.
  - intros s. split; [reflexivity|].
    split; [intros k n H|intros secs H]; inversion H.
  - intros s1 tr1 s2 tr2 s3 (Hg & Hf & Hs) (Hg' & Hf' & Hs').
    split; [etrans; eassumption|]. split.
    + intros k n Hin. apply elem_of_app in Hin as [Hin|Hin]; [exact (Hf _ _ Hin)|].
      intros Hn. apply (Hf' _ _ Hin). destruct Hg as (Hsub & _). apply Hsub, Hn.
    + intros secs Hin. apply elem_of_app in Hin as [Hin|Hin]; auto.
Qed.

#[global] Instance frontier_grows_composable : Composable frontier_grows.
Proof.
  split.
  - intros s. unfold frontier_grows. reflexivity.
  - intros s1 tr1 s2 tr2 s3 H1 H2. unfold frontier_grows in *. etrans; eassumption.
Qed.

#[global] Instance keeps_forked_projects_composable : Composable keeps_forked_projects.
Proof.
  split.
  - intros s. reflexivity.
  - intros s1 tr1 s2 tr2 s3 H1 H2. unfold keeps_forked_projects in *. congruence.
Qed.

Lemma inner_step_crawl_step dt s tr s' : inner_step dt s tr s' -> crawl_step dt s tr s'.
Proof.
  intros (Hg & _ & Ht). split; [exact Hg|]. rewrite Forall_forall in Ht. split.
  - intros k n Hin. apply Ht in Hin. discriminate Hin.
  - intros secs Hin. apply Ht in Hin. congruence.
Qed.

(** ** The crawl operations in closed form *)

Lemma add_contributors_run repo dt s :
  add_contributors repo dt s =
    if bool_decide (Repository.full_name repo ∈ crawled_projects_for_contributors s)
    then (s, [], Return tt)
    else listing_run Contributors (Repository.full_name repo)
           (Repository.get_contributors repo) tt (contributor_step repo dt) s.
Proof.
  unfold add_contributors, listing_run.
  unfold bind at 1. unfold get at 1. cbn iota.
  destruct (bool_decide _); [reflexivity|].
  unfold bind at 1 2 3, emit, tqdm, lift, ret, modify. unfold bind at 1.
  destruct (totalCount _) as [n|e]; [|reflexivity].
  change (for_each (pages (Repository.get_contributors repo)) tt _ s)
    with (for_each (pages (Repository.get_contributors repo)) tt
            (contributor_step repo dt) s).
  destruct (for_each _ _ _ s) as [[s1 tr1] [[]|e]]; cbn; [|reflexivity].
  rewrite app_nil_r. reflexivity.
Qed.

Lemma add_stargazers_run repo dt s :
  add_stargazers repo dt s =
    if bool_decide (Repository.full_name repo ∈ crawled_projects_for_stargazers s)
    then (s, [], Return tt)
    else listing_run Stargazers (Repository.full_name repo)
           (Repository.get_stargazers repo) tt (stargazer_step repo dt) s.
Proof.
  unfold add_stargazers, listing_run.
  unfold bind at 1. unfold get at 1. cbn iota.
  destruct (bool_decide _); [reflexivity|].
  unfold bind at 1 2 3, emit, tqdm, lift, ret, modify. unfold bind at 1.
  destruct (totalCount _) as [n|e]; [|reflexivity].
  change (for_each (pages (Repository.get_stargazers repo)) tt _ s)
    with (for_each (pages (Repository.get_stargazers repo)) tt
            (stargazer_step repo dt) s).
  destruct (for_each _ _ _ s) as [[s1 tr1] [[]|e]]; cbn; [|reflexivity].
  rewrite app_nil_r. reflexivity.
Qed.

Lemma add_forkers_run repo dt s :
  add_forkers repo dt s =
    if bool_decide (Repository.full_name repo ∈ crawled_projects_for_forkers s)
    then (s, [], Return [])
    else listing_run Forkers (Repository.full_name repo)
           (Repository.get_forks repo) [] (fork_step repo dt) s.
Proof.
  unfold add_forkers, listing_run.
  unfold bind at 1. unfold get at 1. cbn iota.
  destruct (bool_decide _); [reflexivity|].
  unfold bind at 1 2 3 4, emit, tqdm, lift, ret, modify. unfold bind at 1.
  destruct (totalCount _) as [n|e]; [|reflexivity].
  change (for_each (pages (Repository.get_forks repo)) [] _ s)
    with (for_each (pages (Repository.get_forks repo)) []
            (fork_step repo dt) s).
  destruct (for_each _ _ _ s) as [[s1 tr1] [l|e]]; cbn; [|reflexivity].
  rewrite app_nil_r. reflexivity.
Qed.

(** ** The loop over a listing *)

Lemma bind_return_inv {S A B : Type} (m : M S A) (f : A -> M S B) s b :
  result_of (bind m f s) = Return b ->
  exists a, result_of (m s) = Return a
            /\ result_of (f a (state_of (m s))) = Return b
            /\ state_of (bind m f s) = state_of (f a (state_of (m s))).
Proof.
  unfold bind, result_of, state_of. destruct (m s) as [[s1 tr1] [a|e]]; cbn.
  - destruct (f a s1) as [[s2 tr2] r] eqn:Hf. cbn. intros ->. exists a.
    rewrite Hf. auto.
  - discriminate.
Qed.

Lemma sleep_state {S : Type} secs (s : S) : state_of (sleep secs s) = s.
Proof. unfold sleep. destruct (is_negative secs); reflexivity. Qed.

Lemma sleep_trace {S : Type} secs (s : S) :
  Forall (fun ev => ev = EvSleep secs) (trace_of (sleep secs s)).
Proof.
  unfold sleep. destruct (is_negative secs); cbn; repeat constructor.
Qed.

Lemma sleep_inner dt : guarantees (sleep dt) (inner_step dt).
Proof.
  intros s. unfold holds_at. rewrite sleep_state.
  split; [reflexivity|]. split; [reflexivity|apply sleep_trace].
Qed.

Lemma add_inner dt u A F S : guarantees (add u A F S) (inner_step dt).
Proof.
  intros s. unfold holds_at. destruct (add_run u A F S s) as (-> & Hg & Hl).
  split; [exact Hg|]. split; [exact Hl|constructor].
Qed.

Lemma contributor_step_inner repo dt u b :
  guarantees (contributor_step repo dt u b) (inner_step dt).
Proof.
  apply guarantees_bind; [apply _|apply add_inner|]. intros _. apply sleep_inner.
Qed.

Lemma stargazer_step_inner repo dt u b :
  guarantees (stargazer_step repo dt u b) (inner_step dt).
Proof.
  apply guarantees_bind; [apply _|apply add_inner|]. intros _. apply sleep_inner.
Qed.

Lemma fork_step_inner repo dt fork b :
  guarantees (fork_step repo dt fork b) (inner_step dt).
Proof.
  apply guarantees_bind; [apply _|apply add_inner|]. intros _.
  apply guarantees_bind; [apply _|apply sleep_inner|]. intros _.
  apply guarantees_ret. apply _.
Qed.

Lemma sleep_recording k n secs : guarantees (sleep secs) (recording_step k n).
Proof.
  intros s. unfold holds_at. rewrite sleep_state. split; [reflexivity|congruence].
Qed.

Lemma contributor_step_recording repo dt u b :
  guarantees (contributor_step repo dt u b)
    (recording_step Contributors (Repository.full_name repo)).
Proof.
  apply guarantees_bind; [apply _| |intros _; apply sleep_recording].
  apply add_recording, elem_of_singleton. reflexivity.
Qed.

Lemma stargazer_step_recording repo dt u b :
  guarantees (stargazer_step repo dt u b)
    (recording_step Stargazers (Repository.full_name repo)).
Proof.
  apply guarantees_bind; [apply _| |intros _; apply sleep_recording].
  apply add_recording, elem_of_singleton. reflexivity.
Qed.

Lemma fork_step_recording repo dt fork b :
  guarantees (fork_step repo dt fork b)
    (recording_step Forkers (Repository.full_name repo)).
Proof.
  apply guarantees_bind; [apply _| |intros _].
  - apply add_recording, elem_of_singleton. reflexivity.
  - apply guarantees_bind; [apply _|apply sleep_recording|]. intros _.
    apply guarantees_ret. apply _.
Qed.

Lemma contributor_step_handled repo dt u b s b' :
  result_of (contributor_step repo dt u b s) = Return b' ->
  handled Contributors (Repository.full_name repo) u
    (state_of (contributor_step repo dt u b s)).
Proof.
  unfold contributor_step. intros H.
  apply bind_return_inv in H as ([] & Hadd & _ & ->).
  rewrite sleep_state. apply add_handled; [|exact Hadd].
  apply elem_of_singleton. reflexivity.
Qed.

Lemma stargazer_step_handled repo dt u b s b' :
  result_of (stargazer_step repo dt u b s) = Return b' ->
  handled Stargazers (Repository.full_name repo) u
    (state_of (stargazer_step repo dt u b s)).
Proof.
  unfold stargazer_step. intros H.
  apply bind_return_inv in H as ([] & Hadd & _ & ->).
  rewrite sleep_state. apply add_handled; [|exact Hadd].
  apply elem_of_singleton. reflexivity.
Qed.

Lemma fork_step_handled repo dt fork b s b' :
  result_of (fork_step repo dt fork b s) = Return b' ->
  handled Forkers (Repository.full_name repo) (Fork.owner fork)
    (state_of (fork_step repo dt fork b s)).
Proof.
  unfold fork_step. intros H.
  apply bind_return_inv in H as ([] & Hadd & H & ->).
  apply bind_return_inv in H as ([] & _ & _ & ->).
  unfold ret, state_of at 1. cbn [fst].
  rewrite sleep_state. apply add_handled; [|exact Hadd].
  apply elem_of_singleton. reflexivity.
Qed.

Section Listing.
Context {A B : Type} (k : kind) (n : string) (dt : number).
Context (user : A -> NamedUser.t) (body : A -> B -> M DeveloperBase B).
Hypothesis body_inner : forall a b, guarantees (body a b) (inner_step dt).
Hypothesis body_recording : forall a b, guarantees (body a b) (recording_step k n).
Hypothesis body_handled : forall a b s b',
  result_of (body a b s) = Return b' -> handled k n (user a) (state_of (body a b s)).

(** A loop that returns has consumed the whole listing, and every user of
    it is handled in the state that the loop leaves. *)
Lemma for_each_handled items acc s b' :
  result_of (for_each items acc body s) = Return b' ->
  Forall (fun step => exists a, step = Return a
            /\ handled k n (user a) (state_of (for_each items acc body s))) items.
Proof.
  revert acc s. induction items as [|[a|e] items IH]; intros acc s; cbn [for_each].
  - constructor.
  - intros H. apply bind_return_inv in H as (acc1 & Hbody & Hrest & ->).
    constructor.
    + exists a. split; [reflexivity|].
      pose proof (guarantees_for_each (recording_step k n) body items acc1
                    body_recording (state_of (body a acc s))) as Hloop.
      unfold holds_at in Hloop.
      eapply handled_step; [exact (body_handled _ _ _ _ Hbody)|exact Hloop].
    + apply IH, Hrest.
  - unfold raise, result_of. cbn. discriminate.
Qed.

Lemma listing_run_raise l acc s e :
  result_of (listing_run k n l acc body s) = Raise e ->
  forall k', crawled_projects_for k' (state_of (listing_run k n l acc body s))
             = crawled_projects_for k' s.
Proof.
  unfold listing_run. destruct (totalCount l) as [t|e']; [|reflexivity].
  pose proof (guarantees_for_each (inner_step dt) body (pages l) acc body_inner s)
    as (_ & Hl & _).
  unfold holds_at in Hl.
  destruct (for_each (pages l) acc body s) as [[s1 tr1] [b|e']]; cbn in *.
  - unfold result_of. cbn. discriminate.
  - intros _. exact Hl.
Qed.

Lemma listing_run_return l acc s b :
  result_of (listing_run k n l acc body s) = Return b ->
  n ∈ crawled_projects_for k (state_of (listing_run k n l acc body s))
  /\ Forall (fun step => exists a, step = Return a
               /\ handled k n (user a) (state_of (listing_run k n l acc body s)))
       (pages l).
Proof.
  unfold listing_run. destruct (totalCount l) as [t|e']; [|discriminate].
  pose proof (for_each_handled (pages l) acc s) as Hh.
  destruct (for_each (pages l) acc body s) as [[s1 tr1] [b1|e']]; [|discriminate].
  intros _. unfold state_of in *. cbn [fst] in *. split.
  - destruct k; cbn; apply elem_of_union_r, elem_of_singleton; reflexivity.
  - eapply Forall_impl; [exact (Hh b1 eq_refl)|].
    intros step (a & -> & Ha). exists a. split; [reflexivity|].
    eapply (handled_step _ _ _ _ []); [exact Ha|].
    split; [apply grows_mark_crawled|]. destruct k; cbn; congruence.
Qed.

Lemma listing_run_crawl_step l acc s :
  n ∉ crawled_projects_for k s ->
  crawl_step dt s (trace_of (listing_run k n l acc body s))
    (state_of (listing_run k n l acc body s)).
Proof.
  intros Hn.
  assert (Hfetch : crawl_step dt s [EvFetch k n] s).
  { split; [reflexivity|]. split.
    - intros k' n' Hin. apply list_elem_of_singleton in Hin. injection Hin as -> ->.
      exact Hn.
    - intros secs Hin. apply list_elem_of_singleton in Hin. discriminate Hin. }
  unfold listing_run. destruct (totalCount l) as [t|e']; [|exact Hfetch].
  pose proof (guarantees_for_each (inner_step dt) body (pages l) acc body_inner s)
    as Hloop.
  apply inner_step_crawl_step in Hloop. unfold holds_at, trace_of, state_of in *.
  destruct (for_each (pages l) acc body s) as [[s1 tr1] [b1|e']]; cbn [fst snd] in *.
  - change (EvFetch k n :: tr1) with ([EvFetch k n] ++ tr1).
    rewrite <- (app_nil_r tr1).
    eapply composable_app; [exact Hfetch|].
    eapply composable_app; [exact Hloop|].
    split; [apply grows_mark_crawled|]. split; [intros ? ? H|intros ? H]; inversion H.
  - change (EvFetch k n :: tr1) with ([EvFetch k n] ++ tr1).
    eapply composable_app; [exact Hfetch|exact Hloop].
Qed.
End Listing.

(** ** The completion sets *)

Lemma bind_ret_tt_run {S A : Type} (m : M S A) s :
  state_of (bind m (fun _ => ret tt) s) = state_of (m s)
  /\ trace_of (bind m (fun _ => ret tt) s) = trace_of (m s)
  /\ result_of (bind m (fun _ => ret tt) s)
     = match result_of (m s) with Return _ => Return tt | Raise e => Raise e end.
Proof.
  unfold bind, ret, state_of, trace_of, result_of.
  destruct (m s) as [[s1 tr1] [a|e]]; cbn; rewrite ?app_nil_r; auto.
Qed.

(** C2, as the specification states it, fails: the one contributor of the
    repository is an account that is gone; [add] lists its login as
    corrupted and stores no record, and the repository is put into the
    completion set all the same. *)
Lemma completion_means_all_recorded_fails :
  ~ completion_means_all_recorded Contributors repo_of_ghost (Float 0) (init None).
Proof.
  intros H. unfold completion_means_all_recorded in H. cbv zeta in H.
  assert (H1 : Repository.full_name repo_of_ghost
               ∉ crawled_projects_for Contributors (init None))
    by apply not_elem_of_empty.
  assert (H2 : Repository.full_name repo_of_ghost
               ∈ crawled_projects_for Contributors
                   (state_of (crawl_kind Contributors repo_of_ghost (Float 0)
                                (init None)))).
  { apply (bool_decide_unpack _). vm_compute. exact I. }
  specialize (H H1 H2). apply Forall_inv in H as (u & Hu & d & Hd & _).
  injection Hu as <-. vm_compute in Hd. discriminate Hd.
Qed.

(** The run behind the counterexample: one request for the listing, one
    [add] that records nothing but the corrupted login, one sleep, and the
    repository is complete. *)
Example crawl_of_ghost_run :
  crawl_kind Contributors repo_of_ghost (Float 0) (init None)
  = ({| developers := ∅;
        corrupted_user_names := ["ghost"];
        crawled_projects_for_contributors := {["a/b"]};
        crawled_projects_for_stargazers := ∅;
        crawled_projects_for_forkers := ∅;
        file_path := None |},
     [EvFetch Contributors "a/b"; EvSleep (Float 0)],
     Return tt).
Proof. vm_compute. reflexivity. Qed.

(** C2, amended: a crawl operation that ends by an exception leaves the
    three completion sets as they were; and when it puts the repository
    into the completion set of its kind, it has returned, the iteration
    has reached the end of the listing without an exception, and [add] has
    returned for every user of the listing: in the base that the operation
    leaves, the user is recorded for the repository under the kind; or its
    profile could not be resolved ([UnknownObjectException]), its login is
    in the list of corrupted entries, and no record is stored under the
    login. *)
Theorem completion_set_updated_after_listing k repo dt self :
  let res := crawl_kind k repo dt self in
  let n := Repository.full_name repo in
  (forall e, result_of res = Raise e ->
     forall k', crawled_projects_for k' (state_of res) = crawled_projects_for k' self)
  /\ (n ∉ crawled_projects_for k self ->
      n ∈ crawled_projects_for k (state_of res) ->
      result_of res = Return tt
      /\ Forall (fun step => exists u, step = Return u /\ handled k n u (state_of res))
           (listing k repo)).
Proof.
  cbv zeta. destruct k; unfold crawl_kind, listing.
  - rewrite add_contributors_run. cbn [crawled_projects_for].
    case_bool_decide as Hin.
    { split; [reflexivity|]. intros Hn. contradiction. }
    pose proof (listing_run_raise Contributors (Repository.full_name repo) dt
                  (contributor_step repo dt) (contributor_step_inner repo dt)
                  (Repository.get_contributors repo) tt self) as Hraise.
    pose proof (listing_run_return Contributors (Repository.full_name repo)
                  (fun u => u) (contributor_step repo dt)
                  (contributor_step_recording repo dt)
                  (contributor_step_handled repo dt)
                  (Repository.get_contributors repo) tt self) as Hret.
    split; [exact Hraise|]. intros _ Hafter.
    destruct (result_of (listing_run _ _ _ _ _ _)) as [[]|e] eqn:Hres.
    + split; [reflexivity|]. destruct (Hret tt eq_refl) as (_ & Hall).
      exact Hall.
    + exfalso. apply Hin. pose proof (Hraise e eq_refl Contributors) as Heq.
      cbn [crawled_projects_for] in Heq. rewrite <- Heq. exact Hafter.
  - rewrite add_stargazers_run. cbn [crawled_projects_for].
    case_bool_decide as Hin.
    { split; [reflexivity|]. intros Hn. contradiction. }
    pose proof (listing_run_raise Stargazers (Repository.full_name repo) dt
                  (stargazer_step repo dt) (stargazer_step_inner repo dt)
                  (Repository.get_stargazers repo) tt self) as Hraise.
    pose proof (listing_run_return Stargazers (Repository.full_name repo)
                  (fun u => u) (stargazer_step repo dt)
                  (stargazer_step_recording repo dt)
                  (stargazer_step_handled repo dt)
                  (Repository.get_stargazers repo) tt self) as Hret.
    split; [exact Hraise|]. intros _ Hafter.
    destruct (result_of (listing_run _ _ _ _ _ _)) as [[]|e] eqn:Hres.
    + split; [reflexivity|]. destruct (Hret tt eq_refl) as (_ & Hall).
      exact Hall.
    + exfalso. apply Hin. pose proof (Hraise e eq_refl Stargazers) as Heq.
      cbn [crawled_projects_for] in Heq. rewrite <- Heq. exact Hafter.
  - destruct (bind_ret_tt_run (add_forkers repo dt) self) as (-> & _ & ->).
    rewrite add_forkers_run. cbn [crawled_projects_for].
    case_bool_decide as Hin.
    { split; [discriminate|]. intros Hn. contradiction. }
    pose proof (listing_run_raise Forkers (Repository.full_name repo) dt
                  (fork_step repo dt) (fork_step_inner repo dt)
                  (Repository.get_forks repo) [] self) as Hraise.
    pose proof (listing_run_return Forkers (Repository.full_name repo)
                  Fork.owner (fork_step repo dt)
                  (fork_step_recording repo dt)
                  (fork_step_handled repo dt)
                  (Repository.get_forks repo) [] self) as Hret.
    destruct (result_of (listing_run _ _ _ _ _ _)) as [l|e] eqn:Hres.
    + split; [discriminate|]. intros _ _. split; [reflexivity|].
      destruct (Hret l eq_refl) as (_ & Hall).
      apply List.Forall_map. eapply Forall_impl; [exact Hall|].
      intros step (fork & -> & Hfork). exists (Fork.owner fork). auto.
    + split.
      * intros e' _. exact (Hraise e eq_refl).
      * intros _ Hafter. exfalso. apply Hin. pose proof (Hraise e eq_refl Forkers) as Heq.
        cbn [crawled_projects_for] in Heq. rewrite <- Heq. exact Hafter.
Qed.

(** ** What the loop of [find_developers] guarantees *)

Lemma crawl_step_quiet dt s tr :
  Forall (fun ev => match ev with EvFetch _ _ | EvSleep _ => False | _ => True end) tr ->
  crawl_step dt s tr s.
Proof.
  intros Hq. rewrite Forall_forall in Hq. split; [reflexivity|].
  split; [intros k n Hin|intros secs Hin]; destruct (Hq _ Hin).
Qed.

Lemma add_contributors_crawl_step repo dt :
  guarantees (add_contributors repo dt) (crawl_step dt).
Proof.
  intros s. unfold holds_at. rewrite add_contributors_run. case_bool_decide as Hin.
  - apply composable_nil.
  - apply listing_run_crawl_step; [apply contributor_step_inner|exact Hin].
Qed.

Lemma add_stargazers_crawl_step repo dt :
  guarantees (add_stargazers repo dt) (crawl_step dt).
Proof.
  intros s. unfold holds_at. rewrite add_stargazers_run. case_bool_decide as Hin.
  - apply composable_nil.
  - apply listing_run_crawl_step; [apply stargazer_step_inner|exact Hin].
Qed.

Lemma add_forkers_crawl_step repo dt :
  guarantees (add_forkers repo dt) (crawl_step dt).
Proof.
  intros s. unfold holds_at. rewrite add_forkers_run. case_bool_decide as Hin.
  - apply composable_nil.
  - apply listing_run_crawl_step; [apply fork_step_inner|exact Hin].
Qed.

Lemma save_crawl_step dt : guarantees save (crawl_step dt).
Proof.
  intros s. unfold holds_at, save, bind, get, emit, ret.
  destruct (file_path s) as [p|]; [|apply composable_nil].
  case_bool_decide; [apply composable_nil|].
  apply crawl_step_quiet. repeat constructor.
Qed.

Lemma print_status_crawl_step dt r : guarantees (print_status r) (crawl_step dt).
Proof.
  intros s. unfold holds_at, print_status, bind, get, emit.
  apply crawl_step_quiet. repeat constructor.
Qed.

Section Frames.
Variable G : Platform.
Variable dt : number.

Lemma crawl_step_frame fr tr s' :
  crawl_step dt (self fr) tr s' -> frame_step G dt fr tr (set_self s' fr).
Proof.
  intros (Hg & Hf & Hs). split; [exact Hg|]. split; [exact Hf|].
  intros secs Hin. left. exact (Hs _ Hin).
Qed.

Lemma frame_step_quiet fr tr fr' :
  self fr' = self fr ->
  Forall (fun ev => match ev with EvFetch _ _ | EvSleep _ => False | _ => True end) tr ->
  frame_step G dt fr tr fr'.
Proof.
  intros Hself Hq. rewrite Forall_forall in Hq. split; [rewrite Hself; reflexivity|].
  split; [intros k n Hin|intros secs Hin]; destruct (Hq _ Hin).
Qed.

Lemma on_self_frame_step {A : Type} (m : M DeveloperBase A) :
  guarantees m (crawl_step dt) -> guarantees (on_self m) (frame_step G dt).
Proof. apply guarantees_on_self. apply crawl_step_frame. Qed.

Lemma report_frame_step : guarantees report (frame_step G dt).
Proof.
  apply guarantees_bind; [apply _|apply guarantees_get; apply _|]. intros fr.
  apply on_self_frame_step, print_status_crawl_step.
Qed.

Lemma modify_frame_step (f : Frame -> Frame) :
  (forall fr, self (f fr) = self fr) -> guarantees (modify f) (frame_step G dt).
Proof. intros Hf fr. apply frame_step_quiet; [apply Hf|constructor]. Qed.

Lemma read_forked_projects_frame_step :
  guarantees read_forked_projects (frame_step G dt).
Proof.
  apply guarantees_bind; [apply _|apply guarantees_get; apply _|]. intros fr.
  destruct (forked_projects fr); [apply guarantees_ret|apply guarantees_raise]; apply _.
Qed.

Variables go_recursive ignore_contributors ignore_forkers ignore_stargazers : bool.

Lemma crawl_relations_frame_step tick project :
  guarantees
    (crawl_relations G ignore_contributors ignore_forkers ignore_stargazers
       tick dt project)
    (frame_step G dt).
Proof.
  unfold crawl_relations.
  apply guarantees_bind; [apply _| |intros _].
  { intros fr. apply frame_step_quiet; [reflexivity|repeat constructor]. }
  apply guarantees_bind; [apply _|apply guarantees_lift; apply _|intros repo].
  apply guarantees_bind; [apply _| |intros _].
  { apply guarantees_when; [apply _|].
    apply guarantees_bind; [apply _| |intros _].
    { apply on_self_frame_step, add_contributors_crawl_step. }
    apply guarantees_bind; [apply _| |intros _].
    { apply on_self_frame_step, save_crawl_step. }
    apply report_frame_step. }
  apply guarantees_bind; [apply _| |intros _].
  { apply guarantees_when; [apply _|].
    apply guarantees_bind; [apply _| |intros _].
    { apply on_self_frame_step, add_stargazers_crawl_step. }
    apply guarantees_bind; [apply _| |intros _].
    { apply on_self_frame_step, save_crawl_step. }
    apply report_frame_step. }
  apply guarantees_when; [apply _|].
  apply guarantees_bind; [apply _| |intros l].
  { apply on_self_frame_step, add_forkers_crawl_step. }
  apply guarantees_bind; [apply _| |intros _].
  { apply modify_frame_step. reflexivity. }
  apply guarantees_bind; [apply _| |intros _].
  { apply on_self_frame_step, save_crawl_step. }
  apply report_frame_step.
Qed.

Lemma update_frontier_frame_step :
  guarantees (update_frontier go_recursive) (frame_step G dt).
Proof.
  apply guarantees_when; [apply _|].
  apply guarantees_bind; [apply _|apply read_forked_projects_frame_step|intros l].
  apply modify_frame_step. reflexivity.
Qed.

Lemma crawl_project_frame_step tick project :
  guarantees
    (crawl_project G go_recursive ignore_contributors ignore_forkers
       ignore_stargazers tick dt project)
    (frame_step G dt).
Proof.
  apply guarantees_bind; [apply _|apply crawl_relations_frame_step|intros _].
  apply update_frontier_frame_step.
Qed.

Lemma rate_limit_handler_frame_step tick project :
  guarantees (rate_limit_handler G tick project) (frame_step G dt).
Proof.
  apply guarantees_bind; [apply _| |intros _].
  { apply modify_frame_step. reflexivity. }
  intros fr. unfold holds_at. rewrite sleep_state.
  split; [reflexivity|]. pose proof (sleep_trace (Int (dt_wait G tick)) fr) as Ht.
  rewrite Forall_forall in Ht. split.
  - intros k n Hin. apply Ht in Hin. discriminate Hin.
  - intros secs Hin. apply Ht in Hin. injection Hin as ->. right. exists tick.
    reflexivity.
Qed.

Lemma iteration_frame_step tick :
  guarantees
    (iteration G go_recursive ignore_contributors ignore_forkers ignore_stargazers
       tick dt)
    (frame_step G dt).
Proof.
  apply guarantees_bind; [apply _|apply guarantees_get; apply _|intros fr].
  destruct (pop G tick (projects fr)) as [project|];
    [|apply guarantees_raise; apply _].
  apply guarantees_bind; [apply _| |intros _].
  { apply modify_frame_step. reflexivity. }
  apply guarantees_try_except; [apply _| |].
  - apply crawl_project_frame_step.
  - apply rate_limit_handler_frame_step.
Qed.

Lemma loop_frame_step fuel tick fr :
  let res := loop G go_recursive ignore_contributors ignore_forkers
               ignore_stargazers fuel tick dt fr in
  frame_step G dt fr (trace_of res) (state_of res).
Proof.
  cbv zeta. revert tick fr. induction fuel as [|fuel IH]; intros tick fr; cbn [loop].
  - case_bool_decide; apply composable_nil.
  - case_bool_decide; [apply composable_nil|].
    pose proof (iteration_frame_step tick fr) as Hit. unfold holds_at in Hit.
    destruct (iteration _ _ _ _ _ _ _ fr) as [[fr1 tr1] [[]|e]];
      unfold trace_of, state_of in *; cbn [fst snd] in *; [|exact Hit].
    specialize (IH (S tick) fr1).
    destruct (loop _ _ _ _ _ _ _ _ fr1) as [[fr2 tr2] st]. cbn [fst snd] in *.
    eapply composable_app; eassumption.
Qed.
End Frames.

(** ** The completion sets gate the crawl *)

(** C3: for a repository that is in the completion set of a relation kind,
    the crawl operation of that kind returns at once, with no event (no
    request to the platform) and the base as it was, [add_forkers] with the
    empty list; and in every run of [find_developers] from such a base,
    however long, the listing of that kind is never requested for that
    repository. *)
Theorem completed_relation_is_not_fetched_again
  G go_recursive ignore_contributors ignore_forkers ignore_stargazers
  ignore_rate_limiting k n self :
  n ∈ crawled_projects_for k self ->
  (forall repo dt, Repository.full_name repo = n ->
     match k with
     | Contributors => add_contributors repo dt self = (self, [], Return tt)
     | Stargazers => add_stargazers repo dt self = (self, [], Return tt)
     | Forkers => add_forkers repo dt self = (self, [], Return [])
     end)
  /\ (forall fuel projects0,
        EvFetch k n ∉ trace_of (find_developers G go_recursive ignore_contributors
                                  ignore_forkers ignore_stargazers
                                  ignore_rate_limiting fuel projects0 self)).
Proof.
  intros Hin. split.
  - intros repo dt <-. destruct k; cbn [crawled_projects_for] in Hin.
    + rewrite add_contributors_run, bool_decide_eq_true_2 by exact Hin. reflexivity.
    + rewrite add_stargazers_run, bool_decide_eq_true_2 by exact Hin. reflexivity.
    + rewrite add_forkers_run, bool_decide_eq_true_2 by exact Hin. reflexivity.
  - intros fuel projects0 Hev. unfold find_developers in Hev.
    pose proof (loop_frame_step G (pacing_delay G ignore_rate_limiting) go_recursive
                  ignore_contributors ignore_forkers ignore_stargazers fuel 0
                  {| self := self; projects := list_to_set projects0;
                     forked_projects := None |}) as (_ & Hfetch & _).
    exact (Hfetch _ _ Hev Hin).
Qed.

Lemma completed_relation_is_not_fetched_again_witness :
  add_contributors repo_of_ghost (Float 0) base_crawled = (base_crawled, [], Return tt)
  /\ EvFetch Contributors "a/b"
       ∉ trace_of (find_developers sample_platform true false false false false
                     5 ["a/b"; "c/d"] base_crawled).
Proof.
  assert (Hin : "a/b" ∈ crawled_projects_for Contributors base_crawled).
  { apply (bool_decide_unpack _). vm_compute. exact I. }
  destruct (completed_relation_is_not_fetched_again sample_platform true false false
              false false Contributors "a/b" base_crawled Hin) as (H1 & H2).
  split; [exact (H1 repo_of_ghost (Float 0) eq_refl)|exact (H2 5 ["a/b"; "c/d"])].
Defined.

(** ** The pacing delay *)

(** C8: the delay that [find_developers] passes to the three crawl
    operations is [0.0] when rate limiting is ignored and
    [1.01 * n_requests_total / 3600] otherwise, and every sleep of a run is
    a sleep of that delay, between two records, or the wait of the handler
    of the rate limit. *)
Theorem pacing_delay_is_used_between_records
  G go_recursive ignore_contributors ignore_forkers ignore_stargazers
  ignore_rate_limiting fuel projects0 self0 :
  let dt := pacing_delay G ignore_rate_limiting in
  dt = (if ignore_rate_limiting then Float 0
        else Float (1.01 * float_of_int (rate_limiting G 0).2 / 3600))
  /\ (forall repo self secs,
        EvSleep secs ∈ trace_of (add_contributors repo dt self)
        \/ EvSleep secs ∈ trace_of (add_stargazers repo dt self)
        \/ EvSleep secs ∈ trace_of (add_forkers repo dt self) ->
        secs = dt)
  /\ (forall secs,
        EvSleep secs ∈ trace_of (find_developers G go_recursive ignore_contributors
                                   ignore_forkers ignore_stargazers
                                   ignore_rate_limiting fuel projects0 self0) ->
        secs = dt
        \/ exists tick,
             secs = Int (rate_limiting_resettime G tick - time G tick + 10)).
Proof.
  intros dt. split; [|split].
  - subst dt. unfold pacing_delay. destruct ignore_rate_limiting; [reflexivity|].
    destruct (rate_limiting G 0) as [remaining total]. reflexivity.
  - intros repo self secs [Hev|[Hev|Hev]].
    + destruct (add_contributors_crawl_step repo dt self) as (_ & _ & Hsleep).
      exact (Hsleep _ Hev).
    + destruct (add_stargazers_crawl_step repo dt self) as (_ & _ & Hsleep).
      exact (Hsleep _ Hev).
    + destruct (add_forkers_crawl_step repo dt self) as (_ & _ & Hsleep).
      exact (Hsleep _ Hev).
  - intros secs Hev. unfold find_developers in Hev.
    pose proof (loop_frame_step G dt go_recursive
                  ignore_contributors ignore_forkers ignore_stargazers fuel 0
                  {| self := self0; projects := list_to_set projects0;
                     forked_projects := None |}) as (_ & _ & Hsleep).
    exact (Hsleep _ Hev).
Qed.

(** On the sample platform, two repositories with one contributor each give
    two sleeps of [1.01 * 5000 / 3600] seconds. *)
Example pacing_delay_sample :
  List.filter (fun ev => match ev with EvSleep _ => true | _ => false end)
    (trace_of (find_developers sample_platform false false true true false
                 5 ["a/b"; "c/d"] (init None)))
  = [EvSleep (Float (1.01 * 5000 / 3600)); EvSleep (Float (1.01 * 5000 / 3600))].
Proof. vm_compute. reflexivity. Qed.

(** ** The frontier *)

Lemma pop_elem_of G tick (ps : gset string) p : pop G tick ps = Some p -> p ∈ ps.
Proof.
  unfold pop. intros H. apply elem_of_elements.
  eapply list_elem_of_lookup_2. exact H.
Qed.

Lemma pop_is_Some G tick (ps : gset string) : size ps <> 0 -> is_Some (pop G tick ps).
Proof.
  unfold pop. intros Hsize. apply lookup_lt_is_Some.
  unfold size, set_size in Hsize. cbn in Hsize.
  apply Nat.mod_upper_bound. exact Hsize.
Qed.



Section Locals.
Variable G : Platform.
Variable dt : number.
Variables go_recursive ignore_contributors ignore_forkers ignore_stargazers : bool.

(** The stages of the relations change the local variables only by the
    assignment to [forked_projects] of the stage of the forkers. *)
Lemma crawl_relations_locals (R : Frame -> list event -> Frame -> Prop)
  `{!Composable R} tick project :
  (forall fr tr s', R fr tr (set_self s' fr)) ->
  (forall fr tr, R fr tr fr) ->
  (ignore_forkers = false -> forall fr l, R fr [] (set_forked_projects l fr)) ->
  guarantees
    (crawl_relations G ignore_contributors ignore_forkers ignore_stargazers
       tick dt project) R.
Proof.
  intros Hself Hquiet Hforked.
  assert (Hon : forall A (m : M DeveloperBase A), guarantees (on_self m) R).
  { intros A m fr. unfold holds_at, on_self.
    destruct (m (self fr)) as [[s' tr] r]. apply Hself. }
  assert (Hreport : guarantees report R).
  { apply guarantees_bind; [apply _|apply guarantees_get; apply _|]. intros fr.
    apply Hon. }
  unfold crawl_relations.
  apply guarantees_bind; [apply _| |intros _].
  { intros fr. apply Hquiet. }
  apply guarantees_bind; [apply _|apply guarantees_lift; apply _|intros repo].
  apply guarantees_bind; [apply _| |intros _].
  { apply guarantees_when; [apply _|].
    apply guarantees_bind; [apply _|apply Hon|intros _].
    apply guarantees_bind; [apply _|apply Hon|intros _]. apply Hreport. }
  apply guarantees_bind; [apply _| |intros _].
  { apply guarantees_when; [apply _|].
    apply guarantees_bind; [apply _|apply Hon|intros _].
    apply guarantees_bind; [apply _|apply Hon|intros _]. apply Hreport. }
  destruct ignore_forkers; [apply guarantees_ret; apply _|]. cbn [negb when].
  apply guarantees_bind; [apply _|apply Hon|intros l].
  apply guarantees_bind; [apply _| |intros _].
  { intros fr. apply (Hforked eq_refl). }
  apply guarantees_bind; [apply _|apply Hon|intros _]. apply Hreport.
Qed.

Lemma crawl_project_frontier_grows tick project :
  guarantees
    (crawl_project G go_recursive ignore_contributors ignore_forkers
       ignore_stargazers tick dt project)
    frontier_grows.
Proof.
  apply guarantees_bind; [apply _| |intros _].
  - apply crawl_relations_locals; [apply _|..]; unfold frontier_grows; cbn; reflexivity.
  - apply guarantees_when; [apply _|].
    apply guarantees_bind; [apply _| |intros l].
    + apply guarantees_bind; [apply _|apply guarantees_get; apply _|]. intros fr.
      destruct (forked_projects fr); [apply guarantees_ret|apply guarantees_raise];
        apply _.
    + intros fr. unfold holds_at, frontier_grows. cbn. apply union_subseteq_l.
Qed.

Lemma rate_limit_handler_run tick project fr :
  state_of (rate_limit_handler G tick project fr)
    = set_projects (fun ps => ps ∪ {[project]}) fr
  /\ ((0 <= dt_wait G tick)%Z ->
      rate_limit_handler G tick project fr
      = (set_projects (fun ps => ps ∪ {[project]}) fr,
         [EvSleep (Int (dt_wait G tick))], Return tt)).
Proof.
  unfold rate_limit_handler, bind, modify, sleep, is_negative.
  fold (dt_wait G tick). split.
  - destruct (dt_wait G tick <? 0)%Z; reflexivity.
  - intros Hw. apply Z.ltb_ge in Hw. rewrite Hw. reflexivity.
Qed.



Lemma iteration_run tick fr :
  iteration G go_recursive ignore_contributors ignore_forkers ignore_stargazers
    tick dt fr
  = match pop G tick (projects fr) with
    | None => (fr, [], Raise KeyError)
    | Some project =>
        try_except
          (crawl_project G go_recursive ignore_contributors ignore_forkers
             ignore_stargazers tick dt project)
          RateLimitExceededException
          (rate_limit_handler G tick project)
          (set_projects (fun ps => ps ∖ {[project]}) fr)
    end.
Proof.
  unfold iteration, bind, get, modify, raise.
  destruct (pop G tick (projects fr)) as [project|]; [|reflexivity].
  destruct (try_except _ _ _ _) as [[fr1 tr1] r]. reflexivity.
Qed.



End Locals.

(** ** Recovery from the rate limit *)




(** ** The recursive crawl without the stage of the forkers *)

Section Unbound.
Variable G : Platform.
Variable dt : number.
Variables ignore_contributors ignore_stargazers : bool.

(** With [ignore_forkers] set, the stages of the relations leave
    [forked_projects] as it is. *)
Lemma crawl_relations_keeps_forked_projects tick project fr :
  forked_projects
    (state_of (crawl_relations G ignore_contributors true ignore_stargazers
                 tick dt project fr))
  = forked_projects fr.
Proof.
  apply (crawl_relations_locals G dt ignore_contributors true ignore_stargazers
           keeps_forked_projects tick project); try reflexivity.
  discriminate.
Qed.

(** With [go_recursive] set and [forked_projects] unbound, the crawl of a
    project raises [NameError] when its stages return, and otherwise ends
    as the stages do. *)
Lemma crawl_project_unbound tick project fr :
  forked_projects fr = None ->
  result_of (crawl_project G true ignore_contributors true ignore_stargazers
               tick dt project fr)
  = match result_of (crawl_relations G ignore_contributors true ignore_stargazers
                       tick dt project fr) with
    | Return _ => Raise NameError
    | Raise e => Raise e
    end
  /\ forked_projects
       (state_of (crawl_project G true ignore_contributors true ignore_stargazers
                    tick dt project fr)) = None.
Proof.
  intros Hnone.
  pose proof (crawl_relations_keeps_forked_projects tick project fr) as Hkeep.
  rewrite Hnone in Hkeep. unfold crawl_project, bind.
  destruct (crawl_relations _ _ _ _ _ _ _ fr) as [[fr1 tr1] [[]|e]];
    unfold state_of, result_of in *; cbn [fst snd] in *.
  - unfold update_frontier, when, read_forked_projects, bind, get.
    rewrite Hkeep. cbn. auto.
  - auto.
Qed.

Lemma loop_unbound_never_completes fuel tick fr :
  forked_projects fr = None ->
  projects fr <> ∅ ->
  result_of (loop G true ignore_contributors true ignore_stargazers fuel tick dt fr)
  <> Finished (Return tt).
Proof.
  revert tick fr. induction fuel as [|fuel IH]; intros tick fr Hnone Hne; cbn [loop].
  - case_bool_decide as Hsize; [|discriminate].
    apply size_empty_iff in Hsize. apply leibniz_equiv in Hsize. contradiction.
  - case_bool_decide as Hsize.
    { apply size_empty_iff in Hsize. apply leibniz_equiv in Hsize. contradiction. }
    rewrite iteration_run.
    destruct (pop_is_Some G tick (projects fr) Hsize) as (project & ->).
    set (fr0 := set_projects (fun ps => ps ∖ {[project]}) fr).
    destruct (crawl_project_unbound tick project fr0 Hnone) as (Hres & Hstate).
    unfold try_except.
    destruct (crawl_project _ _ _ _ _ _ _ _ fr0) as [[fr1 tr1] r].
    unfold state_of, result_of in Hres, Hstate. cbn [fst snd] in Hres, Hstate.
    destruct r as [[]|e].
    { match type of Hres with
      | _ = match ?x with _ => _ end => destruct x; discriminate Hres
      end. }
    destruct (decide (e = RateLimitExceededException)) as [->|Hother];
      [|unfold result_of; cbn; discriminate].
    pose proof (rate_limit_handler_run G tick project fr1) as (Hst & _).
    destruct (rate_limit_handler G tick project fr1) as [[fr2 tr2] [[]|e]];
      [|unfold result_of; cbn; discriminate].
    unfold state_of in Hst. cbn [fst] in Hst. subst fr2.
    specialize (IH (S tick)
                  (set_projects (fun ps => ps ∪ {[project]}) fr1) Hstate).
    destruct (loop _ _ _ _ _ fuel _ _ _) as [[fr3 tr3] st].
    unfold result_of in *. cbn [snd] in *. apply IH. cbn.
    intros Hempty. apply (not_elem_of_empty (C := gset string) project).
    rewrite <- Hempty. apply elem_of_union_r, elem_of_singleton. reflexivity.
Qed.
End Unbound.

(** C10: with [go_recursive] and [ignore_forkers] both set, the first
    repository taken from the frontier makes the call raise [NameError]
    as soon as its stages (contributors, stargazers) have returned:
    [forked_projects] has not been assigned. More generally such a call
    never completes on a non-empty list of projects. *)
Theorem recursive_crawl_without_forkers_raises_NameError
  G ignore_contributors ignore_stargazers ignore_rate_limiting
  fuel projects0 self0 project :
  pop G 0 (list_to_set projects0) = Some project ->
  result_of (crawl_relations G ignore_contributors true ignore_stargazers 0
               (pacing_delay G ignore_rate_limiting) project
               {| self := self0;
                  projects := list_to_set projects0 ∖ {[project]};
                  forked_projects := None |}) = Return tt ->
  result_of (find_developers G true ignore_contributors true ignore_stargazers
               ignore_rate_limiting (S fuel) projects0 self0)
    = Finished (Raise NameError)
  /\ forall fuel',
       result_of (find_developers G true ignore_contributors true ignore_stargazers
                    ignore_rate_limiting fuel' projects0 self0)
       <> Finished (Return tt).
Proof.
  intros Hpop Hstages.
  assert (Hne : list_to_set projects0 <> (∅ : gset string)).
  { intros Hempty. apply pop_elem_of in Hpop. rewrite Hempty in Hpop.
    apply not_elem_of_empty in Hpop. contradiction. }
  split.
  - unfold find_developers. cbn [loop]. cbn [projects].
    case_bool_decide as Hsize.
    { apply size_empty_iff in Hsize. apply leibniz_equiv in Hsize. contradiction. }
    rewrite iteration_run. cbn [projects]. rewrite Hpop.
    set (fr0 := set_projects _ _).
    destruct (crawl_project_unbound G (pacing_delay G ignore_rate_limiting)
                ignore_contributors ignore_stargazers 0 project fr0 eq_refl)
      as (Hres & _).
    change fr0 with {| self := self0;
                       projects := list_to_set projects0 ∖ {[project]};
                       forked_projects := None |} in Hres at 2.
    rewrite Hstages in Hres. unfold try_except.
    destruct (crawl_project _ _ _ _ _ _ _ _ fr0) as [[fr1 tr1] r].
    unfold result_of in Hres. cbn [snd] in Hres. subst r.
    rewrite decide_False by discriminate. reflexivity.
  - intros fuel'. unfold find_developers.
    apply loop_unbound_never_completes; [reflexivity|exact Hne].
Qed.

Lemma recursive_crawl_without_forkers_raises_NameError_witness :
  result_of (find_developers sample_platform true false true false false
               1 ["a/b"] (init None))
    = Finished (Raise NameError).
Proof.
  assert (Hpop : pop sample_platform 0 (list_to_set ["a/b"]) = Some "a/b")
    by (vm_compute; reflexivity).
  assert (Hstages :
    result_of (crawl_relations sample_platform false true false 0
                 (pacing_delay sample_platform false) "a/b"
                 {| self := init None;
                    projects := list_to_set ["a/b"] ∖ {["a/b"]};
                    forked_projects := None |}) = Return tt)
    by (vm_compute; reflexivity).
  destruct (recursive_crawl_without_forkers_raises_NameError sample_platform
              false false false 0 ["a/b"] (init None) "a/b" Hpop Hstages)
    as (H & _).
  exact H.
Defined.

(** ** The email filter of the ranking *)

(** C7, as the specification states it, fails: a developer whose email is
    the empty string is not missing for [pd.isna], and stays in the ranked
    table. *)
Lemma ranking_has_no_empty_or_absent_email_fails :
  ~ ranking_has_no_empty_or_absent_email base_with_blank.
Proof.
  intros H.
  assert (Hrank : exists r, rank_developers 5 2 1 true base_with_blank = Return [r]
                            /\ Developer.email (row r) = Some "").
  { eexists. split; vm_compute; reflexivity. }
  destruct Hrank as (r & Hrank & Hemail).
  destruct (H _ Hrank r) as (_ & Hne); [apply list_elem_of_singleton; reflexivity|].
  contradiction.
Qed.

Lemma rank_developers_rows score_contributed score_forked score_stared exclude self rows :
  rank_developers score_contributed score_forked score_stared exclude self
    = Return rows ->
  forall r, r ∈ rows <->
    developers self !! index r = Some (row r)
    /\ (exclude = true -> isna (Developer.email (row r)) = false)
    /\ score r = (score_contributed * Z.of_nat (size (Developer.contributed_to (row r)))
                  + score_forked * Z.of_nat (size (Developer.forked (row r)))
                  + score_stared * Z.of_nat (size (Developer.stared (row r))))%Z.
Proof.
  unfold rank_developers. case_bool_decide as Hempty; [discriminate|].
  intros Hrows. injection Hrows as <-. intros r.
  rewrite merge_sort_Permutation, list_elem_of_In, in_map_iff. split.
  - intros ([l d] & <- & Hin). cbn. destruct exclude.
    + apply filter_In in Hin as (Hin & Hna). apply list_elem_of_In in Hin.
      apply elem_of_map_to_list in Hin. cbn in Hna.
      apply negb_true_iff in Hna. auto.
    + apply list_elem_of_In, elem_of_map_to_list in Hin. split; [exact Hin|].
      split; [discriminate|reflexivity].
  - intros (Hlook & Hna & Hscore). exists (index r, row r). split.
    + destruct r as [l d sc]. cbn in *. subst sc. reflexivity.
    + apply elem_of_map_to_list, list_elem_of_In in Hlook. destruct exclude.
      * apply filter_In. split; [exact Hlook|]. cbn. rewrite (Hna eq_refl).
        reflexivity.
      * exact Hlook.
Qed.

(** C7, amended: on a base with at least one developer, [rank_developers]
    with the exclusion enabled returns a table whose rows are exactly the
    developers whose email is not absent ([None]), each with its record;
    a developer whose email is a string, the empty one included, is
    kept. *)
Theorem rank_developers_excludes_absent_email
  score_contributed score_forked score_stared self :
  developers self <> ∅ ->
  exists rows,
    rank_developers score_contributed score_forked score_stared true self
      = Return rows
    /\ (forall r, r ∈ rows ->
          developers self !! index r = Some (row r)
          /\ Developer.email (row r) <> None)
    /\ (forall l d, developers self !! l = Some d -> Developer.email d <> None ->
          exists r, r ∈ rows /\ index r = l /\ row r = d).
Proof.
  intros Hne.
  destruct (rank_developers score_contributed score_forked score_stared true self)
    as [rows|e] eqn:Hrank.
  - exists rows. split; [reflexivity|].
    pose proof (rank_developers_rows _ _ _ _ _ _ Hrank) as Hrows. split.
    + intros r Hin. apply Hrows in Hin as (Hlook & Hna & _). split; [exact Hlook|].
      specialize (Hna eq_refl). destruct (Developer.email (row r)); [discriminate|].
      discriminate Hna.
    + intros l d Hlook Hemail.
      exists {| index := l; row := d;
                score := (score_contributed * Z.of_nat (size (Developer.contributed_to d))
                          + score_forked * Z.of_nat (size (Developer.forked d))
                          + score_stared * Z.of_nat (size (Developer.stared d)))%Z |}.
      split; [|split; reflexivity]. apply Hrows. cbn. split; [exact Hlook|].
      split; [|reflexivity]. intros _. destruct (Developer.email d); [reflexivity|].
      contradiction.
  - exfalso. unfold rank_developers in Hrank.
    case_bool_decide as Hempty; [|discriminate].
    apply map_to_list_empty_iff in Hempty. contradiction.
Qed.

(** On a base with [bob], who has an email, and [anon], who has none, the
    exclusion drops [anon] and keeps [bob]. *)
Lemma rank_developers_excludes_absent_email_witness :
  is_Some (developers base_with_anon !! "anon")
  /\ exists rows,
       rank_developers 5 2 1 true base_with_anon = Return rows
       /\ (forall r, r ∈ rows -> index r <> "anon")
       /\ (exists r, r ∈ rows /\ index r = "bob").
Proof.
  assert (Hanon : exists d, developers base_with_anon !! "anon" = Some d
                            /\ Developer.email d = None)
    by (eexists; split; vm_compute; reflexivity).
  assert (Hbob : exists d, developers base_with_anon !! "bob" = Some d
                           /\ Developer.email d <> None)
    by (eexists; split; [vm_compute; reflexivity|discriminate]).
  destruct Hanon as (a & Ha & Hemail). destruct Hbob as (b & Hb & Hemail').
  assert (Hne : developers base_with_anon <> ∅).
  { intros Hempty. rewrite Hempty, lookup_empty in Ha. discriminate Ha. }
  destruct (rank_developers_excludes_absent_email 5 2 1 base_with_anon Hne)
    as (rows & Hrank & Hrows & Hkept).
  split; [exists a; exact Ha|]. exists rows. split; [exact Hrank|]. split.
  - intros r Hin Hindex. destruct (Hrows r Hin) as (Hlook & Hsome).
    rewrite Hindex, Ha in Hlook. injection Hlook as Hrow. apply Hsome.
    rewrite <- Hrow. exact Hemail.
  - destruct (Hkept "bob" b Hb Hemail') as (r & Hin & Hindex & _). eauto.
Defined.

(** ** The fallback of the geo parser from cities to countries *)

(** C9 at a failing input: the location ["São Paulo"] matches the city of
    the first row of the gazetteer and no country; the fallback looks the
    ASCII name ["sao paulo"] up in the column [city], where the name is
    ["são paulo"], and finds no row: the list of countries is empty. (The
    strings of this input have their capital letters and their white
    space in ASCII, where [ascii_text] is what Python does.) *)
Lemma parse_location_loses_country_of_non_ascii_city :
  GeoParser.parse_location (T := GeoParser.ascii_text)
    (GeoParser.init (T := GeoParser.ascii_text) sample_csv)
    (GeoParser.Str "São Paulo")
  = ([], ["sao paulo"]).
Proof. vm_compute. reflexivity. Qed.

(** The same gazetteer and a city whose name is ASCII: the country is
    derived. *)
Example parse_location_berlin :
  GeoParser.parse_location (T := GeoParser.ascii_text)
    (GeoParser.init (T := GeoParser.ascii_text) sample_csv)
    (GeoParser.Str " BERLIN , Europe")
  = (["germany"], ["berlin"]).
Proof. vm_compute. reflexivity. Qed.

Example parse_location_not_str {T : GeoParser.Text} df :
  GeoParser.parse_location df GeoParser.NotStr = ([], []).
Proof. reflexivity. Qed.

(** ** What the fallback of the geo parser computes *)

Lemma or_mask_map (f g : GeoParser.row -> bool) df :
  GeoParser.or_mask (List.map f df) (List.map g df)
  = List.map (fun r => f r || g r) df.
Proof.
  unfold GeoParser.or_mask. induction df as [|r df IH]; cbn; [reflexivity|].
  f_equal. exact IH.
Qed.

Lemma select_map (f : GeoParser.row -> bool) df :
  GeoParser.select df (List.map f df) = List.filter f df.
Proof.
  unfold GeoParser.select. induction df as [|r df IH]; cbn; [reflexivity|].
  destruct (f r); cbn; [f_equal|]; exact IH.
Qed.

Lemma fold_mask (step : bool -> string -> GeoParser.row -> bool)
  (mask_step : list bool -> string -> list bool) df :
  (forall f loc, mask_step (List.map f df) loc
                 = List.map (fun r => step (f r) loc r) df) ->
  forall locs f,
    fold_left mask_step locs (List.map f df)
    = List.map (fun r => fold_left (fun b loc => step b loc r) locs (f r)) df.
Proof.
  intros Hstep locs. induction locs as [|loc locs IH]; intros f; cbn; [reflexivity|].
  rewrite Hstep, IH. reflexivity.
Qed.

Lemma fold_orb_matches (col : GeoParser.row -> string)
  (step : bool -> string -> bool) locs r b :
  (forall b loc, step b loc = b || String.eqb (col r) loc) ->
  fold_left step locs b = b || bool_decide (col r ∈ locs).
Proof.
  intros Hstep. revert b. induction locs as [|loc locs IH]; intros b; cbn.
  - rewrite bool_decide_eq_false_2 by apply not_elem_of_nil.
    rewrite orb_false_r. reflexivity.
  - rewrite IH, Hstep. destruct b; cbn; [reflexivity|].
    destruct (String.eqb_spec (col r) loc) as [Heq|Hne]; cbn.
    + rewrite bool_decide_eq_true_2; [reflexivity|]. rewrite Heq. apply elem_of_cons.
      left. reflexivity.
    + apply bool_decide_ext. rewrite elem_of_cons. tauto.
Qed.

Lemma city_mask df locs :
  fold_left (fun m loc =>
      GeoParser.or_mask (GeoParser.or_mask m (GeoParser.eq_mask GeoParser.city df loc))
        (GeoParser.eq_mask GeoParser.city df loc))
    locs (GeoParser.eq_mask GeoParser.city df "?@#")
  = List.map (matches GeoParser.city locs) df.
Proof.
  unfold GeoParser.eq_mask.
  rewrite (fold_mask (fun b loc r =>
             b || String.eqb (GeoParser.city r) loc || String.eqb (GeoParser.city r) loc)).
  - apply map_ext. intros r. unfold matches. apply fold_orb_matches.
    intros b loc. rewrite <- orb_assoc, orb_diag. reflexivity.
  - intros f loc. rewrite !or_mask_map. reflexivity.
Qed.

Lemma country_mask df locs :
  fold_left (fun m loc => GeoParser.or_mask m (GeoParser.eq_mask GeoParser.country df loc))
    locs (GeoParser.eq_mask GeoParser.country df "?@#")
  = List.map (matches GeoParser.country locs) df.
Proof.
  unfold GeoParser.eq_mask.
  rewrite (fold_mask (fun b loc r => b || String.eqb (GeoParser.country r) loc)).
  - apply map_ext. intros r. unfold matches. apply fold_orb_matches. reflexivity.
  - intros f loc. rewrite or_mask_map. reflexivity.
Qed.

(** [parse_location] on a string: the cities are the ASCII names of the
    rows whose city is a token; the countries are those of the rows whose
    country is a token; the fallback selects the rows whose column [city]
    holds one of the ASCII names found. *)
Lemma parse_location_run {T : GeoParser.Text} df location :
  GeoParser.parse_location df (GeoParser.Str location)
  = let locs := tokens location in
    let cities :=
      GeoParser.unique
        (List.map GeoParser.city_ascii (List.filter (matches GeoParser.city locs) df)) in
    let countries :=
      GeoParser.unique
        (List.map GeoParser.country (List.filter (matches GeoParser.country locs) df)) in
    if (length countries =? 0)%nat && (0 <? length cities)%nat
    then (GeoParser.unique
            (List.map GeoParser.country
               (List.filter (fun r => bool_decide (GeoParser.city r ∈ cities)) df)),
          cities)
    else (countries, cities).
Proof.
  unfold GeoParser.parse_location. fold (tokens location). cbv zeta.
  rewrite city_mask, country_mask, !select_map.
  unfold GeoParser.isin_mask. rewrite select_map. reflexivity.
Qed.

Lemma elem_of_unique_from x seen l :
  x ∈ GeoParser.unique_from seen l <-> x ∈ l /\ x ∉ seen.
Proof.
  revert seen. induction l as [|y l IH]; intros seen; cbn.
  - split; [intros H; inversion H|intros [H _]; inversion H].
  - case_bool_decide as Hseen.
    + rewrite IH, elem_of_cons. split; [tauto|].
      intros [[->|Hin] Hx]; [contradiction|tauto].
    + rewrite elem_of_cons, IH, !elem_of_cons. split.
      * intros [->|[Hin Hx]]; [tauto|]. split; [tauto|]. intros Hs. apply Hx. tauto.
      * intros [[->|Hin] Hx]; [tauto|].
        destruct (decide (x = y)) as [->|Hne]; [tauto|]. right.
        split; [exact Hin|]. intros [?|?]; [contradiction|contradiction].
Qed.

Lemma elem_of_unique x l : x ∈ GeoParser.unique l <-> x ∈ l.
Proof.
  unfold GeoParser.unique. rewrite elem_of_unique_from. split; [tauto|].
  intros H. split; [exact H|apply not_elem_of_nil].
Qed.

Lemma unique_nil_inv l : GeoParser.unique l = [] -> l = [].
Proof.
  destruct l as [|x l]; [reflexivity|]. intros H.
  assert (Hx : x ∈ GeoParser.unique (x :: l))
    by (apply elem_of_unique, elem_of_cons; left; reflexivity).
  rewrite H in Hx. inversion Hx.
Qed.

(** On a gazetteer in which every city has its ASCII name as name, the
    fallback does what its comment says: with no country among the tokens
    and a city among them, the countries returned are those of the rows of
    the matched cities, and there is at least one. The failing input of C9
    differs exactly in the row whose two names differ. *)
Lemma parse_location_fallback_on_ascii_gazetteer {T : GeoParser.Text} df location :
  (forall r, r ∈ df -> GeoParser.city_ascii r = GeoParser.city r) ->
  List.filter (matches GeoParser.country (tokens location)) df = [] ->
  List.filter (matches GeoParser.city (tokens location)) df <> [] ->
  (GeoParser.parse_location df (GeoParser.Str location)).1
    = GeoParser.unique
        (List.map GeoParser.country
           (List.filter (matches GeoParser.city (tokens location)) df))
  /\ (GeoParser.parse_location df (GeoParser.Str location)).1 <> [].
Proof.
  intros Hascii Hcountry Hcity. rewrite parse_location_run. cbv zeta.
  rewrite Hcountry. cbn [List.map GeoParser.unique GeoParser.unique_from length Nat.eqb].
  set (locs := tokens location) in *.
  set (cities := GeoParser.unique (List.map GeoParser.city_ascii
                   (List.filter (matches GeoParser.city locs) df))).
  assert (Hcities : cities <> []).
  { intros Hnil. apply unique_nil_inv, map_eq_nil in Hnil. contradiction. }
  assert (Hlen : (0 <? length cities)%nat = true).
  { apply Nat.ltb_lt. destruct cities; [contradiction|cbn; lia]. }
  rewrite Hlen. cbn [andb fst].
  assert (Hfilter : List.filter (fun r => bool_decide (GeoParser.city r ∈ cities)) df
                    = List.filter (matches GeoParser.city locs) df).
  { apply filter_ext_in. intros r Hr. apply list_elem_of_In in Hr.
    destruct (matches GeoParser.city locs r) eqn:Hm.
    - apply bool_decide_eq_true_2. subst cities. apply elem_of_unique.
      rewrite <- (Hascii r Hr). apply list_elem_of_In, in_map, filter_In.
      split; [apply list_elem_of_In; exact Hr|exact Hm].
    - apply bool_decide_eq_false_2. intros Hin. subst cities.
      apply elem_of_unique, list_elem_of_In, in_map_iff in Hin as (r' & Hname & Hr').
      apply filter_In in Hr' as (Hr' & Hm'). apply list_elem_of_In in Hr'.
      rewrite (Hascii r' Hr') in Hname. unfold matches in Hm, Hm'.
      rewrite Hname, Hm in Hm'. discriminate Hm'. }
  rewrite Hfilter. split; [reflexivity|].
  intros Hnil. apply unique_nil_inv, map_eq_nil in Hnil. contradiction.
Qed.

(** * Further properties of the code *)

(** ** More on [add] *)

Lemma update_update A F S d :
  Developer.update A F S (Developer.update A F S d) = Developer.update A F S d.
Proof.
  unfold Developer.update. cbn. f_equal; rewrite <- (assoc_L (∪)), (idemp_L (∪));
    reflexivity.
Qed.

Lemma alter_update_twice A F S k (m : gmap string Developer.t) :
  alter (Developer.update A F S) k (alter (Developer.update A F S) k m)
  = alter (Developer.update A F S) k m.
Proof.
  apply map_eq. intros i. destruct (decide (k = i)) as [<-|Hne].
  - rewrite !lookup_alter_eq. destruct (m !! k) as [d|]; cbn; [|reflexivity].
    rewrite update_update. reflexivity.
  - rewrite !lookup_alter_ne by exact Hne. reflexivity.
Qed.

(** X1: [add] is idempotent for a user that it records: when the login is
    a key already or the profile resolves, a second [add] of the same user
    with the same sets leaves the base as the first one left it. *)
Theorem add_again_changes_nothing u A F S self :
  is_Some (developers self !! NamedUser.login u)
  \/ (exists p, NamedUser.profile u = Return p) ->
  add u A F S (state_of (add u A F S self)) = add u A F S self.
Proof.
  intros Hrec. destruct (developers self !! NamedUser.login u) as [d|] eqn:Hd.
  - rewrite (add_known _ _ _ _ _ _ Hd). unfold state_of. cbn [fst].
    erewrite add_known
      by (cbn; rewrite lookup_alter_eq, Hd; reflexivity).
    unfold set_developers. cbn. rewrite alter_update_twice. reflexivity.
  - destruct Hrec as [[d' Hd']|[p Hp]]; [discriminate|].
    rewrite (add_fresh _ _ _ _ _ _ Hd Hp). unfold state_of. cbn [fst].
    erewrite add_known
      by (cbn; rewrite lookup_alter_eq, lookup_insert_eq; reflexivity).
    unfold set_developers. cbn. rewrite alter_update_twice. reflexivity.
Qed.

Lemma add_again_changes_nothing_witness :
  add bob {["a/b"]} ∅ ∅ (state_of (add bob {["a/b"]} ∅ ∅ (init None)))
  = add bob {["a/b"]} ∅ ∅ (init None).
Proof.
  apply add_again_changes_nothing. right. eexists. reflexivity.
Defined.

(** X2: an account that cannot be resolved is listed once more by every
    [add]: after [n] calls for a login that is not a key, the list of
    corrupted entries has grown by [n] copies of the login, and no record
    exists for it. *)
Theorem add_unresolved_lists_login_every_time u A F S self n :
  developers self !! NamedUser.login u = None ->
  NamedUser.profile u = Raise UnknownObjectException ->
  let self' := Nat.iter n (fun s => state_of (add u A F S s)) self in
  corrupted_user_names self'
    = corrupted_user_names self ++ replicate n (NamedUser.login u)
  /\ developers self' = developers self.
Proof.
  intros Hd Hp. cbv zeta. induction n as [|n [IHc IHd]];
    [|rewrite Nat.iter_succ].
  - cbn. rewrite app_nil_r. auto.
  - rewrite add_fresh_raise with (e := UnknownObjectException);
      [|rewrite IHd; exact Hd|exact Hp].
    rewrite decide_True by reflexivity. unfold state_of at 1 3. cbn [fst].
    cbn [corrupted_user_names developers set_corrupted_user_names].
    split; [|exact IHd]. rewrite IHc, <- app_assoc. f_equal.
    change [NamedUser.login u] with (replicate 1 (NamedUser.login u)).
    rewrite <- replicate_add. f_equal. lia.
Qed.

Lemma add_unresolved_lists_login_every_time_witness :
  corrupted_user_names
    (Nat.iter 3 (fun s => state_of (add ghost {["a/b"]} ∅ ∅ s)) (init None))
  = [] ++ replicate 3 "ghost".
Proof.
  destruct (add_unresolved_lists_login_every_time ghost {["a/b"]} ∅ ∅ (init None) 3
              eq_refl eq_refl) as (H & _).
  exact H.
Defined.

(** X3: [add] is all or nothing: when it raises, the exception is not
    [UnknownObjectException] and the base is exactly as before the call. *)
Theorem add_raises_without_effect u A F S self e :
  result_of (add u A F S self) = Raise e ->
  e <> UnknownObjectException
  /\ NamedUser.profile u = Raise e
  /\ add u A F S self = (self, [], Raise e).
Proof.
  destruct (developers self !! NamedUser.login u) as [d|] eqn:Hd.
  - rewrite (add_known _ _ _ _ _ _ Hd). discriminate.
  - destruct (NamedUser.profile u) as [p|e'] eqn:Hp.
    + rewrite (add_fresh _ _ _ _ _ _ Hd Hp). discriminate.
    + rewrite (add_fresh_raise _ _ _ _ _ _ Hd Hp).
      destruct (decide (e' = UnknownObjectException)); [discriminate|].
      unfold result_of. cbn. intros [= <-]. auto.
Qed.

Lemma add_raises_without_effect_witness :
  add throttled {["a/b"]} ∅ ∅ base_with_bob
  = (base_with_bob, [], Raise RateLimitExceededException).
Proof.
  destruct (add_raises_without_effect throttled {["a/b"]} ∅ ∅ base_with_bob
              RateLimitExceededException) as (_ & _ & H).
  - vm_compute. reflexivity.
  - exact H.
Defined.

Lemma add_file_path u A F S s : file_path (state_of (add u A F S s)) = file_path s.
Proof.
  destruct (developers s !! NamedUser.login u) as [d|] eqn:Hd.
  - rewrite (add_known _ _ _ _ _ _ Hd). reflexivity.
  - destruct (NamedUser.profile u) as [p|e] eqn:Hp.
    + rewrite (add_fresh _ _ _ _ _ _ Hd Hp). reflexivity.
    + rewrite (add_fresh_raise _ _ _ _ _ _ Hd Hp).
      destruct (decide (e = UnknownObjectException)); reflexivity.
Qed.

Lemma add_other_logins u A F S self l :
  l <> NamedUser.login u ->
  developers (state_of (add u A F S self)) !! l = developers self !! l.
Proof.
  intros Hl. destruct (developers self !! NamedUser.login u) as [d|] eqn:Hd.
  - rewrite (add_known _ _ _ _ _ _ Hd). unfold state_of. cbn.
    apply lookup_alter_ne. congruence.
  - destruct (NamedUser.profile u) as [p|e] eqn:Hp.
    + rewrite (add_fresh _ _ _ _ _ _ Hd Hp). unfold state_of. cbn.
      rewrite lookup_alter_ne, lookup_insert_ne by congruence. reflexivity.
    + rewrite (add_fresh_raise _ _ _ _ _ _ Hd Hp).
      destruct (decide (e = UnknownObjectException)); reflexivity.
Qed.

(** X4: [add] touches the record of its own login only: in every case the
    record stored under any other login is what it was, and so are the
    three completion sets and the path of the snapshot. *)
Theorem add_leaves_other_logins u A F S self l :
  l <> NamedUser.login u ->
  let self' := state_of (add u A F S self) in
  developers self' !! l = developers self !! l
  /\ (forall k, crawled_projects_for k self' = crawled_projects_for k self)
  /\ file_path self' = file_path self.
Proof.
  intros Hl. cbv zeta. split; [apply add_other_logins, Hl|].
  split; [|apply add_file_path]. destruct (add_run u A F S self) as (_ & _ & Hsets).
  exact Hsets.
Qed.

Lemma add_leaves_other_logins_witness :
  developers (state_of (add ghost {["a/b"]} ∅ ∅ base_with_bob)) !! "bob"
  = developers base_with_bob !! "bob".
Proof.
  destruct (add_leaves_other_logins ghost {["a/b"]} ∅ ∅ base_with_bob "bob")
    as (H & _).
  - discriminate.
  - exact H.
Defined.

(** X5: [len] counts the logins: an [add] makes it one larger exactly when
    the login was not a key and the profile resolved, and leaves it as it
    was in every other case. *)
Theorem len_after_add u A F St self :
  len (state_of (add u A F St self))
  = match developers self !! NamedUser.login u, NamedUser.profile u with
    | None, Return _ => S (len self)
    | _, _ => len self
    end.
Proof.
  unfold len. destruct (developers self !! NamedUser.login u) as [d|] eqn:Hd.
  - rewrite (add_known _ _ _ _ _ _ Hd). unfold state_of. cbn.
    rewrite <- !size_dom, dom_alter_L. reflexivity.
  - destruct (NamedUser.profile u) as [p|e] eqn:Hp.
    + rewrite (add_fresh _ _ _ _ _ _ Hd Hp). unfold state_of. cbn.
      rewrite <- size_dom, dom_alter_L, size_dom.
      apply map_size_insert_None. exact Hd.
    + rewrite (add_fresh_raise _ _ _ _ _ _ Hd Hp).
      destruct (decide (e = UnknownObjectException)); reflexivity.
Qed.

(** ** [get_all_projects] *)

Lemma fold_projects_elem (l : list (string * Developer.t)) :
  forall c s f,
    match
      fold_left
        (fun (acc : gset string * gset string * gset string)
             (kv : string * Developer.t) =>
           let '(contributed_to, stared, forked) := acc in
           let v := kv.2 in
           (contributed_to ∪ Developer.contributed_to v,
            stared ∪ Developer.stared v,
            forked ∪ Developer.forked v))
        l (c, s, f)
    with
    | (c', s', f') =>
        forall x,
          (x ∈ c' <-> x ∈ c \/ exists kv, kv ∈ l /\ x ∈ Developer.contributed_to kv.2)
          /\ (x ∈ s' <-> x ∈ s \/ exists kv, kv ∈ l /\ x ∈ Developer.stared kv.2)
          /\ (x ∈ f' <-> x ∈ f \/ exists kv, kv ∈ l /\ x ∈ Developer.forked kv.2)
    end.
Proof.
  induction l as [|kv l IH]; intros c s f; cbn [fold_left].
  - intros x. repeat split; try tauto; intros [H|(kv & Hin & _)]; try exact H;
      inversion Hin.
  - specialize (IH (c ∪ Developer.contributed_to kv.2) (s ∪ Developer.stared kv.2)
                  (f ∪ Developer.forked kv.2)).
    destruct (fold_left _ l _) as [[c' s'] f']. intros x.
    destruct (IH x) as (Hc & Hs & Hf). rewrite Hc, Hs, Hf, !elem_of_union.
    repeat split.
    + intros [[H|H]|(kv' & Hin & H)]; [tauto| |].
      * right. exists kv. split; [apply elem_of_cons; tauto|exact H].
      * right. exists kv'. split; [apply elem_of_cons; tauto|exact H].
    + intros [H|(kv' & Hin & H)]; [tauto|].
      apply elem_of_cons in Hin as [->|Hin]; [tauto|]. right. eauto.
    + intros [[H|H]|(kv' & Hin & H)]; [tauto| |].
      * right. exists kv. split; [apply elem_of_cons; tauto|exact H].
      * right. exists kv'. split; [apply elem_of_cons; tauto|exact H].
    + intros [H|(kv' & Hin & H)]; [tauto|].
      apply elem_of_cons in Hin as [->|Hin]; [tauto|]. right. eauto.
    + intros [[H|H]|(kv' & Hin & H)]; [tauto| |].
      * right. exists kv. split; [apply elem_of_cons; tauto|exact H].
      * right. exists kv'. split; [apply elem_of_cons; tauto|exact H].
    + intros [H|(kv' & Hin & H)]; [tauto|].
      apply elem_of_cons in Hin as [->|Hin]; [tauto|]. right. eauto.
Qed.

Lemma get_all_projects_elem self p :
  p ∈ get_all_projects self
  <-> exists l d k, developers self !! l = Some d /\ p ∈ related k d.
Proof.
  unfold get_all_projects.
  pose proof (fold_projects_elem (map_to_list (developers self)) ∅ ∅ ∅) as H.
  destruct (fold_left _ _ _) as [[c s] f]. destruct (H p) as (Hc & Hs & Hf).
  rewrite !elem_of_union, Hc, Hs, Hf. split.
  - intros [[[H0|([l d] & Hin & Hp)]|[H0|([l d] & Hin & Hp)]]
           |[H0|([l d] & Hin & Hp)]];
      try (apply not_elem_of_empty in H0; contradiction);
      apply elem_of_map_to_list in Hin.
    + exists l, d, Contributors. auto.
    + exists l, d, Stargazers. auto.
    + exists l, d, Forkers. auto.
  - intros (l & d & k & Hd & Hp). apply elem_of_map_to_list in Hd.
    destruct k; cbn in Hp.
    + left. left. right. exists (l, d). auto.
    + left. right. right. exists (l, d). auto.
    + right. right. exists (l, d). auto.
Qed.

(** X6: [get_all_projects] returns exactly the repositories that occur in
    one of the three sets stored for some login; so it is empty for a base
    without developers, whatever the completion sets of the base hold. *)
Theorem get_all_projects_spec self :
  (forall p, p ∈ get_all_projects self <-> exists l k, p ∈ related_of k l self)
  /\ (developers self = ∅ -> get_all_projects self = ∅).
Proof.
  assert (H : forall p,
            p ∈ get_all_projects self <-> exists l k, p ∈ related_of k l self).
  { intros p. rewrite get_all_projects_elem. unfold related_of. split.
    - intros (l & d & k & Hd & Hp). exists l, k. rewrite Hd. exact Hp.
    - intros (l & k & Hp). destruct (developers self !! l) as [d|] eqn:Hd.
      + exists l, d, k. auto.
      + apply not_elem_of_empty in Hp. contradiction. }
  split; [exact H|]. intros Hempty. apply set_eq. intros p. rewrite H. split.
  - intros (l & k & Hp). unfold related_of in Hp.
    rewrite Hempty, lookup_empty in Hp. exact Hp.
  - intros Hp. apply not_elem_of_empty in Hp. contradiction.
Qed.

(** X7: what an [add] does to [get_all_projects]: when the user is
    recorded (the login is a key, or the profile resolves) the repositories
    of the three sets supplied are added; when the account cannot be
    resolved or the call raises, nothing changes. *)
Theorem get_all_projects_after_add u A F St self :
  get_all_projects (state_of (add u A F St self))
  = match developers self !! NamedUser.login u, NamedUser.profile u with
    | None, Raise _ => get_all_projects self
    | _, _ => get_all_projects self ∪ (A ∪ F ∪ St)
    end.
Proof.
  assert (Hrec : forall d0 self',
    developers self' !! NamedUser.login u = Some (Developer.update A F St d0) ->
    (forall k, related k d0 ⊆ get_all_projects self) ->
    (forall d, developers self !! NamedUser.login u = Some d -> d = d0) ->
    (forall l, l <> NamedUser.login u -> developers self' !! l = developers self !! l) ->
    get_all_projects self' = get_all_projects self ∪ (A ∪ F ∪ St)).
  { intros d0 self' Hown Hd0 Hold Hother. apply set_eq. intros p.
    rewrite elem_of_union, !get_all_projects_elem. split.
    - intros (l & d & k & Hd & Hp).
      destruct (decide (l = NamedUser.login u)) as [->|Hne].
      + rewrite Hown in Hd. injection Hd as <-. rewrite related_update in Hp.
        apply elem_of_union in Hp as [Hp|Hp].
        * left. apply get_all_projects_elem, (Hd0 k), Hp.
        * right. destruct k; rewrite !elem_of_union; tauto.
      + left. rewrite (Hother l Hne) in Hd. eauto.
    - intros [(l & d & k & Hd & Hp)|Hp].
      + destruct (decide (l = NamedUser.login u)) as [->|Hne].
        * rewrite (Hold d Hd) in Hp. exists (NamedUser.login u), (Developer.update A F St d0), k.
          split; [exact Hown|]. rewrite related_update. apply elem_of_union_l, Hp.
        * exists l, d, k. rewrite (Hother l Hne). auto.
      + rewrite !elem_of_union in Hp.
        destruct Hp as [[Hp|Hp]|Hp];
          [exists (NamedUser.login u), (Developer.update A F St d0), Contributors
          |exists (NamedUser.login u), (Developer.update A F St d0), Forkers
          |exists (NamedUser.login u), (Developer.update A F St d0), Stargazers];
          (split; [exact Hown|]); rewrite related_update; apply elem_of_union_r, Hp. }
  destruct (developers self !! NamedUser.login u) as [d|] eqn:Hd.
  - assert (Hres : get_all_projects (state_of (add u A F St self))
                   = get_all_projects self ∪ (A ∪ F ∪ St)).
    { apply (Hrec d).
      - rewrite (add_known _ _ _ _ _ _ Hd). unfold state_of. cbn.
        rewrite lookup_alter_eq, Hd. reflexivity.
      - intros k p Hp. apply get_all_projects_elem. eauto.
      - intros d' [= ->]. reflexivity.
      - intros l Hl. apply add_other_logins. exact Hl. }
    destruct (NamedUser.profile u); exact Hres.
  - destruct (NamedUser.profile u) as [p|e] eqn:Hp.
    + apply (Hrec (new_record (NamedUser.login u) p)).
      * rewrite (add_fresh _ _ _ _ _ _ Hd Hp). unfold state_of. cbn.
        rewrite lookup_alter_eq, lookup_insert_eq. reflexivity.
      * intros k x Hx. destruct k; cbn in Hx; apply not_elem_of_empty in Hx;
          contradiction.
      * intros d' Hd'. discriminate Hd'.
      * intros l Hl. apply add_other_logins. exact Hl.
    + rewrite (add_fresh_raise _ _ _ _ _ _ Hd Hp).
      destruct (decide (e = UnknownObjectException)); reflexivity.
Qed.

(** ** More on [rank_developers] *)

#[global] Instance ranks_before_transitive : Transitive ranks_before.
Proof. intros a b c. unfold ranks_before. lia. Qed.

#[global] Instance ranks_before_total : Total ranks_before.
Proof. intros a b. unfold ranks_before. lia. Qed.

Lemma StronglySorted_lookup_lt {A : Type} (R : relation A) (l : list A) i j x y :
  StronglySorted R l -> i < j -> l !! i = Some x -> l !! j = Some y -> R x y.
Proof.
  intros Hsorted. revert i j. induction Hsorted as [|a l Hsorted IH Hall];
    intros i j Hij Hi Hj.
  - rewrite lookup_nil in Hi. discriminate.
  - destruct j as [|j]; [lia|]. cbn in Hj. destruct i as [|i].
    + cbn in Hi. injection Hi as <-. rewrite Forall_forall in Hall.
      apply Hall. eapply list_elem_of_lookup_2. exact Hj.
    + cbn in Hi. apply (IH i j); [lia|assumption|assumption].
Qed.

(** X8: the ranked table is in descending order of score: a row with a
    strictly higher score stands before every row with a lower one. *)
Theorem rank_developers_higher_score_first
  score_contributed score_forked score_stared exclude self rows i j r1 r2 :
  rank_developers score_contributed score_forked score_stared exclude self
    = Return rows ->
  rows !! i = Some r1 ->
  rows !! j = Some r2 ->
  (score r2 < score r1)%Z ->
  i < j.
Proof.
  unfold rank_developers. case_bool_decide; [discriminate|]. intros [= <-] Hi Hj Hlt.
  set (rows := merge_sort ranks_before _) in *.
  assert (Hsorted : StronglySorted ranks_before rows)
    by (apply StronglySorted_merge_sort; apply _).
  destruct (Nat.lt_trichotomy i j) as [Hij|[->|Hji]]; [exact Hij| |].
  - rewrite Hi in Hj. injection Hj as <-. lia.
  - pose proof (StronglySorted_lookup_lt _ _ _ _ _ _ Hsorted Hji Hj Hi) as Hle.
    unfold ranks_before in Hle. lia.
Qed.

Lemma rank_developers_higher_score_first_witness : 0 < 1.
Proof.
  eapply (rank_developers_higher_score_first 5 2 1 false base_of_two _ 0 1).
  - vm_compute. reflexivity.
  - reflexivity.
  - reflexivity.
  - vm_compute. reflexivity.
Defined.

(** X9: without the exclusion, on a base with at least one developer, the
    ranked table has one row per developer: as many rows as [len] counts,
    and a row for every login with the record stored under it. *)
Theorem rank_developers_keeps_everyone
  score_contributed score_forked score_stared self :
  developers self <> ∅ ->
  exists rows,
    rank_developers score_contributed score_forked score_stared false self
      = Return rows
    /\ length rows = len self
    /\ (forall l d, developers self !! l = Some d <->
          exists r, r ∈ rows /\ index r = l /\ row r = d).
Proof.
  intros Hne.
  destruct (rank_developers score_contributed score_forked score_stared false self)
    as [rows|e] eqn:Hrank.
  - exists rows. split; [reflexivity|]. split.
    + unfold rank_developers in Hrank. case_bool_decide; [discriminate|].
      injection Hrank as <-.
      rewrite merge_sort_Permutation, length_map. apply length_map_to_list.
    + pose proof (rank_developers_rows _ _ _ _ _ _ Hrank) as Hrows.
      intros l d. split.
      * intros Hd.
        exists {| index := l; row := d;
                  score := (score_contributed * Z.of_nat (size (Developer.contributed_to d))
                            + score_forked * Z.of_nat (size (Developer.forked d))
                            + score_stared * Z.of_nat (size (Developer.stared d)))%Z |}.
        split; [|split; reflexivity]. apply Hrows. cbn. split; [exact Hd|].
        split; [discriminate|reflexivity].
      * intros (r & Hin & <- & <-). apply Hrows in Hin as (Hd & _). exact Hd.
  - exfalso. unfold rank_developers in Hrank.
    case_bool_decide as Hempty; [|discriminate].
    apply map_to_list_empty_iff in Hempty. contradiction.
Qed.

Lemma rank_developers_keeps_everyone_witness :
  exists rows,
    rank_developers 5 2 1 false base_of_two = Return rows /\ length rows = 2.
Proof.
  assert (Hne : developers base_of_two <> ∅).
  { intros Hempty.
    assert (Hbob : developers base_of_two !! "bob" = None)
      by (rewrite Hempty; apply lookup_empty).
    vm_compute in Hbob. discriminate Hbob. }
  destruct (rank_developers_keeps_everyone 5 2 1 base_of_two Hne)
    as (rows & Hrank & Hlen & _).
  exists rows. split; [exact Hrank|]. rewrite Hlen. vm_compute. reflexivity.
Defined.

(** ** More on the three crawl operations *)

Lemma fork_step_return repo dt fork b s b' :
  result_of (fork_step repo dt fork b s) = Return b' ->
  b' = b ++ [Fork.full_name fork]
  /\ trace_of (fork_step repo dt fork b s) = [EvSleep dt].
Proof.
  unfold fork_step, bind, ret, sleep, emit, raise.
  destruct (add_run (Fork.owner fork) ∅ {[Repository.full_name repo]} ∅ s)
    as (Htr & _).
  destruct (add _ _ _ _ s) as [[s1 tr1] [[]|e]]; [|discriminate].
  unfold trace_of in Htr. cbn in Htr. subst tr1.
  destruct (is_negative dt); [discriminate|].
  unfold result_of, trace_of. cbn. intros [= <-]. auto.
Qed.

Lemma for_each_fork_step_return repo dt items :
  forall acc s l,
    result_of (for_each items acc (fork_step repo dt) s) = Return l ->
    exists forks,
      items = List.map Return forks
      /\ l = acc ++ List.map Fork.full_name forks
      /\ trace_of (for_each items acc (fork_step repo dt) s)
         = replicate (length forks) (EvSleep dt).
Proof.
  induction items as [|[fork|e] items IH]; intros acc s l; cbn [for_each].
  - unfold ret, result_of, trace_of. cbn. intros [= <-]. exists [].
    rewrite app_nil_r. auto.
  - intros H. pose proof H as H'.
    apply bind_return_inv in H' as (acc1 & Hstep & Hrest & _).
    destruct (fork_step_return _ _ _ _ _ _ Hstep) as (-> & Htr).
    destruct (IH _ _ _ Hrest) as (forks & -> & -> & Htr').
    exists (fork :: forks). split; [reflexivity|]. split.
    + cbn. rewrite <- app_assoc. reflexivity.
    + unfold bind, trace_of, result_of in *.
      destruct (fork_step repo dt fork acc s) as [[s1 tr1] r1]. cbn in *.
      subst r1 tr1.
      destruct (for_each _ _ _ s1) as [[s2 tr2] r2]. cbn in *. subst tr2.
      reflexivity.
  - unfold raise, result_of. cbn. discriminate.
Qed.

(** X11: when [add_forkers] crawls a repository (it is not in the
    completion set) and returns, the iteration has yielded every fork
    without an exception, the list returned holds the full names of the
    forks in the order of the listing, and the events are the request of
    the listing followed by one sleep of [dt] per fork. *)
Theorem add_forkers_returns_fork_names repo dt self l :
  Repository.full_name repo ∉ crawled_projects_for_forkers self ->
  result_of (add_forkers repo dt self) = Return l ->
  exists forks,
    pages (Repository.get_forks repo) = List.map Return forks
    /\ l = List.map Fork.full_name forks
    /\ trace_of (add_forkers repo dt self)
       = EvFetch Forkers (Repository.full_name repo)
         :: replicate (length forks) (EvSleep dt).
Proof.
  intros Hout. rewrite add_forkers_run, bool_decide_eq_false_2 by exact Hout.
  unfold listing_run. destruct (totalCount _) as [n|e]; [|discriminate].
  pose proof (for_each_fork_step_return repo dt (pages (Repository.get_forks repo))
                [] self) as Hloop.
  destruct (for_each _ _ _ self) as [[s1 tr1] [l1|e]]; [|discriminate].
  unfold result_of, trace_of in *. cbn in *. intros [= <-].
  destruct (Hloop l1 eq_refl) as (forks & Hpages & Hl & Htr).
  exists forks. subst tr1. auto.
Qed.

Lemma add_forkers_returns_fork_names_witness :
  exists forks,
    pages (Repository.get_forks repo_with_forks) = List.map Return forks
    /\ ["bob/b"; "blank/b"] = List.map Fork.full_name forks.
Proof.
  destruct (add_forkers_returns_fork_names repo_with_forks (Float 0) (init None)
              ["bob/b"; "blank/b"]) as (forks & H1 & H2 & _).
  - apply not_elem_of_empty.
  - vm_compute. reflexivity.
  - exists forks. auto.
Defined.

Lemma related_of_add u A F S s k l :
  match k with Contributors => A | Stargazers => S | Forkers => F end = ∅ ->
  related_of k l (state_of (add u A F S s)) = related_of k l s.
Proof.
  intros Hempty. unfold related_of.
  destruct (decide (l = NamedUser.login u)) as [->|Hne].
  - destruct (developers s !! NamedUser.login u) as [d|] eqn:Hd.
    + rewrite (add_known _ _ _ _ _ _ Hd). unfold state_of. cbn.
      rewrite lookup_alter_eq, Hd. cbn. rewrite related_update, Hempty.
      apply (right_id_L ∅ (∪)).
    + destruct (NamedUser.profile u) as [p|e] eqn:Hp.
      * rewrite (add_fresh _ _ _ _ _ _ Hd Hp). unfold state_of. cbn.
        rewrite lookup_alter_eq, lookup_insert_eq. cbn.
        rewrite related_update, Hempty. destruct k; cbn; apply (right_id_L ∅ (∪)).
      * rewrite (add_fresh_raise _ _ _ _ _ _ Hd Hp).
        destruct (decide (e = UnknownObjectException)); unfold state_of; cbn;
          rewrite Hd; reflexivity.
  - rewrite (add_other_logins u A F S s l Hne). reflexivity.
Qed.

#[global] Instance touches_only_composable k : Composable (touches_only k).
Proof.
  split.
  - intros s l k' _. reflexivity.
  - intros s1 tr1 s2 tr2 s3 H1 H2 l k' Hk. rewrite (H2 l k' Hk). apply H1, Hk.
Qed.

Lemma touches_only_same k tr s s' :
  developers s' = developers s -> touches_only k s tr s'.
Proof. intros Hd l k' _. unfold related_of. rewrite Hd. reflexivity. Qed.

Lemma tqdm_touches_only {A : Type} k (l : PaginatedList A) :
  guarantees (tqdm l) (touches_only k).
Proof.
  intros s. unfold holds_at, tqdm, bind, lift, ret.
  destruct (totalCount l); apply touches_only_same; reflexivity.
Qed.

Lemma sleep_touches_only k dt : guarantees (sleep dt) (touches_only k).
Proof.
  intros s. unfold holds_at. rewrite sleep_state. apply touches_only_same.
  reflexivity.
Qed.

(** X12: a crawl operation changes the sets of its own relation kind only:
    whatever the listing holds and however the operation ends, the two
    other sets of every login are what they were before (empty for a login
    that had no record). *)
Theorem crawl_kind_touches_only_its_kind k repo dt self l k' :
  k' <> k ->
  related_of k' l (state_of (crawl_kind k repo dt self)) = related_of k' l self.
Proof.
  intros Hk.
  assert (Hmark : forall k0 n, guarantees (modify (mark_crawled k0 n)) (touches_only k)).
  { intros k0 n s. apply touches_only_same. reflexivity. }
  assert (Hemit : forall ev, guarantees (emit ev) (touches_only k)).
  { intros ev s. apply touches_only_same. reflexivity. }
  assert (H : guarantees (crawl_kind k repo dt) (touches_only k)).
  { destruct k; unfold crawl_kind.
    - unfold add_contributors.
      apply guarantees_bind; [apply _|apply guarantees_get; apply _|intros s0].
      destruct (bool_decide _); [apply guarantees_ret; apply _|].
      apply guarantees_bind; [apply _|apply Hemit|intros _].
      apply guarantees_bind; [apply _|apply tqdm_touches_only|intros items].
      apply guarantees_bind; [apply _| |intros _; apply Hmark].
      apply guarantees_for_each; [apply _|]. intros u _.
      apply guarantees_bind; [apply _| |intros _; apply sleep_touches_only].
      intros s l0 k0 Hk0. apply related_of_add. destruct k0; [contradiction|..];
        reflexivity.
    - unfold add_stargazers.
      apply guarantees_bind; [apply _|apply guarantees_get; apply _|intros s0].
      destruct (bool_decide _); [apply guarantees_ret; apply _|].
      apply guarantees_bind; [apply _|apply Hemit|intros _].
      apply guarantees_bind; [apply _|apply tqdm_touches_only|intros items].
      apply guarantees_bind; [apply _| |intros _; apply Hmark].
      apply guarantees_for_each; [apply _|]. intros u _.
      apply guarantees_bind; [apply _| |intros _; apply sleep_touches_only].
      intros s l0 k0 Hk0. apply related_of_add. destruct k0; [|contradiction|];
        reflexivity.
    - apply guarantees_bind; [apply _| |intros _; apply guarantees_ret; apply _].
      unfold add_forkers.
      apply guarantees_bind; [apply _|apply guarantees_get; apply _|intros s0].
      destruct (bool_decide _); [apply guarantees_ret; apply _|].
      apply guarantees_bind; [apply _|apply Hemit|intros _].
      apply guarantees_bind; [apply _|apply tqdm_touches_only|intros items].
      apply guarantees_bind; [apply _| |intros fp].
      + apply guarantees_for_each; [apply _|]. intros fork fp.
        apply guarantees_bind; [apply _| |intros _].
        * intros s l0 k0 Hk0. apply related_of_add. destruct k0; [..|contradiction];
            reflexivity.
        * apply guarantees_bind; [apply _|apply sleep_touches_only|intros _].
          apply guarantees_ret. apply _.
      + apply guarantees_bind; [apply _|apply Hmark|intros _].
        apply guarantees_ret. apply _. }
  apply (H self l k' Hk).
Qed.

Lemma crawl_kind_touches_only_its_kind_witness :
  related_of Stargazers "bob"
    (state_of (crawl_kind Contributors (repo_of_bob "a/b") (Float 0) (init None)))
  = related_of Stargazers "bob" (init None).
Proof.
  apply crawl_kind_touches_only_its_kind. discriminate.
Defined.

Lemma listing_run_marks {A B : Type} k n (l : PaginatedList A) acc
  (body : A -> B -> M DeveloperBase B) s b :
  result_of (listing_run k n l acc body s) = Return b ->
  n ∈ crawled_projects_for k (state_of (listing_run k n l acc body s)).
Proof.
  unfold listing_run. destruct (totalCount l); [|discriminate].
  destruct (for_each _ _ _ s) as [[s1 tr1] [b1|e]]; [|discriminate].
  intros _. unfold state_of. cbn [fst].
  destruct k; cbn; apply elem_of_union_r, elem_of_singleton; reflexivity.
Qed.

(** X13: a crawl operation that has returned is not run again: the
    repository is in the completion set of the kind afterwards, and the
    same operation on the base it left returns at once, with no event and
    no change. *)
Theorem crawl_kind_again_does_nothing k repo dt self :
  result_of (crawl_kind k repo dt self) = Return tt ->
  let self' := state_of (crawl_kind k repo dt self) in
  Repository.full_name repo ∈ crawled_projects_for k self'
  /\ crawl_kind k repo dt self' = (self', [], Return tt).
Proof.
  intros Hret. cbv zeta.
  assert (Hin : Repository.full_name repo
                ∈ crawled_projects_for k (state_of (crawl_kind k repo dt self))).
  { destruct k; unfold crawl_kind in *.
    - rewrite add_contributors_run in *. case_bool_decide as Hgate; [exact Hgate|].
      eapply listing_run_marks. exact Hret.
    - rewrite add_stargazers_run in *. case_bool_decide as Hgate; [exact Hgate|].
      eapply listing_run_marks. exact Hret.
    - destruct (bind_ret_tt_run (add_forkers repo dt) self) as (Hst & _ & Hres).
      rewrite Hst. rewrite Hres in Hret. clear Hst Hres.
      rewrite add_forkers_run in *. case_bool_decide as Hgate; [exact Hgate|].
      destruct (result_of (listing_run _ _ _ _ _ _)) as [l|e] eqn:Hl;
        [|discriminate]. eapply listing_run_marks. exact Hl. }
  split; [exact Hin|].
  set (self' := state_of _) in *. clearbody self'.
  destruct k; unfold crawl_kind; cbn [crawled_projects_for] in Hin.
  - rewrite add_contributors_run, bool_decide_eq_true_2 by exact Hin. reflexivity.
  - rewrite add_stargazers_run, bool_decide_eq_true_2 by exact Hin. reflexivity.
  - unfold bind. rewrite add_forkers_run, bool_decide_eq_true_2 by exact Hin.
    reflexivity.
Qed.

Lemma crawl_kind_again_does_nothing_witness :
  let self' := state_of (crawl_kind Contributors repo_of_ghost (Float 0) (init None)) in
  crawl_kind Contributors repo_of_ghost (Float 0) self' = (self', [], Return tt).
Proof.
  destruct (crawl_kind_again_does_nothing Contributors repo_of_ghost (Float 0)
              (init None)) as (_ & H).
  - vm_compute. reflexivity.
  - exact H.
Defined.

(** ** Rules for the crawl operations and the stages *)

(** A relation that holds of [add], of the sleep between records, of the
    request of a listing and of the update of a completion set holds of the
    three crawl operations. *)
Lemma crawl_operations_guarantee
  (R : DeveloperBase -> list event -> DeveloperBase -> Prop) `{!Composable R} dt :
  (forall u A F S, guarantees (add u A F S) R) ->
  guarantees (sleep dt) R ->
  (forall k n s, R s [EvFetch k n] s) ->
  (forall k n s, R s [] (mark_crawled k n s)) ->
  forall repo,
    guarantees (add_contributors repo dt) R
    /\ guarantees (add_stargazers repo dt) R
    /\ guarantees (add_forkers repo dt) R.
Proof.
  intros Hadd Hsleep Hfetch Hmark repo.
  assert (Htqdm : forall A (l : PaginatedList A), guarantees (tqdm l) R).
  { intros A l. apply guarantees_bind; [apply _|apply guarantees_lift; apply _|].
    intros _. apply guarantees_ret. apply _. }
  split; [|split].
  - unfold add_contributors.
    apply guarantees_bind; [apply _|apply guarantees_get; apply _|intros s0].
    destruct (bool_decide _); [apply guarantees_ret; apply _|].
    apply guarantees_bind; [apply _|intros s; apply Hfetch|intros _].
    apply guarantees_bind; [apply _|apply Htqdm|intros items].
    apply guarantees_bind; [apply _| |intros _; intros s; apply Hmark].
    apply guarantees_for_each; [apply _|]. intros u _.
    apply guarantees_bind; [apply _|apply Hadd|intros _; apply Hsleep].
  - unfold add_stargazers.
    apply guarantees_bind; [apply _|apply guarantees_get; apply _|intros s0].
    destruct (bool_decide _); [apply guarantees_ret; apply _|].
    apply guarantees_bind; [apply _|intros s; apply Hfetch|intros _].
    apply guarantees_bind; [apply _|apply Htqdm|intros items].
    apply guarantees_bind; [apply _| |intros _; intros s; apply Hmark].
    apply guarantees_for_each; [apply _|]. intros u _.
    apply guarantees_bind; [apply _|apply Hadd|intros _; apply Hsleep].
  - unfold add_forkers.
    apply guarantees_bind; [apply _|apply guarantees_get; apply _|intros s0].
    destruct (bool_decide _); [apply guarantees_ret; apply _|].
    apply guarantees_bind; [apply _|intros s; apply Hfetch|intros _].
    apply guarantees_bind; [apply _|apply Htqdm|intros items].
    apply guarantees_bind; [apply _| |intros fp].
    + apply guarantees_for_each; [apply _|]. intros fork fp.
      apply guarantees_bind; [apply _|apply Hadd|intros _].
      apply guarantees_bind; [apply _|apply Hsleep|intros _].
      apply guarantees_ret. apply _.
    + apply guarantees_bind; [apply _|intros s; apply Hmark|intros _].
      apply guarantees_ret. apply _.
Qed.

#[global] Instance method_step_composable dt : Composable (method_step dt).
Proof.
  split.
  - intros s. split; [reflexivity|]. split; [reflexivity|constructor].
  - intros s1 tr1 s2 tr2 s3 (Hg & Hp & Ht) (Hg' & Hp' & Ht').
    split; [etrans; eassumption|]. split; [congruence|].
    apply Forall_app. split.
    + eapply Forall_impl; [exact Ht|]. intros [] H; try exact H.
      destruct H as (H1 & H2 & H3). split; [exact H1|]. split; [exact H2|].
      etrans; eassumption.
    + eapply Forall_impl; [exact Ht'|]. intros [] H; try exact H.
      destruct H as (H1 & H2 & H3). split; [congruence|]. split; [|exact H3].
      etrans; eassumption.
Qed.

Lemma method_step_quiet dt s tr s' :
  grows s s' -> file_path s' = file_path s ->
  Forall (fun ev => match ev with
                    | EvFetch _ _ | EvStatus _ _ _ _ _ => True
                    | _ => False
                    end) tr ->
  method_step dt s tr s'.
Proof.
  intros Hg Hp Ht. split; [exact Hg|]. split; [exact Hp|].
  eapply Forall_impl; [exact Ht|]. intros [] H; try exact H; destruct H.
Qed.

Lemma crawl_operations_method_step dt repo :
  guarantees (add_contributors repo dt) (method_step dt)
  /\ guarantees (add_stargazers repo dt) (method_step dt)
  /\ guarantees (add_forkers repo dt) (method_step dt).
Proof.
  apply crawl_operations_guarantee; [apply _|..].
  - intros u A F S s. unfold holds_at.
    destruct (add_run u A F S s) as (-> & Hg & _).
    apply method_step_quiet; [exact Hg|apply add_file_path|constructor].
  - intros s. unfold holds_at. rewrite sleep_state.
    split; [reflexivity|]. split; [reflexivity|].
    eapply Forall_impl; [apply sleep_trace|]. intros ev ->. reflexivity.
  - intros k n s. apply method_step_quiet; [reflexivity|reflexivity|].
    repeat constructor.
  - intros k n s. apply method_step_quiet; [apply grows_mark_crawled| |constructor].
    reflexivity.
Qed.

Lemma save_method_step dt : guarantees save (method_step dt).
Proof.
  intros s. unfold holds_at, save, bind, get, emit, ret.
  destruct (file_path s) as [p|] eqn:Hp; [|apply composable_nil].
  case_bool_decide; [apply composable_nil|].
  unfold trace_of, state_of. cbn. split; [reflexivity|]. split; [reflexivity|].
  constructor; [|constructor]. split; [symmetry; exact Hp|]. split; reflexivity.
Qed.

Lemma print_status_method_step dt r : guarantees (print_status r) (method_step dt).
Proof.
  intros s. unfold holds_at, print_status, bind, get, emit.
  apply method_step_quiet; [reflexivity|reflexivity|repeat constructor].
Qed.

(** From the methods to the stages: a relation on frames that holds of
    every method call, of the request of the project and of the assignment
    to [forked_projects] holds of [crawl_relations]. *)
Lemma crawl_relations_guarantee
  (RD : DeveloperBase -> list event -> DeveloperBase -> Prop)
  (RF : Frame -> list event -> Frame -> Prop) `{!Composable RF}
  G ignore_contributors ignore_forkers ignore_stargazers tick dt project :
  (forall fr tr s', RD (self fr) tr s' -> RF fr tr (set_self s' fr)) ->
  (forall repo,
     guarantees (add_contributors repo dt) RD
     /\ guarantees (add_stargazers repo dt) RD
     /\ guarantees (add_forkers repo dt) RD) ->
  guarantees save RD ->
  (forall r, guarantees (print_status r) RD) ->
  (forall fr, RF fr [EvGetRepo project] fr) ->
  (forall fr l, RF fr [] (set_forked_projects l fr)) ->
  guarantees
    (crawl_relations G ignore_contributors ignore_forkers ignore_stargazers
       tick dt project) RF.
Proof.
  intros Hlift Hops Hsave Hstatus Hrequest Hassign.
  assert (Hon : forall A (m : M DeveloperBase A),
            guarantees m RD -> guarantees (on_self m) RF).
  { intros A m. apply guarantees_on_self. exact Hlift. }
  assert (Hreport : guarantees report RF).
  { apply guarantees_bind; [apply _|apply guarantees_get; apply _|]. intros fr.
    apply Hon, Hstatus. }
  unfold crawl_relations.
  apply guarantees_bind; [apply _|intros fr; apply Hrequest|intros _].
  apply guarantees_bind; [apply _|apply guarantees_lift; apply _|intros repo].
  destruct (Hops repo) as (Hc & Hs & Hf).
  apply guarantees_bind; [apply _| |intros _].
  { apply guarantees_when; [apply _|].
    apply guarantees_bind; [apply _|apply Hon, Hc|intros _].
    apply guarantees_bind; [apply _|apply Hon, Hsave|intros _]. apply Hreport. }
  apply guarantees_bind; [apply _| |intros _].
  { apply guarantees_when; [apply _|].
    apply guarantees_bind; [apply _|apply Hon, Hs|intros _].
    apply guarantees_bind; [apply _|apply Hon, Hsave|intros _]. apply Hreport. }
  apply guarantees_when; [apply _|].
  apply guarantees_bind; [apply _|apply Hon, Hf|intros l].
  apply guarantees_bind; [apply _|intros fr; apply Hassign|intros _].
  apply guarantees_bind; [apply _|apply Hon, Hsave|intros _]. apply Hreport.
Qed.

(** ** Rules for the loop *)

Section Loop.
Variable G : Platform.
Variable dt : number.
Variables go_recursive ignore_contributors ignore_forkers ignore_stargazers : bool.
Context (RF : Frame -> list event -> Frame -> Prop) `{!Composable RF}.

Lemma loop_guarantee :
  (forall tick,
     guarantees (iteration G go_recursive ignore_contributors ignore_forkers
                   ignore_stargazers tick dt) RF) ->
  forall fuel tick fr,
    RF fr
      (trace_of (loop G go_recursive ignore_contributors ignore_forkers
                   ignore_stargazers fuel tick dt fr))
      (state_of (loop G go_recursive ignore_contributors ignore_forkers
                   ignore_stargazers fuel tick dt fr)).
Proof.
  intros Hit fuel. induction fuel as [|fuel IH]; intros tick fr; cbn [loop].
  - case_bool_decide; apply composable_nil.
  - case_bool_decide; [apply composable_nil|].
    pose proof (Hit tick fr) as Hstep. unfold holds_at in Hstep.
    destruct (iteration _ _ _ _ _ _ _ fr) as [[fr1 tr1] [[]|e]];
      unfold trace_of, state_of in *; cbn [fst snd] in *; [|exact Hstep].
    specialize (IH (S tick) fr1).
    destruct (loop _ _ _ _ _ _ _ _ fr1) as [[fr2 tr2] st]. cbn [fst snd] in *.
    eapply composable_app; eassumption.
Qed.

Lemma iteration_guarantee tick :
  (forall project,
     guarantees (crawl_project G go_recursive ignore_contributors ignore_forkers
                   ignore_stargazers tick dt project) RF) ->
  (forall project, guarantees (rate_limit_handler G tick project) RF) ->
  (forall fr project, RF fr [] (set_projects (fun ps => ps ∖ {[project]}) fr)) ->
  guarantees (iteration G go_recursive ignore_contributors ignore_forkers
                ignore_stargazers tick dt) RF.
Proof.
  intros Hcrawl Hhandler Hpop.
  apply guarantees_bind; [apply _|apply guarantees_get; apply _|intros fr].
  destruct (pop G tick (projects fr)) as [project|];
    [|apply guarantees_raise; apply _].
  apply guarantees_bind; [apply _|intros fr'; apply Hpop|intros _].
  apply guarantees_try_except; [apply _|apply Hcrawl|apply Hhandler].
Qed.
End Loop.

(** ** Snapshots *)

#[global] Instance saving_step_composable : Composable saving_step.
Proof.
  split.
  - intros fr. split; [reflexivity|]. split; [reflexivity|].
    intros path snapshot H. inversion H.
  - intros s1 tr1 s2 tr2 s3 (Hg & Hp & Hs) (Hg' & Hp' & Hs').
    split; [etrans; eassumption|]. split; [congruence|].
    intros path snapshot Hin. apply elem_of_app in Hin as [Hin|Hin].
    + destruct (Hs _ _ Hin) as (H1 & H2 & H3). split; [exact H1|].
      split; [exact H2|]. etrans; eassumption.
    + destruct (Hs' _ _ Hin) as (H1 & H2 & H3). split; [congruence|].
      split; [|exact H3]. etrans; eassumption.
Qed.

Lemma saving_step_quiet fr tr fr' :
  self fr' = self fr ->
  (forall path snapshot, EvSave path snapshot ∉ tr) ->
  saving_step fr tr fr'.
Proof.
  intros Hself Hq. unfold saving_step. rewrite Hself.
  split; [reflexivity|]. split; [reflexivity|].
  intros path snapshot Hin. destruct (Hq _ _ Hin).
Qed.

Section Saving.
Variable G : Platform.
Variable dt : number.
Variables go_recursive ignore_contributors ignore_forkers ignore_stargazers : bool.

Lemma crawl_project_saving_step tick project :
  guarantees
    (crawl_project G go_recursive ignore_contributors ignore_forkers
       ignore_stargazers tick dt project) saving_step.
Proof.
  apply guarantees_bind; [apply _| |intros _].
  - apply (crawl_relations_guarantee (method_step dt)); [apply _|..].
    + intros fr tr s' (Hg & Hp & Ht). split; [exact Hg|]. split; [exact Hp|].
      intros path snapshot Hin. rewrite Forall_forall in Ht.
      exact (Ht _ Hin).
    + apply crawl_operations_method_step.
    + apply save_method_step.
    + apply print_status_method_step.
    + intros fr. apply saving_step_quiet; [reflexivity|].
      intros path snapshot Hin. apply list_elem_of_singleton in Hin. discriminate Hin.
    + intros fr l. apply saving_step_quiet; [reflexivity|].
      intros path snapshot Hin. inversion Hin.
  - apply guarantees_when; [apply _|].
    apply guarantees_bind; [apply _| |intros l].
    + apply guarantees_bind; [apply _|apply guarantees_get; apply _|]. intros fr.
      destruct (forked_projects fr); [apply guarantees_ret|apply guarantees_raise];
        apply _.
    + intros fr. apply saving_step_quiet; [reflexivity|].
      intros path snapshot Hin. inversion Hin.
Qed.

Lemma rate_limit_handler_saving_step tick project :
  guarantees (rate_limit_handler G tick project) saving_step.
Proof.
  intros fr. unfold holds_at.
  destruct (rate_limit_handler_run G tick project fr) as (Hst & _). rewrite Hst.
  apply saving_step_quiet; [reflexivity|].
  intros path snapshot Hin.
  unfold rate_limit_handler, bind, modify, sleep, emit, raise, trace_of in Hin.
  destruct (is_negative _); cbn in Hin.
  - inversion Hin.
  - apply list_elem_of_singleton in Hin. discriminate Hin.
Qed.

Lemma loop_saving_step fuel tick fr :
  saving_step fr
    (trace_of (loop G go_recursive ignore_contributors ignore_forkers
                 ignore_stargazers fuel tick dt fr))
    (state_of (loop G go_recursive ignore_contributors ignore_forkers
                 ignore_stargazers fuel tick dt fr)).
Proof.
  apply loop_guarantee; [apply _|]. intros tick'.
  apply iteration_guarantee; [apply _|..].
  - intros project. apply crawl_project_saving_step.
  - intros project. apply rate_limit_handler_saving_step.
  - intros fr' project. apply saving_step_quiet; [reflexivity|].
    intros path snapshot Hin. inversion Hin.
Qed.
End Saving.

(** X14: a run of [find_developers] only adds to the base: however it
    ends, every record, every repository of a record, every corrupted login
    and every completed repository that the base had is still there, and
    the path of the snapshot is the same. Every snapshot written during the
    run goes to that path and holds a state of the base between the initial
    and the final one. *)
Theorem find_developers_only_adds
  G go_recursive ignore_contributors ignore_forkers ignore_stargazers
  ignore_rate_limiting fuel projects0 self0 :
  let res := find_developers G go_recursive ignore_contributors ignore_forkers
               ignore_stargazers ignore_rate_limiting fuel projects0 self0 in
  grows self0 (self (state_of res))
  /\ file_path (self (state_of res)) = file_path self0
  /\ forall path snapshot, EvSave path snapshot ∈ trace_of res ->
       file_path self0 = Some path
       /\ grows self0 snapshot
       /\ grows snapshot (self (state_of res)).
Proof.
  cbv zeta. unfold find_developers.
  destruct (loop_saving_step G (pacing_delay G ignore_rate_limiting) go_recursive
              ignore_contributors ignore_forkers ignore_stargazers fuel 0
              {| self := self0; projects := list_to_set projects0;
                 forked_projects := None |}) as (Hg & Hp & Hs).
  split; [exact Hg|]. split; [exact Hp|].
  intros path snapshot Hin. destruct (Hs _ _ Hin) as (H1 & H2 & H3).
  split; [symmetry; exact H1|]. split; [exact H2|exact H3].
Qed.

(** ** The projects of a crawl that is not recursive *)

#[global] Instance requests_within_composable X : Composable (requests_within X).
Proof.
  split.
  - intros fr Hsub. split; [exact Hsub|]. intros p H. inversion H.
  - intros s1 tr1 s2 tr2 s3 H1 H2 Hsub. destruct (H1 Hsub) as (Hsub2 & Hreq1).
    destruct (H2 Hsub2) as (Hsub3 & Hreq2). split; [exact Hsub3|].
    intros p Hin. apply elem_of_app in Hin as [Hin|Hin]; auto.
Qed.

Lemma rate_limit_handler_trace G tick project fr :
  Forall (fun ev => ev = EvSleep (Int (dt_wait G tick)))
    (trace_of (rate_limit_handler G tick project fr)).
Proof.
  unfold rate_limit_handler, bind, modify, trace_of.
  fold (dt_wait G tick).
  pose proof (sleep_trace (Int (dt_wait G tick))
                (set_projects (fun ps => ps ∪ {[project]}) fr)) as Hs.
  unfold trace_of in Hs.
  destruct (sleep _ _) as [[s2 tr2] r]. exact Hs.
Qed.

Section Listed.
Variable G : Platform.
Variable dt : number.
Variables ignore_contributors ignore_forkers ignore_stargazers : bool.
Variable X : gset string.

Lemma crawl_project_requests_within tick project :
  project ∈ X ->
  guarantees
    (crawl_project G false ignore_contributors ignore_forkers ignore_stargazers
       tick dt project) (requests_within X).
Proof.
  intros Hproject.
  apply guarantees_bind; [apply _| |intros _; apply guarantees_ret; apply _].
  apply (crawl_relations_guarantee (method_step dt)); [apply _|..].
  - intros fr tr s' (_ & _ & Ht) Hsub. split; [exact Hsub|].
    intros p Hin. rewrite Forall_forall in Ht. destruct (Ht _ Hin).
  - apply crawl_operations_method_step.
  - apply save_method_step.
  - apply print_status_method_step.
  - intros fr Hsub. split; [exact Hsub|]. intros p Hin.
    apply list_elem_of_singleton in Hin. injection Hin as ->. exact Hproject.
  - intros fr l Hsub. split; [exact Hsub|]. intros p Hin. inversion Hin.
Qed.

Lemma iteration_requests_within tick :
  guarantees
    (iteration G false ignore_contributors ignore_forkers ignore_stargazers tick dt)
    (requests_within X).
Proof.
  intros fr Hsub. rewrite iteration_run.
  destruct (pop G tick (projects fr)) as [project|] eqn:Hpop.
  - assert (Hproject : project ∈ X) by (apply Hsub; eapply pop_elem_of; exact Hpop).
    apply (guarantees_try_except (requests_within X)
             (crawl_project G false ignore_contributors ignore_forkers
                ignore_stargazers tick dt project)
             RateLimitExceededException (rate_limit_handler G tick project)).
    + apply crawl_project_requests_within. exact Hproject.
    + intros fr' Hsub'. destruct (rate_limit_handler_run G tick project fr')
        as (-> & _). split.
      * cbn. apply union_least; [exact Hsub'|]. apply singleton_subseteq_l.
        exact Hproject.
      * intros p Hin. pose proof (rate_limit_handler_trace G tick project fr') as Ht.
        rewrite Forall_forall in Ht. apply Ht in Hin. discriminate Hin.
    + cbn. etrans; [apply subseteq_difference_l; reflexivity|exact Hsub].
  - split; [exact Hsub|]. intros p Hin. inversion Hin.
Qed.
End Listed.

(** X15: a crawl that is not recursive stays within the list it was given:
    every project that it requests from the platform is one of the list,
    and so is every project left in the frontier, however the run ends. *)
Theorem non_recursive_crawl_requests_listed_projects_only
  G ignore_contributors ignore_forkers ignore_stargazers ignore_rate_limiting
  fuel projects0 self0 :
  let res := find_developers G false ignore_contributors ignore_forkers
               ignore_stargazers ignore_rate_limiting fuel projects0 self0 in
  (forall p, EvGetRepo p ∈ trace_of res -> p ∈ projects0)
  /\ (forall p, p ∈ projects (state_of res) -> p ∈ projects0).
Proof.
  cbv zeta. unfold find_developers.
  destruct (loop_guarantee G (pacing_delay G ignore_rate_limiting) false
              ignore_contributors ignore_forkers ignore_stargazers
              (requests_within (list_to_set projects0))
              (iteration_requests_within G (pacing_delay G ignore_rate_limiting)
                 ignore_contributors ignore_forkers ignore_stargazers
                 (list_to_set projects0))
              fuel 0
              {| self := self0; projects := list_to_set projects0;
                 forked_projects := None |}) as (Hsub & Hreq).
  { reflexivity. }
  split.
  - intros p Hin. apply (elem_of_list_to_set (C := gset string)).
    exact (Hreq p Hin).
  - intros p Hin. apply (elem_of_list_to_set (C := gset string)).
    exact (Hsub p Hin).
Qed.

(** ** How long a crawl that is not recursive runs *)

Lemma count_waits_app tr1 tr2 :
  count_waits (tr1 ++ tr2) = count_waits tr1 + count_waits tr2.
Proof. unfold count_waits. rewrite List.filter_app, length_app. reflexivity. Qed.

#[global] Instance keeps_frontier_composable : Composable keeps_frontier.
Proof.
  split.
  - intros fr. split; reflexivity.
  - intros s1 tr1 s2 tr2 s3 (Hp & Hw) (Hp' & Hw'). split; [congruence|].
    rewrite count_waits_app, Hw, Hw'. reflexivity.
Qed.

Lemma keeps_frontier_quiet fr tr fr' :
  projects fr' = projects fr ->
  Forall (fun ev => is_wait ev = false) tr ->
  keeps_frontier fr tr fr'.
Proof.
  intros Hp Ht. split; [exact Hp|]. unfold count_waits.
  induction Ht as [|ev tr Hev Ht IH]; [reflexivity|]. cbn. rewrite Hev. exact IH.
Qed.

Section Measure.
Variable G : Platform.
Variable f : float.
Variables ignore_contributors ignore_forkers ignore_stargazers : bool.

Lemma crawl_project_keeps_frontier tick project :
  guarantees
    (crawl_project G false ignore_contributors ignore_forkers ignore_stargazers
       tick (Float f) project) keeps_frontier.
Proof.
  apply guarantees_bind; [apply _| |intros _; apply guarantees_ret; apply _].
  apply (crawl_relations_guarantee (method_step (Float f))); [apply _|..].
  - intros fr tr s' (_ & _ & Ht). apply keeps_frontier_quiet; [reflexivity|].
    eapply Forall_impl; [exact Ht|]. intros [] H; try reflexivity. cbn in H.
    subst secs. reflexivity.
  - apply crawl_operations_method_step.
  - apply save_method_step.
  - apply print_status_method_step.
  - intros fr. apply keeps_frontier_quiet; [reflexivity|]. repeat constructor.
  - intros fr l. apply keeps_frontier_quiet; [reflexivity|]. constructor.
Qed.

Lemma rate_limit_handler_return tick project fr :
  result_of (rate_limit_handler G tick project fr) = Return tt ->
  count_waits (trace_of (rate_limit_handler G tick project fr)) = 1.
Proof.
  unfold rate_limit_handler, bind, modify, sleep, emit, raise, result_of, trace_of.
  destruct (is_negative _); cbn; [discriminate|reflexivity].
Qed.

(** An iteration that returns has taken one project from the frontier, or
    has put its project back and slept in the handler. *)
Lemma iteration_measure tick fr :
  let res := iteration G false ignore_contributors ignore_forkers
               ignore_stargazers tick (Float f) fr in
  result_of res = Return tt ->
  size (projects (state_of res)) + 1
  = size (projects fr) + count_waits (trace_of res).
Proof.
  cbv zeta. rewrite iteration_run.
  destruct (pop G tick (projects fr)) as [project|] eqn:Hpop; [|discriminate].
  apply pop_elem_of in Hpop.
  set (fr0 := set_projects (fun ps => ps ∖ {[project]}) fr).
  assert (Hsize : size (projects fr0) + 1 = size (projects fr)).
  { subst fr0. cbn. rewrite size_difference by (apply singleton_subseteq_l, Hpop).
    rewrite size_singleton.
    assert (size (projects fr) <> 0).
    { intros H0. apply size_empty_iff, leibniz_equiv in H0. rewrite H0 in Hpop.
      apply not_elem_of_empty in Hpop. contradiction. }
    lia. }
  pose proof (crawl_project_keeps_frontier tick project fr0) as (Hp & Hw).
  unfold try_except.
  destruct (crawl_project _ _ _ _ _ _ _ _ fr0) as [[fr1 tr1] [[]|e]];
    unfold state_of, trace_of, result_of in *; cbn [fst snd] in *.
  - intros _. rewrite Hp, Hw. lia.
  - destruct (decide (e = RateLimitExceededException)) as [->|Hne];
      [|cbn; discriminate].
    pose proof (rate_limit_handler_return tick project fr1) as Hret.
    destruct (rate_limit_handler_run G tick project fr1) as (Hst & _).
    destruct (rate_limit_handler G tick project fr1) as [[fr2 tr2] r2].
    unfold state_of, trace_of, result_of in *. cbn [fst snd] in *.
    intros Hr. rewrite count_waits_app, Hw, (Hret Hr). subst fr2. cbn.
    rewrite Hp. subst fr0. cbn.
    assert (Heq : projects fr ∖ {[project]} ∪ {[project]} = projects fr).
    { apply set_eq. intros x. rewrite elem_of_union, elem_of_difference,
        elem_of_singleton. split.
      - intros [[H _]| ->]; [exact H|exact Hpop].
      - intros H. destruct (decide (x = project)); [right|left]; auto. }
    rewrite Heq. lia.
Qed.

Lemma loop_measure fuel tick fr :
  let res := loop G false ignore_contributors ignore_forkers ignore_stargazers
               fuel tick (Float f) fr in
  result_of res = Running ->
  size (projects (state_of res)) <> 0
  /\ fuel + size (projects (state_of res))
     = size (projects fr) + count_waits (trace_of res).
Proof.
  cbv zeta. revert tick fr. induction fuel as [|fuel IH]; intros tick fr; cbn [loop].
  - case_bool_decide as Hsize; [discriminate|]. intros _.
    unfold state_of, trace_of. cbn. split; [exact Hsize|]. lia.
  - case_bool_decide as Hsize; [discriminate|].
    pose proof (iteration_measure tick fr) as Hit. cbv zeta in Hit.
    destruct (iteration _ _ _ _ _ _ _ fr) as [[fr1 tr1] [[]|e]]; [|discriminate].
    specialize (Hit eq_refl). specialize (IH (S tick) fr1).
    destruct (loop _ _ _ _ _ _ _ _ fr1) as [[fr2 tr2] st].
    unfold state_of, trace_of, result_of in *. cbn [fst snd] in *.
    intros Hst. destruct (IH Hst) as (Hne & Heq). split; [exact Hne|].
    rewrite count_waits_app. lia.
Qed.
End Measure.

(** X16: a crawl that is not recursive makes progress in every iteration:
    as long as it runs, the number of iterations done plus the number of
    projects left in the frontier equals the number of distinct projects of
    the list plus the number of times the handler of the rate limit has
    slept. So it has ended after at most as many iterations as there are
    projects and waits. *)
Theorem non_recursive_crawl_iterations
  G ignore_contributors ignore_forkers ignore_stargazers ignore_rate_limiting
  fuel projects0 self0 :
  let res := find_developers G false ignore_contributors ignore_forkers
               ignore_stargazers ignore_rate_limiting fuel projects0 self0 in
  result_of res = Running ->
  fuel + size (projects (state_of res))
    = size (list_to_set projects0 : gset string) + count_waits (trace_of res)
  /\ fuel < size (list_to_set projects0 : gset string) + count_waits (trace_of res).
Proof.
  cbv zeta. unfold find_developers. intros Hrun.
  assert (Hdt : exists f, pacing_delay G ignore_rate_limiting = Float f).
  { unfold pacing_delay. destruct ignore_rate_limiting; [eauto|].
    destruct (rate_limiting G 0). eauto. }
  destruct Hdt as (f & Hdt). rewrite Hdt in *.
  destruct (loop_measure G f ignore_contributors ignore_forkers ignore_stargazers
              fuel 0 {| self := self0; projects := list_to_set projects0;
                        forked_projects := None |} Hrun) as (Hne & Heq).
  cbn [projects] in Heq. split; [exact Heq|]. lia.
Qed.

Lemma non_recursive_crawl_iterations_witness :
  let res := find_developers sample_platform false false false false false
               1 ["a/b"; "c/d"] (init None) in
  1 + size (projects (state_of res))
  = size (list_to_set ["a/b"; "c/d"] : gset string) + count_waits (trace_of res).
Proof.
  destruct (non_recursive_crawl_iterations sample_platform false false false false
              1 ["a/b"; "c/d"] (init None)) as (H & _).
  - vm_compute. reflexivity.
  - exact H.
Defined.

(** ** What a crawl that completes has done *)

Lemma crawl_operations_mark repo dt s :
  (result_of (add_contributors repo dt s) = Return tt ->
   Repository.full_name repo
   ∈ crawled_projects_for_contributors (state_of (add_contributors repo dt s)))
  /\ (result_of (add_stargazers repo dt s) = Return tt ->
      Repository.full_name repo
      ∈ crawled_projects_for_stargazers (state_of (add_stargazers repo dt s)))
  /\ (forall l, result_of (add_forkers repo dt s) = Return l ->
      Repository.full_name repo
      ∈ crawled_projects_for_forkers (state_of (add_forkers repo dt s))).
Proof.
  split; [|split].
  - rewrite add_contributors_run. case_bool_decide as Hgate; [intros _; exact Hgate|].
    apply (listing_run_marks Contributors).
  - rewrite add_stargazers_run. case_bool_decide as Hgate; [intros _; exact Hgate|].
    apply (listing_run_marks Stargazers).
  - intros l. rewrite add_forkers_run.
    case_bool_decide as Hgate; [intros _; exact Hgate|].
    apply (listing_run_marks Forkers).
Qed.

Lemma on_self_return {A : Type} (m : M DeveloperBase A) fr a :
  result_of (on_self m fr) = Return a ->
  result_of (m (self fr)) = Return a
  /\ self (state_of (on_self m fr)) = state_of (m (self fr)).
Proof.
  unfold on_self, result_of, state_of. destruct (m (self fr)) as [[s tr] r]. cbn.
  auto.
Qed.

Lemma frame_step_keeps_crawled G dt k n (fr : Frame) {A : Type} (m : M Frame A) :
  guarantees m (frame_step G dt) ->
  n ∈ crawled_projects_for k (self fr) ->
  n ∈ crawled_projects_for k (self (state_of (m fr))).
Proof. intros Hm Hin. destruct (Hm fr) as ((Hsub & _) & _). apply Hsub, Hin. Qed.

Section Stages.
Variable G : Platform.
Variable dt : number.

Lemma save_report_frame_step :
  guarantees (on_self save ;; report) (frame_step G dt).
Proof.
  apply guarantees_bind; [apply _| |intros _; apply report_frame_step].
  apply on_self_frame_step, save_crawl_step.
Qed.

Lemma stage_contributors_frame_step ignore_contributors repo :
  guarantees (stage_contributors ignore_contributors repo dt) (frame_step G dt).
Proof.
  apply guarantees_when; [apply _|].
  apply guarantees_bind; [apply _| |intros _; apply save_report_frame_step].
  apply on_self_frame_step, add_contributors_crawl_step.
Qed.

Lemma stage_stargazers_frame_step ignore_stargazers repo :
  guarantees (stage_stargazers ignore_stargazers repo dt) (frame_step G dt).
Proof.
  apply guarantees_when; [apply _|].
  apply guarantees_bind; [apply _| |intros _; apply save_report_frame_step].
  apply on_self_frame_step, add_stargazers_crawl_step.
Qed.

Lemma assign_save_report_frame_step l :
  guarantees (modify (set_forked_projects l) ;; on_self save ;; report)
    (frame_step G dt).
Proof.
  apply guarantees_bind; [apply _| |intros _; apply save_report_frame_step].
  apply modify_frame_step. reflexivity.
Qed.

Lemma stage_forkers_frame_step ignore_forkers repo :
  guarantees (stage_forkers ignore_forkers repo dt) (frame_step G dt).
Proof.
  apply guarantees_when; [apply _|].
  apply guarantees_bind; [apply _| |intros l; apply assign_save_report_frame_step].
  apply on_self_frame_step, add_forkers_crawl_step.
Qed.

Lemma stage_contributors_done repo fr :
  result_of (stage_contributors false repo dt fr) = Return tt ->
  Repository.full_name repo
  ∈ crawled_projects_for Contributors
      (self (state_of (stage_contributors false repo dt fr))).
Proof.
  unfold stage_contributors. cbn [negb when]. intros H.
  apply bind_return_inv in H as ([] & Hop & _ & ->).
  apply on_self_return in Hop as (Hop & Hst).
  apply (frame_step_keeps_crawled G dt); [apply save_report_frame_step|].
  rewrite Hst. apply crawl_operations_mark. exact Hop.
Qed.

Lemma stage_stargazers_done repo fr :
  result_of (stage_stargazers false repo dt fr) = Return tt ->
  Repository.full_name repo
  ∈ crawled_projects_for Stargazers
      (self (state_of (stage_stargazers false repo dt fr))).
Proof.
  unfold stage_stargazers. cbn [negb when]. intros H.
  apply bind_return_inv in H as ([] & Hop & _ & ->).
  apply on_self_return in Hop as (Hop & Hst).
  apply (frame_step_keeps_crawled G dt); [apply save_report_frame_step|].
  rewrite Hst. apply crawl_operations_mark. exact Hop.
Qed.

Lemma stage_forkers_done repo fr :
  result_of (stage_forkers false repo dt fr) = Return tt ->
  Repository.full_name repo
  ∈ crawled_projects_for Forkers
      (self (state_of (stage_forkers false repo dt fr))).
Proof.
  unfold stage_forkers. cbn [negb when]. intros H.
  apply bind_return_inv in H as (l & Hop & _ & ->).
  apply on_self_return in Hop as (Hop & Hst).
  apply (frame_step_keeps_crawled G dt); [apply assign_save_report_frame_step|].
  rewrite Hst. apply (proj2 (proj2 (crawl_operations_mark repo dt (self fr))) l).
  exact Hop.
Qed.

Variables go_recursive ignore_contributors ignore_forkers ignore_stargazers : bool.

(** When the stages of a project return, the platform has answered the
    request for it and the repository is complete for every enabled
    kind. *)
Lemma crawl_relations_done tick project fr :
  result_of (crawl_relations G ignore_contributors ignore_forkers
               ignore_stargazers tick dt project fr) = Return tt ->
  crawled G ignore_contributors ignore_forkers ignore_stargazers project
    (self (state_of (crawl_relations G ignore_contributors ignore_forkers
                       ignore_stargazers tick dt project fr))).
Proof.
  change (crawl_relations G ignore_contributors ignore_forkers ignore_stargazers
            tick dt project)
    with (emit (EvGetRepo project) ;;
          repo <- lift (get_repo G tick project) ;;
          stage_contributors ignore_contributors repo dt ;;
          stage_stargazers ignore_stargazers repo dt ;;
          stage_forkers ignore_forkers repo dt).
  intros H.
  apply bind_return_inv in H as ([] & _ & H & E1).
  change (state_of (emit (EvGetRepo project) fr)) with fr in H, E1.
  apply bind_return_inv in H as (repo & Hrepo & H & E2).
  change (state_of (lift (get_repo G tick project) fr)) with fr in H, E2.
  unfold lift, result_of in Hrepo. cbn in Hrepo.
  apply bind_return_inv in H as ([] & Hc & H & E3).
  apply bind_return_inv in H as ([] & Hs & Hf & E4).
  rewrite E1, E2, E3, E4.
  exists tick, repo. split; [exact Hrepo|]. intros [] Hk; cbn in Hk; subst.
  - apply (frame_step_keeps_crawled G dt); [apply stage_forkers_frame_step|].
    apply (frame_step_keeps_crawled G dt); [apply stage_stargazers_frame_step|].
    apply stage_contributors_done. exact Hc.
  - apply (frame_step_keeps_crawled G dt); [apply stage_forkers_frame_step|].
    apply stage_stargazers_done. exact Hs.
  - apply stage_forkers_done. exact Hf.
Qed.

Lemma crawled_grows project s s' :
  crawled G ignore_contributors ignore_forkers ignore_stargazers project s ->
  grows s s' ->
  crawled G ignore_contributors ignore_forkers ignore_stargazers project s'.
Proof.
  intros (tick & repo & Hrepo & Hall) (Hsub & _). exists tick, repo.
  split; [exact Hrepo|]. intros k Hk. apply Hsub, Hall, Hk.
Qed.

Lemma update_frontier_self fr :
  self (state_of (update_frontier go_recursive fr)) = self fr.
Proof.
  unfold update_frontier, when, read_forked_projects, bind, get, ret, raise, modify.
  destruct go_recursive; [|reflexivity]. destruct (forked_projects fr); reflexivity.
Qed.

Lemma crawl_project_done tick project fr :
  result_of (crawl_project G go_recursive ignore_contributors ignore_forkers
               ignore_stargazers tick dt project fr) = Return tt ->
  crawled G ignore_contributors ignore_forkers ignore_stargazers project
    (self (state_of (crawl_project G go_recursive ignore_contributors
                       ignore_forkers ignore_stargazers tick dt project fr))).
Proof.
  unfold crawl_project. intros H.
  apply bind_return_inv in H as ([] & Hrel & _ & ->).
  rewrite update_frontier_self. apply crawl_relations_done. exact Hrel.
Qed.

(** An iteration that returns leaves a project of the frontier in the
    frontier, or has crawled it. *)
Lemma iteration_progress tick fr p :
  p ∈ projects fr ->
  let res := iteration G go_recursive ignore_contributors ignore_forkers
               ignore_stargazers tick dt fr in
  result_of res = Return tt ->
  p ∈ projects (state_of res)
  \/ crawled G ignore_contributors ignore_forkers ignore_stargazers p
       (self (state_of res)).
Proof.
  intros Hp. cbv zeta. rewrite iteration_run.
  destruct (pop G tick (projects fr)) as [project|] eqn:Hpop; [|discriminate].
  set (fr0 := set_projects (fun ps => ps ∖ {[project]}) fr).
  destruct (decide (p = project)) as [->|Hne].
  - pose proof (crawl_project_done tick project fr0) as Hdone.
    unfold try_except.
    destruct (crawl_project _ _ _ _ _ _ _ _ fr0) as [[fr1 tr1] [[]|e]].
    + intros _. right. exact (Hdone eq_refl).
    + destruct (decide (e = RateLimitExceededException)); [|discriminate].
      destruct (rate_limit_handler_run G tick project fr1) as (Hst & _).
      destruct (rate_limit_handler G tick project fr1) as [[fr2 tr2] r2].
      unfold state_of in *. cbn [fst] in *. subst fr2. intros _. left. cbn.
      apply elem_of_union_r, elem_of_singleton. reflexivity.
  - intros _. left.
    assert (Hg : guarantees
              (try_except
                 (crawl_project G go_recursive ignore_contributors ignore_forkers
                    ignore_stargazers tick dt project)
                 RateLimitExceededException
                 (rate_limit_handler G tick project)) frontier_grows).
    { apply guarantees_try_except; [apply _|apply crawl_project_frontier_grows|].
      intros fr'. unfold holds_at, frontier_grows.
      destruct (rate_limit_handler_run G tick project fr') as (-> & _). cbn.
      apply union_subseteq_l. }
    apply (Hg fr0). subst fr0. cbn. apply elem_of_difference. split; [exact Hp|].
    intros Hin. apply elem_of_singleton in Hin. contradiction.
Qed.

Lemma loop_progress fuel tick fr p :
  p ∈ projects fr
  \/ crawled G ignore_contributors ignore_forkers ignore_stargazers p (self fr) ->
  let res := loop G go_recursive ignore_contributors ignore_forkers
               ignore_stargazers fuel tick dt fr in
  result_of res = Finished (Return tt) ->
  crawled G ignore_contributors ignore_forkers ignore_stargazers p
    (self (state_of res)).
Proof.
  cbv zeta. revert tick fr. induction fuel as [|fuel IH]; intros tick fr Hp;
    cbn [loop].
  - case_bool_decide as Hsize; [|discriminate]. intros _.
    destruct Hp as [Hp|Hp]; [|exact Hp].
    apply size_empty_iff, leibniz_equiv in Hsize. rewrite Hsize in Hp.
    apply not_elem_of_empty in Hp. contradiction.
  - case_bool_decide as Hsize.
    { intros _. destruct Hp as [Hp|Hp]; [|exact Hp].
      apply size_empty_iff, leibniz_equiv in Hsize. rewrite Hsize in Hp.
      apply not_elem_of_empty in Hp. contradiction. }
    pose proof (iteration_progress tick fr p) as Hit. cbv zeta in Hit.
    pose proof (iteration_frame_step G dt go_recursive ignore_contributors
                  ignore_forkers ignore_stargazers tick fr) as (Hg & _).
    destruct (iteration _ _ _ _ _ _ _ fr) as [[fr1 tr1] [[]|e]]; [|discriminate].
    unfold state_of, result_of in *. cbn [fst snd] in *.
    assert (Hp1 : p ∈ projects fr1
                  \/ crawled G ignore_contributors ignore_forkers ignore_stargazers
                       p (self fr1)).
    { destruct Hp as [Hp|Hp]; [exact (Hit Hp eq_refl)|].
      right. eapply crawled_grows; eassumption. }
    specialize (IH (S tick) fr1 Hp1).
    destruct (loop _ _ _ _ _ _ _ _ fr1) as [[fr2 tr2] st]. exact IH.
Qed.
End Stages.

(** X17: a call of [find_developers] that returns has crawled every
    project of its list: for each of them the platform has answered the
    request in some iteration, and the repository it answered with is in
    the completion set of every relation kind that is not ignored. *)
Theorem completed_crawl_has_crawled_every_project
  G go_recursive ignore_contributors ignore_forkers ignore_stargazers
  ignore_rate_limiting fuel projects0 self0 p :
  let res := find_developers G go_recursive ignore_contributors ignore_forkers
               ignore_stargazers ignore_rate_limiting fuel projects0 self0 in
  result_of res = Finished (Return tt) ->
  p ∈ projects0 ->
  exists tick repo,
    get_repo G tick p = Return repo
    /\ forall k, enabled ignore_contributors ignore_forkers ignore_stargazers k ->
         Repository.full_name repo ∈ crawled_projects_for k (self (state_of res)).
Proof.
  cbv zeta. unfold find_developers. intros Hfin Hp.
  apply (loop_progress G (pacing_delay G ignore_rate_limiting) go_recursive
           ignore_contributors ignore_forkers ignore_stargazers fuel 0 _ p);
    [|exact Hfin].
  left. cbn. apply elem_of_list_to_set. exact Hp.
Qed.

Lemma completed_crawl_has_crawled_every_project_witness :
  exists tick repo,
    get_repo sample_platform tick "busy/repo" = Return repo
    /\ forall k, enabled false false false k ->
         Repository.full_name repo
         ∈ crawled_projects_for k
             (self (state_of (find_developers sample_platform false false false
                                false false 3 ["busy/repo"] (init None)))).
Proof.
  apply completed_crawl_has_crawled_every_project.
  - vm_compute. reflexivity.
  - apply list_elem_of_singleton. reflexivity.
Defined.

(** ** The script [find.py] *)

(** X18: a run of the script requests only its two projects; it writes
    every snapshot to the path of the base it works on, which is
    [developers.pkl] when no file was there and the path stored in the
    restored object otherwise (none at all when that object has no path);
    and it requests no listing that the restored base has completed. *)
Theorem script_run_saves_and_resumes G stored fuel :
  let res := Find.main G stored fuel in
  (forall p, EvGetRepo p ∈ trace_of res -> p ∈ Find.projects)
  /\ (forall path snapshot, EvSave path snapshot ∈ trace_of res ->
        match stored with
        | Some restored => file_path restored = Some path
        | None => path = Find.file_path
        end)
  /\ (forall restored k n,
        stored = Some restored ->
        n ∈ crawled_projects_for k restored ->
        EvFetch k n ∉ trace_of res).
Proof.
  cbv zeta. unfold Find.main, find_developers.
  set (base := match stored with Some restored => restored
                             | None => init (Some Find.file_path) end).
  set (fr0 := {| self := base; projects := list_to_set Find.projects;
                 forked_projects := None |}).
  split; [|split].
  - intros p Hin. apply (elem_of_list_to_set (C := gset string)).
    destruct (loop_guarantee G (pacing_delay G false) false false false false
                (requests_within (list_to_set Find.projects))
                (iteration_requests_within G (pacing_delay G false) false false false
                   (list_to_set Find.projects))
                fuel 0 fr0) as (_ & Hreq); [reflexivity|].
    exact (Hreq p Hin).
  - intros path snapshot Hin.
    destruct (loop_saving_step G (pacing_delay G false) false false false false
                fuel 0 fr0) as (_ & _ & Hsave).
    destruct (Hsave _ _ Hin) as (Hpath & _). subst fr0 base. cbn in Hpath.
    destruct stored as [restored|]; [symmetry; exact Hpath|].
    cbn in Hpath. injection Hpath as ->. reflexivity.
  - intros restored k n -> Hdone Hin.
    destruct (loop_frame_step G (pacing_delay G false) false false false false
                fuel 0 fr0) as (_ & Hfetch & _).
    exact (Hfetch _ _ Hin Hdone).
Qed.

(** ** The gazetteer that [GeoParser.__init__] builds *)

Lemma lower_ascii_idem c :
  GeoParser.lower_ascii (GeoParser.lower_ascii c) = GeoParser.lower_ascii c.
Proof. destruct c as [[] [] [] [] [] [] [] []]; reflexivity. Qed.

Lemma ascii_lower_idem s :
  GeoParser.ascii_lower (GeoParser.ascii_lower s) = GeoParser.ascii_lower s.
Proof.
  induction s as [|c s IH]; cbn; [reflexivity|]. rewrite lower_ascii_idem, IH.
  reflexivity.
Qed.

Lemma drop_duplicates_from_elem df :
  forall seen r,
    r ∈ GeoParser.drop_duplicates_from seen df
    <-> exists l1 l2,
          df = l1 ++ r :: l2
          /\ (row_key r ∉ seen)
          /\ row_key r ∉ List.map row_key l1.
Proof.
  induction df as [|r' df IH]; intros seen r; cbn [GeoParser.drop_duplicates_from].
  - split; [intros H; inversion H|]. intros (l1 & l2 & H & _).
    destruct l1; discriminate H.
  - fold (row_key r'). case_bool_decide as Hseen.
    + rewrite IH. split.
      * intros (l1 & l2 & -> & Hs & Hl). exists (r' :: l1), l2.
        split; [reflexivity|]. split; [exact Hs|]. cbn. rewrite not_elem_of_cons.
        split; [|exact Hl]. intros Heq. rewrite Heq in Hs. contradiction.
      * intros (l1 & l2 & Heq & Hs & Hl). destruct l1 as [|r1 l1]; cbn in Heq.
        -- injection Heq as -> ->. contradiction.
        -- injection Heq as -> ->. exists l1, l2. split; [reflexivity|].
           split; [exact Hs|]. cbn in Hl. rewrite not_elem_of_cons in Hl. tauto.
    + rewrite elem_of_cons, IH. split.
      * intros [->|(l1 & l2 & -> & Hs & Hl)].
        -- exists [], df. split; [reflexivity|]. split; [exact Hseen|].
           apply not_elem_of_nil.
        -- rewrite not_elem_of_cons in Hs. exists (r' :: l1), l2.
           split; [reflexivity|]. split; [tauto|]. cbn. rewrite not_elem_of_cons.
           tauto.
      * intros (l1 & l2 & Heq & Hs & Hl). destruct l1 as [|r1 l1]; cbn in Heq.
        -- injection Heq as -> ->. left. reflexivity.
        -- injection Heq as -> ->. right. exists l1, l2. split; [reflexivity|].
           cbn in Hl. rewrite not_elem_of_cons in Hl. rewrite not_elem_of_cons.
           tauto.
Qed.

Lemma drop_duplicates_from_NoDup df :
  forall seen, NoDup (List.map row_key (GeoParser.drop_duplicates_from seen df)).
Proof.
  induction df as [|r df IH]; intros seen; cbn [GeoParser.drop_duplicates_from].
  - constructor.
  - fold (row_key r). case_bool_decide as Hseen; [apply IH|]. cbn.
    constructor; [|apply IH]. intros Hin.
    apply list_elem_of_In, in_map_iff in Hin as (r' & Hkey & Hin).
    apply list_elem_of_In, drop_duplicates_from_elem in Hin as (_ & _ & _ & Hs & _).
    apply Hs. rewrite Hkey. apply elem_of_cons. left. reflexivity.
Qed.

Lemma init_elem {T : GeoParser.Text} csv r :
  r ∈ GeoParser.init csv
  <-> exists l1 l2,
        List.map lower_row csv = l1 ++ r :: l2
        /\ row_key r ∉ List.map row_key l1.
Proof.
  unfold GeoParser.init. change (List.map _ csv) with (List.map lower_row csv).
  rewrite drop_duplicates_from_elem. split.
  - intros (l1 & l2 & Heq & _ & Hl). eauto.
  - intros (l1 & l2 & Heq & Hl). exists l1, l2.
    split; [exact Heq|]. split; [apply not_elem_of_nil|exact Hl].
Qed.

Lemma init_rows_lower {T : GeoParser.Text} csv r :
  (forall s, GeoParser.lower (GeoParser.lower s) = GeoParser.lower s) ->
  r ∈ GeoParser.init csv -> lower_row r = r.
Proof.
  intros lower_idem. unfold GeoParser.init. change (List.map _ csv) with (List.map lower_row csv).
  rewrite drop_duplicates_from_elem. intros (l1 & l2 & Heq & _).
  assert (Hr : In r (List.map lower_row csv))
    by (rewrite Heq; apply in_or_app; right; left; reflexivity).
  apply in_map_iff in Hr as (r0 & <- & _). unfold lower_row. cbn.
  rewrite !lower_idem. reflexivity.
Qed.

(** X19: the gazetteer built by [__init__] has at most one row for every
    pair of city and country. *)
Theorem init_has_one_row_per_city_and_country {T : GeoParser.Text} csv :
  NoDup (List.map row_key (GeoParser.init csv)).
Proof. unfold GeoParser.init. apply drop_duplicates_from_NoDup. Qed.

(** X20: the rows of the gazetteer are the rows of the file with
    [str.lower] applied to the three columns, and of these exactly the
    first of every pair of city and country, in the order of the file.
    As [str.lower] leaves what it returns as it is, every row of the
    gazetteer is in lower case: [str.lower] does not change it. *)
Theorem init_keeps_first_rows_in_lower_case {T : GeoParser.Text} csv r :
  (forall s, GeoParser.lower (GeoParser.lower s) = GeoParser.lower s) ->
  (r ∈ GeoParser.init csv
   <-> exists l1 l2,
         List.map lower_row csv = l1 ++ r :: l2
         /\ row_key r ∉ List.map row_key l1)
  /\ (r ∈ GeoParser.init csv -> lower_row r = r).
Proof.
  intros lower_idem. split; [apply init_elem|].
  intros Hin. apply init_elem in Hin as (l1 & l2 & Heq & _).
  assert (Hr : In r (List.map lower_row csv))
    by (rewrite Heq; apply in_or_app; right; left; reflexivity).
  apply in_map_iff in Hr as (r0 & <- & _). unfold lower_row. cbn.
  rewrite !lower_idem. reflexivity.
Qed.

Lemma init_keeps_first_rows_in_lower_case_witness :
  let r := {| GeoParser.city := "são paulo"; GeoParser.city_ascii := "sao paulo";
              GeoParser.country := "brazil" |} in
  r ∈ GeoParser.init (T := GeoParser.ascii_text) (sample_csv ++ sample_csv)
  /\ lower_row (T := GeoParser.ascii_text) r = r.
Proof.
  cbv zeta.
  destruct (init_keeps_first_rows_in_lower_case (T := GeoParser.ascii_text)
              (sample_csv ++ sample_csv)
              {| GeoParser.city := "são paulo"; GeoParser.city_ascii := "sao paulo";
                 GeoParser.country := "brazil" |} ascii_lower_idem)
    as (Hrows & Hlower).
  assert (Hin : {| GeoParser.city := "são paulo"; GeoParser.city_ascii := "sao paulo";
                   GeoParser.country := "brazil" |}
                ∈ GeoParser.init (T := GeoParser.ascii_text) (sample_csv ++ sample_csv)).
  { apply Hrows. exists [], (List.tl (List.map (lower_row (T := GeoParser.ascii_text))
                                      (sample_csv ++ sample_csv))).
    split; [vm_compute; reflexivity|apply not_elem_of_nil]. }
  split; [exact Hin|exact (Hlower Hin)].
Defined.

(** ** More on [parse_location] *)

Lemma unique_from_NoDup l : forall seen, NoDup (GeoParser.unique_from seen l).
Proof.
  induction l as [|x l IH]; intros seen; cbn; [constructor|].
  case_bool_decide; [apply IH|]. constructor; [|apply IH].
  rewrite elem_of_unique_from. intros [_ Hs]. apply Hs, elem_of_cons. left.
  reflexivity.
Qed.

Lemma matches_spec col locs r :
  matches col locs r = true <-> col r = "?@#" \/ col r ∈ locs.
Proof.
  unfold matches. rewrite orb_true_iff, String.eqb_eq, bool_decide_eq_true.
  reflexivity.
Qed.

Lemma elem_of_filter_map {A : Type} (f : GeoParser.row -> bool)
  (g : GeoParser.row -> string) df c :
  c ∈ List.map g (List.filter f df) <-> exists r, r ∈ df /\ f r = true /\ g r = c.
Proof.
  rewrite list_elem_of_In, in_map_iff. split.
  - intros (r & <- & Hin). apply filter_In in Hin as (Hin & Hf).
    exists r. rewrite list_elem_of_In. auto.
  - intros (r & Hin & Hf & <-). exists r. split; [reflexivity|].
    apply filter_In. rewrite <- list_elem_of_In. auto.
Qed.

(** X21: the two lists that [parse_location] returns for a string have no
    duplicates; a city is returned exactly when it is the ASCII name of a
    row whose city is one of the tokens of the location (or the marker
    ["?@#"] of the initial mask). *)
Theorem parse_location_cities {T : GeoParser.Text} df location :
  let res := GeoParser.parse_location df (GeoParser.Str location) in
  NoDup res.1
  /\ NoDup res.2
  /\ forall c, c ∈ res.2 <->
       exists r, r ∈ df
                 /\ (GeoParser.city r ∈ tokens location \/ GeoParser.city r = "?@#")
                 /\ GeoParser.city_ascii r = c.
Proof.
  cbv zeta. rewrite parse_location_run. cbv zeta.
  assert (Hcities : forall c,
    c ∈ GeoParser.unique (List.map GeoParser.city_ascii
          (List.filter (matches GeoParser.city (tokens location)) df))
    <-> exists r, r ∈ df
                  /\ (GeoParser.city r ∈ tokens location \/ GeoParser.city r = "?@#")
                  /\ GeoParser.city_ascii r = c).
  { intros c. rewrite elem_of_unique, (elem_of_filter_map (A := unit)). split.
    - intros (r & Hin & Hm & Hc). apply matches_spec in Hm. exists r. tauto.
    - intros (r & Hin & Hm & Hc). exists r. rewrite matches_spec. tauto. }
  destruct (_ && _); cbn [fst snd];
    (split; [apply unique_from_NoDup|]; split; [apply unique_from_NoDup|];
     exact Hcities).
Qed.

Lemma matches_ext col locs1 locs2 :
  (forall t, t ∈ locs1 <-> t ∈ locs2) ->
  forall r, matches col locs1 r = matches col locs2 r.
Proof.
  intros Hsame r. unfold matches. f_equal. apply bool_decide_ext, Hsame.
Qed.

(** X22: the result of [parse_location] depends on the set of tokens only:
    two locations that differ in the order of their parts, in repeated
    parts, in upper and lower case or in the white space around the parts
    give the same result. *)
Theorem parse_location_depends_on_token_set {T : GeoParser.Text}
  df location1 location2 :
  (forall t, t ∈ tokens location1 <-> t ∈ tokens location2) ->
  GeoParser.parse_location df (GeoParser.Str location1)
  = GeoParser.parse_location df (GeoParser.Str location2).
Proof.
  intros Hsame. rewrite !parse_location_run. cbv zeta.
  rewrite (filter_ext _ _ (matches_ext GeoParser.city _ _ Hsame) df).
  rewrite (filter_ext _ _ (matches_ext GeoParser.country _ _ Hsame) df).
  reflexivity.
Qed.

Lemma parse_location_depends_on_token_set_witness :
  GeoParser.parse_location (T := GeoParser.ascii_text)
    (GeoParser.init (T := GeoParser.ascii_text) sample_csv)
    (GeoParser.Str "Berlin, Germany")
  = GeoParser.parse_location (T := GeoParser.ascii_text)
      (GeoParser.init (T := GeoParser.ascii_text) sample_csv)
      (GeoParser.Str " germany ,BERLIN,berlin").
Proof.
  apply parse_location_depends_on_token_set. intros t.
  change (tokens (T := GeoParser.ascii_text) "Berlin, Germany")
    with ["berlin"; "germany"].
  change (tokens (T := GeoParser.ascii_text) " germany ,BERLIN,berlin")
    with ["germany"; "berlin"; "berlin"].
  rewrite !elem_of_cons, !elem_of_nil. tauto.
Defined.

(** X23: a country among the tokens takes precedence: when a row has one
    of the tokens as its country, the countries returned are exactly the
    countries of such rows, each of them a token of the location (or the
    marker); the countries of the cities found are not consulted. *)
Theorem parse_location_named_country_wins {T : GeoParser.Text} df location :
  List.filter (matches GeoParser.country (tokens location)) df <> [] ->
  let res := GeoParser.parse_location df (GeoParser.Str location) in
  res.1 = GeoParser.unique
            (List.map GeoParser.country
               (List.filter (matches GeoParser.country (tokens location)) df))
  /\ res.1 <> []
  /\ forall c, c ∈ res.1 -> c ∈ tokens location \/ c = "?@#".
Proof.
  intros Hsome. cbv zeta. rewrite parse_location_run. cbv zeta.
  set (countries := GeoParser.unique (List.map GeoParser.country
         (List.filter (matches GeoParser.country (tokens location)) df))).
  assert (Hne : countries <> []).
  { intros Hnil. apply unique_nil_inv, map_eq_nil in Hnil. contradiction. }
  assert (Hlen : (length countries =? 0)%nat = false).
  { apply Nat.eqb_neq. destruct countries; [contradiction|discriminate]. }
  rewrite Hlen. cbn [andb fst]. split; [reflexivity|]. split; [exact Hne|].
  intros c Hc. subst countries.
  apply elem_of_unique, (elem_of_filter_map (A := unit)) in Hc as (r & _ & Hm & <-).
  apply matches_spec in Hm. tauto.
Qed.

Lemma parse_location_named_country_wins_witness :
  (GeoParser.parse_location (T := GeoParser.ascii_text)
     (GeoParser.init (T := GeoParser.ascii_text) sample_csv)
     (GeoParser.Str "Paris, Germany")).1 = ["germany"].
Proof.
  destruct (parse_location_named_country_wins (T := GeoParser.ascii_text)
              (GeoParser.init (T := GeoParser.ascii_text) sample_csv)
              "Paris, Germany") as (Hcountries & _).
  - vm_compute. discriminate.
  - rewrite Hcountries. vm_compute. reflexivity.
Defined.

(** X24: a location none of whose tokens is the city or the country of a
    row gives two empty lists, provided that no row has the marker
    ["?@#"] as city or country. *)
Theorem parse_location_without_match {T : GeoParser.Text} df location :
  (forall r t, r ∈ df -> t ∈ "?@#" :: tokens location ->
     GeoParser.city r <> t /\ GeoParser.country r <> t) ->
  GeoParser.parse_location df (GeoParser.Str location) = ([], []).
Proof.
  intros Hnone. rewrite parse_location_run. cbv zeta.
  assert (Hfilter : forall col,
            (forall r t, r ∈ df -> t ∈ "?@#" :: tokens location -> col r <> t) ->
            List.filter (matches col (tokens location)) df = []).
  { intros col Hcol.
    destruct (List.filter (matches col (tokens location)) df) as [|r rest] eqn:Hf;
      [reflexivity|exfalso].
    assert (Hr : In r (List.filter (matches col (tokens location)) df))
      by (rewrite Hf; left; reflexivity).
    apply filter_In in Hr as (Hin & Hm).
    apply list_elem_of_In in Hin. apply matches_spec in Hm.
    destruct Hm as [Hm|Hm].
    - apply (Hcol r "?@#" Hin); [apply elem_of_cons; left; reflexivity|exact Hm].
    - apply (Hcol r (col r) Hin); [apply elem_of_cons; right; exact Hm|reflexivity]. }
  rewrite (Hfilter GeoParser.city), (Hfilter GeoParser.country).
  - reflexivity.
  - intros r t Hr Ht. apply (Hnone r t Hr Ht).
  - intros r t Hr Ht. apply (Hnone r t Hr Ht).
Qed.

Lemma parse_location_without_match_witness :
  GeoParser.parse_location (T := GeoParser.ascii_text)
    (GeoParser.init (T := GeoParser.ascii_text) sample_csv)
    (GeoParser.Str "Atlantis")
  = ([], []).
Proof.
  apply parse_location_without_match. intros r t Hr Ht.
  change (GeoParser.init (T := GeoParser.ascii_text) sample_csv) with
    [ {| GeoParser.city := "são paulo"; GeoParser.city_ascii := "sao paulo";
         GeoParser.country := "brazil" |};
      {| GeoParser.city := "berlin"; GeoParser.city_ascii := "berlin";
         GeoParser.country := "germany" |};
      {| GeoParser.city := "paris"; GeoParser.city_ascii := "paris";
         GeoParser.country := "france" |} ] in Hr.
  change (tokens (T := GeoParser.ascii_text) "Atlantis") with ["atlantis"] in Ht.
  rewrite !elem_of_cons, !elem_of_nil in Hr.
  rewrite !elem_of_cons, !elem_of_nil in Ht.
  destruct Hr as [->|[->|[->|[]]]]; destruct Ht as [->|[->|[]]]; cbn;
    split; discriminate.
Defined.

(** X25: when [str.lower] leaves what it returns as it is, every
    country that [parse_location] returns on a gazetteer built by
    [__init__] is in lower case. As the lower case of ["Sweden"] is
    ["sweden"], none of them is the entry ["Sweden"] of
    [get_eu_countries], and the name ["sweden"] that a Swedish city
    resolves to is not an entry of that list. *)
Theorem parsed_country_is_never_the_capitalised_entry {T : GeoParser.Text}
  csv location c :
  (forall s, GeoParser.lower (GeoParser.lower s) = GeoParser.lower s) ->
  GeoParser.lower "Sweden" = "sweden" ->
  c ∈ (GeoParser.parse_location (GeoParser.init csv) location).1 ->
  GeoParser.lower c = c
  /\ c <> "Sweden"
  /\ "Sweden" ∈ GeoParser.get_eu_countries
  /\ "sweden" ∉ GeoParser.get_eu_countries.
Proof.
  intros lower_idem Hsweden Hc.
  assert (Hlower : GeoParser.lower c = c).
  { destruct location as [location|]; [|inversion Hc].
    rewrite parse_location_run in Hc. cbv zeta in Hc.
    assert (Hrow : exists r, r ∈ GeoParser.init csv /\ GeoParser.country r = c).
    { destruct (_ && _); cbn [fst] in Hc;
        apply elem_of_unique, (elem_of_filter_map (A := unit)) in Hc
          as (r & Hr & _ & <-); eauto. }
    destruct Hrow as (r & Hr & <-).
    apply (init_rows_lower _ _ lower_idem) in Hr.
    apply (f_equal GeoParser.country) in Hr. exact Hr. }
  split; [exact Hlower|]. split.
  - intros ->. rewrite Hsweden in Hlower. discriminate Hlower.
  - split.
    + apply (bool_decide_unpack _). vm_compute. exact I.
    + apply (bool_decide_unpack _). vm_compute. exact I.
Qed.

Lemma parsed_country_is_never_the_capitalised_entry_witness :
  GeoParser.lower (Text := GeoParser.ascii_text) "germany" = "germany"
  /\ "germany" <> "Sweden".
Proof.
  destruct (parsed_country_is_never_the_capitalised_entry (T := GeoParser.ascii_text)
              sample_csv (GeoParser.Str "Berlin") "germany")
    as (Hlower & Hne & _).
  - exact ascii_lower_idem.
  - reflexivity.
  - vm_compute. apply elem_of_cons. left. reflexivity.
  - split; [exact Hlower|exact Hne].
Defined.
